(** * SubstitutionBreaker: a shallow embedding of [subbreaker.key],
    [subbreaker.breaker] and the key builder of [subbreaker.command], and
    the properties of its specification.

    Conventions of the embedding.
    - A Python [str] is a list of characters ([list ascii]).  Case conversion
      ([str.lower], [str.upper]) is the one Python performs on ASCII text: it
      maps [A-Z] to [a-z] and back, one character to one character.  A
      statement that depends on the case conversion of a string says that the
      string is ASCII ([is_ascii]).
    - A Python [int] is a [Z]; an index that comes from [range] or [enumerate]
      is a [nat].
    - A Python [float] is idealised as a rational [Q]: true division is the
      exact quotient and [round] rounds the exact value, where Python computes
      in binary64 and returns the nearest double.  The statements therefore
      assert of such a value only which integers it is the quotient of, its
      sign, and whether the division raises; never its digits.
    - A raised exception is a value of [exn]; a function that may raise
      returns a [res].  [OutOfFuel] is not a Python outcome: it is what the
      [while] loop of the hill climber returns when the fuel given to the
      model is used up. *)

From Stdlib Require Import ZArith QArith Qround Lqa Ascii String List Lia Permutation.
From stdpp Require Import base tactics option list gmap strings.

Local Open Scope Z_scope.
Local Open Scope nat_scope.

(** ** The Python runtime the code relies on *)

Abbreviation str := (list ascii).

Definition str_of (s : string) : str := list_ascii_of_string s.

Inductive exn : Type :=
| ValueError (msg : string)
| IndexError
| UnboundLocalError
| ZeroDivisionError
| StopIteration
| AlphabetInvalid (msg : string)
| KeyInvalid (msg : string).

Inductive res (A : Type) : Type :=
| Ok (a : A)
| Raise (e : exn)
| OutOfFuel.

Arguments Ok {A} a.
Arguments Raise {A} e.
Arguments OutOfFuel {A}.

Definition res_bind {A B : Type} (f : A → res B) (m : res A) : res B :=
  match m with
  | Ok a => f a
  | Raise e => Raise e
  | OutOfFuel => OutOfFuel
  end.

#[global] Instance res_mret : MRet res := @Ok.
#[global] Instance res_mbind : MBind res := @res_bind.

(** [for x in l: s = body(x, s)], where the body may raise. *)
Fixpoint for_ {A S : Type} (l : list A) (body : A → S → res S) (s : S) : res S :=
  match l with
  | [] => Ok s
  | x :: l' => s' ← body x s; for_ l' body s'
  end.

(** [l[i]] for a non-negative index. *)
Definition getitem {A : Type} (l : list A) (i : nat) : res A :=
  match l !! i with
  | Some x => Ok x
  | None => Raise IndexError
  end.

(** [l[i] = v] for a non-negative index. *)
Definition setitem {A : Type} (l : list A) (i : nat) (v : A) : res (list A) :=
  if decide (i < length l) then Ok (<[i:=v]> l) else Raise IndexError.

(** [l.index(x)]: the first position of [x].  The message of Python names
    the value that is missing; the model writes [x] for it. *)
Fixpoint index {A : Type} `{EqDecision A} (l : list A) (x : A) : res nat :=
  match l with
  | [] => Raise (ValueError "x is not in list")
  | y :: l' => if decide (y = x) then Ok 0 else i ← index l' x; Ok (S i)
  end.

(** [l.remove(x)]: the list without the first occurrence of [x]. *)
Fixpoint list_remove {A : Type} `{EqDecision A} (l : list A) (x : A)
    : res (list A) :=
  match l with
  | [] => Raise (ValueError "list.remove(x): x not in list")
  | y :: l' =>
    if decide (y = x) then Ok l' else l'' ← list_remove l' x; Ok (y :: l'')
  end.

(** [l[i]] for an integer index: a negative index counts from the end. *)
Definition getitemZ {A : Type} (l : list A) (i : Z) : res A :=
  let i := if (i <? 0)%Z then (Z.of_nat (length l) + i)%Z else i in
  if (i <? 0)%Z then Raise IndexError else getitem l (Z.to_nat i).

(** [l[i] = v] for an integer index. *)
Definition setitemZ {A : Type} (l : list A) (i : Z) (v : A) : res (list A) :=
  let i := if (i <? 0)%Z then (Z.of_nat (length l) + i)%Z else i in
  if (i <? 0)%Z then Raise IndexError else setitem l (Z.to_nat i) v.

(** [[f(x) for x in l]], where [f] may raise. *)
Fixpoint comprehension {A B : Type} (f : A → res B) (l : list A) : res (list B) :=
  match l with
  | [] => Ok []
  | x :: l' => y ← f x; ys ← comprehension f l'; Ok (y :: ys)
  end.

(** [range(a, b)]. *)
Definition range (a b : nat) : list nat := seq a (b - a).

(** [sum(l)] and [max(l)] of a list of integers ([max] of an empty list
    raises). *)
Definition py_sum (l : list Z) : Z := foldl Z.add 0%Z l.

Definition py_max (l : list Z) : res Z :=
  match l with
  | [] => Raise (ValueError "max() arg is an empty sequence")
  | x :: l' => Ok (foldl Z.max x l')
  end.

(** [round(x)]: the nearest integer, a tie going to the even one; and
    [round(x, 3)].  Both round the exact rational; on a double that is not
    exactly representable Python may round the other way at a tie (no
    statement depends on the digits of [round3]). *)
Definition py_round (x : Q) : Z :=
  let f := Qfloor x in
  match (x - inject_Z f ?= 1 # 2)%Q with
  | Lt => f
  | Gt => (f + 1)%Z
  | Eq => if Z.even f then f else (f + 1)%Z
  end.

Definition round3 (x : Q) : Q := (inject_Z (py_round (x * 1000)) / 1000)%Q.

(** [str.lower] and [str.upper] on ASCII text. *)
Definition is_ascii (s : str) : bool :=
  forallb (λ c, Nat.ltb (nat_of_ascii c) 128) s.

Definition char_lower (c : ascii) : ascii :=
  let n := nat_of_ascii c in
  if Nat.leb 65 n && Nat.leb n 90 then ascii_of_nat (n + 32) else c.

Definition char_upper (c : ascii) : ascii :=
  let n := nat_of_ascii c in
  if Nat.leb 97 n && Nat.leb n 122 then ascii_of_nat (n - 32) else c.

Definition lower (s : str) : str := char_lower <$> s.
Definition upper (s : str) : str := char_upper <$> s.

(** [set(s)] of a string. *)
Definition set (s : str) : gset ascii := list_to_set s.

(** [str.maketrans(x, y)]: a dictionary built pair by pair, a later pair
    overwriting an earlier one with the same key. *)
Definition maketrans (x y : str) : res (gmap ascii ascii) :=
  if decide (length x = length y)
  then Ok (foldl (λ table p, <[p.1:=p.2]> table) ∅ (zip x y))
  else Raise (ValueError "the first two maketrans arguments must have equal length").

(** [s.translate(table)]: a character without an entry is kept. *)
Definition translate (table : gmap ascii ascii) (s : str) : str :=
  (λ c, default c (table !! c)) <$> s.

(** ** subbreaker/key.py *)

Module Key.

Definition _DEFAULT_ALPHABET : str := str_of "abcdefghijklmnopqrstuvwxyz".

Record t : Type := mk {
  _alphabet : str;
  _key : str;
  _encode : gmap ascii ascii;
  _decode : gmap ascii ascii
}.

Definition check_alphabet (alphabet : str) : res str :=
  let alphabet := lower alphabet in
  if decide (length alphabet ≠ size (set alphabet))
  then Raise (AlphabetInvalid "alphabet characters must be unique")
  else Ok alphabet.

Definition check_key (key alphabet : str) : res str :=
  let key := lower key in
  let key_set := set key in
  if decide (length key ≠ size key_set)
  then Raise (KeyInvalid "key characters must be unique")
  else if decide (length key ≠ length alphabet)
  then Raise (KeyInvalid "key must be as long as the alphabet")
  else if decide (key_set ≠ set alphabet)
  then Raise (KeyInvalid "key must use the same set of characters than the alphabet")
  else Ok key.

Definition _upper (string : str) : str :=
  char ← string;
  if decide (length (upper [char]) = 1) then upper [char] else [char].

Definition __init__ (key alphabet : str) : res t :=
  self_alphabet ← check_alphabet alphabet;
  self_key ← check_key key self_alphabet;
  let camel_key := _upper key ++ lower key in
  let camel_alphabet := _upper alphabet ++ lower alphabet in
  self_encode ← maketrans camel_alphabet camel_key;
  self_decode ← maketrans camel_key camel_alphabet;
  Ok (mk self_alphabet self_key self_encode self_decode).

Definition decode (self : t) (ciphertext : str) : str :=
  translate (_decode self) ciphertext.

Definition encode (self : t) (plaintext : str) : str :=
  translate (_encode self) plaintext.

(** [decode_file] and [encode_file].  The file read is the list of its
    lines; the file written is the text it holds, to which [write]
    appends. *)
Definition decode_file (self : t) (ciphertext_fh : list str) (plaintext_fh : str)
    : str :=
  foldl (λ plaintext_fh line, plaintext_fh ++ decode self line)
    plaintext_fh ciphertext_fh.

Definition encode_file (self : t) (plaintext_fh : list str) (ciphertext_fh : str)
    : str :=
  foldl (λ ciphertext_fh line, ciphertext_fh ++ encode self line)
    ciphertext_fh plaintext_fh.

End Key.

(** ** subbreaker/breaker.py *)

Module BreakerInfo.
Record t : Type := mk {
  alphabet : str;
  nbr_quadgrams : Z;
  most_frequent_quadgram : str;
  average_fitness : Q;
  max_fitness : Q
}.
End BreakerInfo.

Module BreakerResult.
Record t : Type := mk {
  ciphertext : str;
  plaintext : str;
  key : str;
  alphabet : str;
  fitness : Q;
  nbr_keys : nat;
  nbr_rounds : nat;
  keys_per_second : Q;
  seconds : Q
}.
End BreakerResult.

(** The JSON object written by [generate_quadgrams] and read by
    [Breaker.__init__]. *)
Module QuadgramFile.
Record t : Type := mk {
  alphabet : str;
  nbr_quadgrams : Z;
  most_frequent_quadgram : str;
  max_fitness : Z;
  average_fitness : Q;
  quadgrams : list Z
}.
End QuadgramFile.

Module Breaker.

Record t : Type := mk {
  _alphabet : str;
  _alphabet_len : nat;
  _quadgrams : list Z;
  info : BreakerInfo.t;
  key : option Key.t
}.

Definition _DEFAULT_ALPHABET : str := str_of "abcdefghijklmnopqrstuvwxyz".

Definition __init__ (obj : QuadgramFile.t) : t :=
  {| _alphabet := QuadgramFile.alphabet obj;
     _alphabet_len := length (QuadgramFile.alphabet obj);
     _quadgrams := QuadgramFile.quadgrams obj;
     info := BreakerInfo.mk
               (QuadgramFile.alphabet obj)
               (QuadgramFile.nbr_quadgrams obj)
               (QuadgramFile.most_frequent_quadgram obj)
               (QuadgramFile.average_fitness obj / 10)%Q
               (inject_Z (QuadgramFile.max_fitness obj) / 10)%Q;
     key := None |}.

(** [{val: key for key, val in enumerate(alphabet.lower())}] *)
Definition trans (alphabet : str) : gmap ascii nat :=
  foldl (λ d p, <[p.2:=p.1]> d) ∅ (imap pair (lower alphabet)).

(** The two iterators, as the list of the values they yield.  A file
    handle is the list of its lines. *)
Definition _file_iterator (file_fh : list str) (alphabet : str) : list nat :=
  let trans := trans alphabet in
  line ← file_fh; omap (λ char, trans !! char) (lower line).

Definition _text_iterator (txt : str) (alphabet : str) : list nat :=
  let trans := trans alphabet in
  omap (λ char, trans !! char) (lower txt).

(** [((quadgram_val & 0x7FFF) << 5) + numerical_char], the update of the
    rolling window written in [generate_quadgrams], [_calc_fitness] and
    [_hill_climbing]. *)
Definition quad_next (quadgram_val : Z) (numerical_char : nat) : Z :=
  (Z.shiftl (Z.land quadgram_val 0x7FFF) 5 + Z.of_nat numerical_char)%Z.

Definition table_size : nat := 32 * 32 * 32 * 32.

(** *** generate_quadgrams *)

Section generate.

(** [math.log] is the logarithm of the C library; the model takes its
    value on positive arguments as a parameter. *)
Variable ln : Q → Q.

Definition math_log (x : Q) : res Q :=
  if Qle_bool x 0 then Raise (ValueError "math domain error") else Ok (ln x).

(** Lines 218-223: the logarithm of every counted quadgram, and [norm]. *)
Fixpoint log_scores (quadgram_sum : Z) (offset : Q) (quadgrams : list Z)
    (norm : Q) : res (list Q * Q) :=
  match quadgrams with
  | [] => Ok ([], norm)
  | val :: quadgrams =>
    if decide (val ≠ 0%Z) then
      let prop := (inject_Z val / inject_Z quadgram_sum)%Q in
      l ← math_log prop;
      let new_val := (l - offset)%Q in
      '(scores, norm) ← log_scores quadgram_sum offset quadgrams
                          (norm + prop * new_val)%Q;
      Ok (new_val :: scores, norm)
    else
      '(scores, norm) ← log_scores quadgram_sum offset quadgrams norm;
      Ok (inject_Z 0 :: scores, norm)
  end.

(** Lines 206-208: the count of every quadgram of the corpus. *)
Definition count_step (numerical_char : nat) (st : Z * list Z)
    : res (Z * list Z) :=
  let '(quadgram_val, quadgrams) := st in
  let quadgram_val := quad_next quadgram_val numerical_char in
  old ← getitemZ quadgrams quadgram_val;
  quadgrams ← setitemZ quadgrams quadgram_val (old + 1)%Z;
  Ok (quadgram_val, quadgrams).

Definition count_quadgrams (iterator : list nat) (quadgram_val : Z)
    (quadgrams : list Z) : res (Z * list Z) :=
  for_ iterator count_step (quadgram_val, quadgrams).

(** Lines 232-236: the characters of the quadgram with the index
    [max_idx], and what is left of the index. *)
Definition quadgram_chars (alphabet : str) (max_idx : nat) : res (str * Z) :=
  for_ (range 0 4) (λ _ '(max_chars, index),
    char ← getitemZ alphabet (Z.land index 0x1F);
    Ok (char :: max_chars, Z.shiftr index 5)) ([], Z.of_nat max_idx).

Definition generate_quadgrams (corpus_fh : list str) (alphabet : str)
    : res QuadgramFile.t :=
  alphabet ← Key.check_alphabet alphabet;
  if decide (32 < length alphabet)
  then Raise (AlphabetInvalid "Alphabet must have less or equal than 32 characters")
  else
    let iterator := _file_iterator corpus_fh alphabet in
    match iterator with
    | c0 :: c1 :: c2 :: iterator =>
      let quadgram_val := Z.of_nat c0 in
      let quadgram_val := (Z.shiftl quadgram_val 5 + Z.of_nat c1)%Z in
      let quadgram_val := (Z.shiftl quadgram_val 5 + Z.of_nat c2)%Z in
      let quadgrams := replicate table_size 0%Z in
      '(quadgram_val, quadgrams) ←
        count_quadgrams iterator quadgram_val quadgrams;
      let quadgram_sum := py_sum quadgrams in
      let quadgram_min :=
        foldl (λ quadgram_min val,
                 if decide (val ≠ 0%Z) then Z.min quadgram_min val
                 else quadgram_min) 10000000%Z quadgrams in
      if decide (quadgram_sum = 0%Z) then Raise ZeroDivisionError else
      offset ← math_log (inject_Z quadgram_min / 10 / inject_Z quadgram_sum)%Q;
      '(logs, norm) ← log_scores quadgram_sum offset quadgrams 0%Q;
      quadgrams ← comprehension (λ val,
          if Qeq_bool norm 0 then Raise ZeroDivisionError
          else Ok (py_round (val / norm * 1000)%Q)) logs;
      max_quadgram ← py_max quadgrams;
      max_idx ← index quadgrams max_quadgram;
      max_val ← getitem quadgrams max_idx;
      '(max_chars, _) ← quadgram_chars alphabet max_idx;
      Ok {| QuadgramFile.alphabet := alphabet;
            QuadgramFile.nbr_quadgrams := quadgram_sum;
            QuadgramFile.most_frequent_quadgram := max_chars;
            QuadgramFile.max_fitness := max_val;
            QuadgramFile.average_fitness :=
              (inject_Z (py_sum quadgrams)
               / inject_Z (Z.of_nat (length alphabet) ^ 4))%Q;
            QuadgramFile.quadgrams := quadgrams |}
    | _ => Raise StopIteration
    end.

End generate.

(** *** Fitness of a text *)

(** Lines 276-282: the sum of the scores of the quadgrams of the text, and
    their number. *)
Definition sum_step (quadgrams : list Z) (numerical_char : nat)
    (st : Z * Z * nat) : res (Z * Z * nat) :=
  let '(quadgram_val, fitness, nbr_quadgrams) := st in
  let quadgram_val := quad_next quadgram_val numerical_char in
  score ← getitemZ quadgrams quadgram_val;
  Ok (quadgram_val, (fitness + score)%Z, S nbr_quadgrams).

Definition sum_quadgrams (quadgrams : list Z) (iterator : list nat)
    (quadgram_val : Z) : res (Z * Z * nat) :=
  for_ iterator (sum_step quadgrams) (quadgram_val, 0%Z, 0).

Definition _calc_fitness (self : t) (iterator : list nat) : res Q :=
  match iterator with
  | c0 :: c1 :: c2 :: iterator =>
    let quadgram_val := Z.of_nat c0 in
    let quadgram_val := (Z.shiftl quadgram_val 5 + Z.of_nat c1)%Z in
    let quadgram_val := (Z.shiftl quadgram_val 5 + Z.of_nat c2)%Z in
    let quadgrams := _quadgrams self in
    '(_, fitness, nbr_quadgrams) ←
      sum_quadgrams quadgrams iterator quadgram_val;
    if decide (nbr_quadgrams = 0)
    then Raise (ValueError "More than three characters from the given alphabet are required")
    else Ok (inject_Z fitness / inject_Z (Z.of_nat nbr_quadgrams) / 10)%Q
  | _ => Raise (ValueError "More than three characters from the given alphabet are required")
  end.

Definition calc_fitness_file (self : t) (cleartext_fh : list str) : res Q :=
  _calc_fitness self (_file_iterator cleartext_fh (_alphabet self)).

Definition calc_fitness (self : t) (txt : str) : res Q :=
  _calc_fitness self (_text_iterator txt (_alphabet self)).

(** *** The hill climber *)

(** The variables of [_hill_climbing] that change during the climb.  [key]
    is the list object of the caller, changed in place. *)
Record climb : Type := mkClimb {
  c_key : list nat;
  c_plaintext : list nat;
  c_nbr_keys : nat;
  c_max_fitness : Z;
  c_better_key : bool
}.

(** [for idx in positions: plaintext[idx] = v] *)
Definition assign_all (positions : list nat) (v : nat) (plaintext : list nat)
    : res (list nat) :=
  for_ positions (λ idx plaintext, setitem plaintext idx v) plaintext.

(** Lines 365-369: the score of the whole plaintext. *)
Definition rescore_step (quadgram : list Z) (char : nat) (st : Z * Z)
    : res (Z * Z) :=
  let '(quad_idx, tmp_fitness) := st in
  let quad_idx := quad_next quad_idx char in
  score ← getitemZ quadgram quad_idx;
  Ok (quad_idx, (tmp_fitness + score)%Z).

Definition rescore (quadgram : list Z) (plaintext : list nat) : res Z :=
  p0 ← getitem plaintext 0;
  p1 ← getitem plaintext 1;
  p2 ← getitem plaintext 2;
  let quad_idx :=
    (Z.shiftl (Z.of_nat p0) 10 + Z.shiftl (Z.of_nat p1) 5 + Z.of_nat p2)%Z in
  '(_, tmp_fitness) ←
    for_ (drop 3 plaintext) (rescore_step quadgram) (quad_idx, 0%Z);
  Ok tmp_fitness.

(** Lines 358-379: the trial of the pair [(idx1, idx2)]. *)
Definition trial (quadgram : list Z) (char_positions : list (list nat))
    (idx1 idx2 : nat) (s : climb) : res climb :=
  ch1 ← getitem (c_key s) idx1;
  ch2 ← getitem (c_key s) idx2;
  positions ← getitem char_positions ch1;
  plaintext ← assign_all positions idx2 (c_plaintext s);
  positions ← getitem char_positions ch2;
  plaintext ← assign_all positions idx1 plaintext;
  let nbr_keys := S (c_nbr_keys s) in
  tmp_fitness ← rescore quadgram plaintext;
  if (tmp_fitness >? c_max_fitness s)%Z then
    key ← setitem (c_key s) idx1 ch2;
    key ← setitem key idx2 ch1;
    Ok (mkClimb key plaintext nbr_keys tmp_fitness true)
  else
    positions ← getitem char_positions ch1;
    plaintext ← assign_all positions idx1 plaintext;
    positions ← getitem char_positions ch2;
    plaintext ← assign_all positions idx2 plaintext;
    Ok (mkClimb (c_key s) plaintext nbr_keys (c_max_fitness s) (c_better_key s)).

(** Lines 356-357: one pass over all pairs. *)
Definition pass (quadgram : list Z) (key_len : nat)
    (char_positions : list (list nat)) (s : climb) : res climb :=
  for_ (range 0 (key_len - 1)) (λ idx1 s,
    for_ (range (idx1 + 1) key_len) (λ idx2 s,
      trial quadgram char_positions idx1 idx2 s) s) s.

(** Lines 354-379: [while better_key]. *)
Fixpoint climb_while (fuel : nat) (quadgram : list Z) (key_len : nat)
    (char_positions : list (list nat)) (s : climb) : res climb :=
  match fuel with
  | 0 => OutOfFuel
  | S fuel =>
    if c_better_key s then
      s ← pass quadgram key_len char_positions
            (mkClimb (c_key s) (c_plaintext s) (c_nbr_keys s) (c_max_fitness s) false);
      climb_while fuel quadgram key_len char_positions s
    else Ok s
  end.

(** Returns [max_fitness], [nbr_keys] and the [key] as the climb left it. *)
Definition _hill_climbing (self : t) (fuel : nat) (key : list nat)
    (cipher_bin : list nat) (char_positions : list (list nat))
    : res (Z * nat * list nat) :=
  plaintext ← comprehension (λ idx, index key idx) cipher_bin;
  let quadgram := _quadgrams self in
  let key_len := _alphabet_len self in
  s ← climb_while fuel quadgram key_len char_positions
        (mkClimb key plaintext 0 0%Z true);
  Ok (c_max_fitness s, c_nbr_keys s, c_key s).

(** *** break_cipher *)

Section break.

(** [random.shuffle(key)] draws from the generator of the [random]
    module: its state is explicit, and the function returns the shuffled
    list with the new state. *)
Variable RNG : Type.
Variable shuffle : RNG → list nat → list nat * RNG.

(** The variables of the loop of [break_cipher].  [r_round_cntr] is
    [None] until the loop variable is bound.  [r_climbs] is not a program
    variable: it records what each call of [_hill_climbing] returned, so
    that statements can speak of the rounds performed. *)
Record rounds : Type := mkRounds {
  r_key : list nat;
  r_best_key : list nat;
  r_nbr_keys : nat;
  r_local_maximum : Z;
  r_local_maximum_hit : Z;
  r_round_cntr : option nat;
  r_climbs : list (Z * nat)
}.

(** Lines 415-423: the update of the variables of the loop after a
    climb, and whether the loop breaks. *)
Definition record_climb (consolidate : Z) (round_cntr : nat)
    (key : list nat) (fitness : Z) (tmp_nbr_keys : nat) (s : rounds)
    : rounds * bool :=
  let nbr_keys := r_nbr_keys s + tmp_nbr_keys in
  let climbs := r_climbs s ++ [(fitness, tmp_nbr_keys)] in
  if (fitness >? r_local_maximum s)%Z then
    (mkRounds key key nbr_keys fitness 1 (Some round_cntr) climbs, false)
  else if (fitness =? r_local_maximum s)%Z then
    let local_maximum_hit := (r_local_maximum_hit s + 1)%Z in
    (mkRounds key (r_best_key s) nbr_keys (r_local_maximum s)
       local_maximum_hit (Some round_cntr) climbs,
     (local_maximum_hit =? consolidate)%Z)
  else
    (mkRounds key (r_best_key s) nbr_keys (r_local_maximum s)
       (r_local_maximum_hit s) (Some round_cntr) climbs, false).

(** Lines 412-423: [for round_cntr in range(max_rounds)], with its
    [break]. *)
Fixpoint break_rounds (self : t) (fuel : nat) (cipher_bin : list nat)
    (char_positions : list (list nat)) (consolidate : Z)
    (round_cntrs : list nat) (s : rounds) (g : RNG) : res rounds * RNG :=
  match round_cntrs with
  | [] => (Ok s, g)
  | round_cntr :: round_cntrs =>
    let '(key, g) := shuffle g (r_key s) in
    match _hill_climbing self fuel key cipher_bin char_positions with
    | Ok (fitness, tmp_nbr_keys, key) =>
      let '(s, break) :=
        record_climb consolidate round_cntr key fitness tmp_nbr_keys s in
      if break then (Ok s, g)
      else break_rounds self fuel cipher_bin char_positions consolidate
             round_cntrs s g
    | Raise e => (Raise e, g)
    | OutOfFuel => (OutOfFuel, g)
    end
  end.

(** Line 406 *)
Definition build_char_positions (alphabet : str) (cipher_bin : list nat)
    : list (list nat) :=
  (λ idx, omap (λ p, if decide (p.2 = idx) then Some p.1 else None)
            (imap pair cipher_bin))
  <$> range 0 (length alphabet).

(** Lines 392-423: the checks and the search.  Returns [cipher_bin] and
    the variables of the loop. *)
Definition search (self : t) (g : RNG) (fuel : nat) (ciphertext : str)
    (max_rounds consolidate : Z) : res (list nat * rounds) * RNG :=
  if negb ((1 <=? max_rounds)%Z && (max_rounds <=? 10000)%Z)
  then (Raise (ValueError "maximum number of rounds not in the valid range 1..10000"), g)
  else if negb ((1 <=? consolidate)%Z && (consolidate <=? 30)%Z)
  then (Raise (ValueError "consolidate parameter out of valid range 1..30"), g)
  else
    let cipher_bin := _text_iterator ciphertext (_alphabet self) in
    if decide (length cipher_bin < 4)
    then (Raise (ValueError "ciphertext is too short"), g)
    else
      let char_positions := build_char_positions (_alphabet self) cipher_bin in
      let key_len := length (_alphabet self) in
      let key := range 0 key_len in
      let best_key := key in
      let '(r, g) :=
        break_rounds self fuel cipher_bin char_positions consolidate
          (range 0 (Z.to_nat max_rounds))
          (mkRounds key best_key 0 0%Z 1%Z None []) g in
      (s ← r; Ok (cipher_bin, s), g).

(** [seconds] is the difference of the two readings of [time.time()].
    The function returns its result, the breaker (whose [key] it
    assigns) and the state of the random generator. *)
Definition break_cipher (self : t) (g : RNG) (seconds : Q) (fuel : nat)
    (ciphertext : str) (max_rounds consolidate : Z)
    : res BreakerResult.t * t * RNG :=
  match search self g fuel ciphertext max_rounds consolidate with
  | (Ok (cipher_bin, s), g) =>
    match
      key_str ← comprehension (λ x, getitem (_alphabet self) x) (r_best_key s);
      self_key ← Key.__init__ key_str (_alphabet self);
      Ok (key_str, self_key)
    with
    | Ok (key_str, self_key) =>
      let self :=
        mk (_alphabet self) (_alphabet_len self) (_quadgrams self) (info self)
           (Some self_key) in
      (if decide (Z.of_nat (length cipher_bin) - 3 = 0)%Z
       then Raise ZeroDivisionError
       else
         round_cntr ← match r_round_cntr s with
                      | Some round_cntr => Ok round_cntr
                      | None => Raise UnboundLocalError
                      end;
         if Qeq_bool seconds 0 then Raise ZeroDivisionError
         else
           Ok {| BreakerResult.ciphertext := ciphertext;
                 BreakerResult.plaintext := Key.decode self_key ciphertext;
                 BreakerResult.key := key_str;
                 BreakerResult.alphabet := _alphabet self;
                 BreakerResult.fitness :=
                   (inject_Z (r_local_maximum s)
                    / inject_Z (Z.of_nat (length cipher_bin) - 3) / 10)%Q;
                 BreakerResult.nbr_keys := r_nbr_keys s;
                 BreakerResult.nbr_rounds := round_cntr;
                 BreakerResult.keys_per_second :=
                   round3 (inject_Z (Z.of_nat (r_nbr_keys s)) / seconds)%Q;
                 BreakerResult.seconds := seconds |},
       self, g)
    | Raise e => (Raise e, self, g)
    | OutOfFuel => (OutOfFuel, self, g)
    end
  | (Raise e, g) => (Raise e, self, g)
  | (OutOfFuel, g) => (OutOfFuel, self, g)
  end.

End break.

End Breaker.

(** ** subbreaker/command.py *)

Module Command.

(** [args.alphabet] and [args.keyword] are the two arguments. *)
Definition build_key_from_keyword (alphabet keyword : str) : res str :=
  let alpha_list := lower alphabet in
  let kw_list := [] in
  '(kw_list, alpha_list) ←
    for_ (lower keyword) (λ char '(kw_list, alpha_list),
      if decide (char ∉ kw_list) then
        let kw_list := kw_list ++ [char] in
        alpha_list ← list_remove alpha_list char;
        Ok (kw_list, alpha_list)
      else Ok (kw_list, alpha_list)) (kw_list, alpha_list);
  Ok (kw_list ++ alpha_list).

End Command.

(** * The vocabulary of the statements *)

(** The error of [_calc_fitness]. *)
Definition insufficient_input : exn :=
  ValueError "More than three characters from the given alphabet are required".

(** A letter is a character whose two cases differ. *)
Definition letter (c : ascii) : bool :=
  negb (Ascii.eqb (char_upper c) (char_lower c)).

(** The dictionary of [maketrans] when no key is given two values. *)
Definition functional {K V : Type} (l : list (K * V)) : Prop :=
  ∀ c d d', (c, d) ∈ l → (c, d') ∈ l → d = d'.

(** [camel_alphabet] and [camel_key] of [Key.__init__], for a string in
    lower case. *)
Definition camel (s : str) : str := (char_upper <$> s) ++ s.

(** What holds of the variables of [_hill_climbing] between two trials: the
    key is a permutation of the alphabet indices, and [plaintext] is the
    ciphertext read through the inverse of the key. *)
Record climb_inv (key_len : nat) (cipher_bin : list nat) (s : Breaker.climb)
    : Prop := {
  inv_key : Breaker.c_key s ≡ₚ seq 0 key_len;
  inv_plaintext :
    Forall2 (λ p c, Breaker.c_key s !! p = Some c) (Breaker.c_plaintext s) cipher_bin
}.

(** [key[idx1], key[idx2] = key[idx2], key[idx1]] *)
Definition swap_key (key : list nat) (idx1 idx2 : nat) : list nat :=
  match key !! idx1, key !! idx2 with
  | Some ch1, Some ch2 => <[idx2:=ch1]> (<[idx1:=ch2]> key)
  | _, _ => key
  end.

(** The largest entry of the table, or 0, and with it a number of passes
    that no climb on [cipher_bin] exceeds: every accepted trial raises
    [max_fitness], an integer between 0 and the largest score of a text of
    this length. *)
Definition score_bound (quadgram : list Z) : Z := foldr Z.max 0%Z quadgram.

Definition fitness_bound (quadgram : list Z) (cipher_bin : list nat) : Z :=
  ((Z.of_nat (length cipher_bin) - 3) * score_bound quadgram)%Z.

Definition climb_fuel (quadgram : list Z) (cipher_bin : list nat) : nat :=
  Z.to_nat (fitness_bound quadgram cipher_bin) + 2.

(** What a pass keeps, from the state [s0] it starts in; [bound] is
    [fitness_bound]. *)
Definition pass_inv (key_len : nat) (cipher_bin : list nat) (bound : Z)
    (s0 s : Breaker.climb) : Prop :=
  climb_inv key_len cipher_bin s
  ∧ (Breaker.c_max_fitness s0 ≤ Breaker.c_max_fitness s ≤ bound)%Z
  ∧ (Breaker.c_better_key s = true →
     Breaker.c_better_key s0 = true
     ∨ (Breaker.c_max_fitness s0 < Breaker.c_max_fitness s)%Z).

(** A breaker whose model has the shape of the files that
    [generate_quadgrams] writes: an ASCII alphabet of at most 32 unique
    symbols, its length as [__init__] stores it, and a table of 32^4
    entries. *)
Record wf (self : Breaker.t) : Prop := {
  wf_ascii : is_ascii (Breaker._alphabet self) = true;
  wf_unique : NoDup (lower (Breaker._alphabet self));
  wf_short : length (Breaker._alphabet self) ≤ 32;
  wf_len : Breaker._alphabet_len self = length (Breaker._alphabet self);
  wf_table : length (Breaker._quadgrams self) = Breaker.table_size
}.

(** Every exception that [m] may raise satisfies [Q]. *)
Definition raises_only {A : Type} (Q : exn → Prop) (m : res A) : Prop :=
  ∀ e, m = Raise e → Q e.

Create HintDb raises discriminated.

(** The two errors of the checks of [break_cipher] on its parameters. *)
Definition range_error (e : exn) : Prop :=
  e = ValueError "maximum number of rounds not in the valid range 1..10000"
  ∨ e = ValueError "consolidate parameter out of valid range 1..30".

Definition not_range_error (e : exn) : Prop := ¬ range_error e.

(** The keys that [break_cipher] and the hill climber can hold between two
    trials: the initial key, a key after a shuffle, a key after a trial. *)
Inductive key_reachable {RNG : Type} (shuffle : RNG → list nat → list nat * RNG)
    (self : Breaker.t) (cipher_bin : list nat) : list nat → Prop :=
| reach_init :
    key_reachable shuffle self cipher_bin (range 0 (length (Breaker._alphabet self)))
| reach_shuffle (g : RNG) (key : list nat) :
    key_reachable shuffle self cipher_bin key →
    key_reachable shuffle self cipher_bin (shuffle g key).1
| reach_trial (idx1 idx2 : nat) (s s' : Breaker.climb) :
    key_reachable shuffle self cipher_bin (Breaker.c_key s) →
    Breaker.trial (Breaker._quadgrams self)
      (Breaker.build_char_positions (Breaker._alphabet self) cipher_bin)
      idx1 idx2 s = Ok s' →
    key_reachable shuffle self cipher_bin (Breaker.c_key s').

(** The alphabet [abcd], every quadgram with the score 1. *)
Definition toy_file : QuadgramFile.t :=
  QuadgramFile.mk (str_of "abcd") 1048576 (str_of "aaaa") 1 4096
    (replicate Breaker.table_size 1%Z).

Definition toy : Breaker.t := Breaker.__init__ toy_file.

(** A shuffle that reverses the list, one of the results of
    [random.shuffle]. *)
Definition reverse_shuffle (g : unit) (key : list nat) : list nat * unit :=
  (reverse key, g).

(** The 5-bit field [k] of a packed code, [k = 0] being the last symbol. *)
Definition field (k : nat) (code : Z) : Z :=
  Z.land (Z.shiftr code (5 * Z.of_nat k)) 0x1F.

(** The codes of four symbols of an alphabet of [n] symbols. *)
Definition reachable_code (n : nat) (code : Z) : Prop :=
  ∀ k, k < 4 → (field k code < Z.of_nat n)%Z.

(** What the counting loop keeps: the table has its size, a count is not
    negative, a code that was counted is reachable, and the window holds
    three symbols of the alphabet. *)
Definition count_inv (n : nat) (st : Z * list Z) : Prop :=
  length st.2 = Breaker.table_size
  ∧ (∃ a b c, (0 ≤ a < Z.of_nat n)%Z ∧ (0 ≤ b < Z.of_nat n)%Z
              ∧ (0 ≤ c < Z.of_nat n)%Z
              ∧ (st.1 mod 32768 = (a * 32 + b) * 32 + c)%Z)
  ∧ ∀ i v, st.2 !! i = Some v →
           (0 ≤ v)%Z ∧ (v ≠ 0%Z → reachable_code n (Z.of_nat i)).

(** The code of a quadgram: its four symbols, five bits each, the last
    symbol in the lowest bits. *)
Definition quadgram_code (a b c d : nat) : Z :=
  (((Z.of_nat a * 32 + Z.of_nat b) * 32 + Z.of_nat c) * 32 + Z.of_nat d)%Z.

(** The codes of the quadgrams of a text, from left to right. *)
Fixpoint quadgram_codes (text : list nat) : list Z :=
  match text with
  | a :: ((b :: c :: d :: _) as text) =>
    quadgram_code a b c d :: quadgram_codes text
  | _ => []
  end.

(** The sum of the entries of the table at the quadgrams of a text. *)
Definition text_score (quadgrams : list Z) (text : list nat) : Z :=
  foldr Z.add 0%Z
    ((λ code, default 0%Z (quadgrams !! Z.to_nat code)) <$> quadgram_codes text).

(** [plaintext] is the ciphertext read through the inverse of [key]: at
    every position it holds the index at which [key] has the symbol of
    the ciphertext. *)
Definition deciphers (key cipher_bin plaintext : list nat) : Prop :=
  Forall2 (λ p c, key !! p = Some c) plaintext cipher_bin.

(** No exchange of two entries of [key] gives a plaintext that scores more
    than [fitness]. *)
Definition no_better_swap (quadgram : list Z) (key_len : nat)
    (cipher_bin key : list nat) (fitness : Z) : Prop :=
  ∀ idx1 idx2, idx1 < idx2 < key_len →
    ∃ plaintext, deciphers (swap_key key idx1 idx2) cipher_bin plaintext
                 ∧ (text_score quadgram plaintext ≤ fitness)%Z.

(** What [max_fitness] is during a climb from [key0]: 0 as long as no trial
    was accepted, and then the score of the plaintext. *)
Definition climb_scored (quadgram : list Z) (key0 : list nat)
    (s : Breaker.climb) : Prop :=
  (Breaker.c_max_fitness s = 0%Z ∧ Breaker.c_key s = key0)
  ∨ ((0 < Breaker.c_max_fitness s)%Z
     ∧ text_score quadgram (Breaker.c_plaintext s) = Breaker.c_max_fitness s).

(** [n * (n - 1) / 2], the number of trials of a pass. *)
Definition pairs (n : nat) : nat := n * (n - 1) / 2.

(** The trial of the pair [(idx1, idx2)] on the key [K] did not beat the
    score [F]. *)
Definition rejected (quadgram : list Z) (cipher_bin K : list nat) (F : Z)
    (idx1 idx2 : nat) : Prop :=
  ∃ plaintext, deciphers (swap_key K idx1 idx2) cipher_bin plaintext
               ∧ (text_score quadgram plaintext ≤ F)%Z.

(** No trial was accepted since the pass began. *)
Definition quiet (s : Breaker.climb) : Prop := Breaker.c_better_key s = false.

(** What holds between two trials of a pass that started with the key [K]
    and the score [F], in a climb from [key0]. *)
Definition trial_inv (quadgram : list Z) (key_len : nat)
    (cipher_bin key0 K : list nat) (F : Z) (s : Breaker.climb) : Prop :=
  climb_inv key_len cipher_bin s
  ∧ climb_scored quadgram key0 s
  ∧ (quiet s → Breaker.c_key s = K ∧ Breaker.c_max_fitness s = F).

(** What the loop of [break_cipher] keeps.  The two keys are permutations;
    the keys tried so far are whole passes, at least one for every climb;
    [local_maximum] is 0 with the initial key as best key as long as no
    climb scored more, and then it is the score of the plaintext of the
    best key, which no exchange of two of its entries improves. *)
Record rounds_inv (quadgram : list Z) (n : nat) (cipher_bin : list nat)
    (s : Breaker.rounds) : Prop := {
  ri_key : Breaker.r_key s ≡ₚ seq 0 n;
  ri_best_key : Breaker.r_best_key s ≡ₚ seq 0 n;
  ri_nbr_keys :
    ∃ passes, length (Breaker.r_climbs s) ≤ passes
              ∧ Breaker.r_nbr_keys s = passes * pairs n;
  ri_best :
    (Breaker.r_local_maximum s = 0%Z ∧ Breaker.r_best_key s = seq 0 n)
    ∨ ((0 < Breaker.r_local_maximum s)%Z
       ∧ (∃ plaintext,
            deciphers (Breaker.r_best_key s) cipher_bin plaintext
            ∧ text_score quadgram plaintext = Breaker.r_local_maximum s)
       ∧ no_better_swap quadgram n cipher_bin (Breaker.r_best_key s)
           (Breaker.r_local_maximum s))
}.

(** The characters of a string without repetition, in the order in which
    they first occur. *)
Fixpoint distinct (s : str) : str :=
  match s with
  | [] => []
  | c :: s => c :: filter (λ d, d ≠ c) (distinct s)
  end.

(** * Properties *)

(** ** The runtime *)

Lemma bind_Ok {A B : Type} (m : res A) (f : A → res B) (b : B) :
  m ≫= f = Ok b ↔ ∃ a, m = Ok a ∧ f a = Ok b.
Proof.
  destruct m as [a| |]; simpl; split; try discriminate.
  - intros H. by exists a.
  - intros (a' & [= ->] & H). exact H.
  - intros (a' & [=] & _).
  - intros (a' & [=] & _).
Qed.

Lemma bind_Raise {A B : Type} (m : res A) (f : A → res B) (e : exn) :
  m ≫= f = Raise e ↔ m = Raise e ∨ ∃ a, m = Ok a ∧ f a = Raise e.
Proof.
  destruct m as [a|e'|]; split.
  - intros H. right. by exists a.
  - intros [[=]|(a' & [= ->] & H)]. exact H.
  - intros [= ->]. by left.
  - intros [[= ->]|(a' & [=] & _)]. done.
  - intros [=].
  - intros [[=]|(a' & [=] & _)].
Qed.

(** A loop whose body keeps an invariant and does not raise on the elements
    of the list returns a state that satisfies the invariant. *)
Lemma for__inv {A S : Type} (P : A → Prop) (I : S → Prop) (l : list A)
    (body : A → S → res S) (s : S) :
  Forall P l →
  (∀ x s, P x → I s → ∃ s', body x s = Ok s' ∧ I s') →
  I s →
  ∃ s', for_ l body s = Ok s' ∧ I s'.
Proof.
  intros Hl Hbody. revert s.
  induction Hl as [|x l Hx Hl IH]; intros s Hs; simpl.
  - by exists s.
  - destruct (Hbody x s Hx Hs) as (s1 & -> & Hs1). simpl. by apply IH.
Qed.

Lemma for__cons {A S : Type} (x : A) (l : list A) (body : A → S → res S) (s : S) :
  for_ (x :: l) body s = body x s ≫= for_ l body.
Proof. reflexivity. Qed.

Lemma for__app {A S : Type} (l1 l2 : list A) (body : A → S → res S) (s : S) :
  for_ (l1 ++ l2) body s = for_ l1 body s ≫= for_ l2 body.
Proof.
  revert s. induction l1 as [|x l1 IH]; intros s; simpl; [done|].
  destruct (body x s); simpl; [apply IH|done|done].
Qed.

Lemma getitem_Ok {A : Type} (l : list A) (i : nat) (x : A) :
  getitem l i = Ok x ↔ l !! i = Some x.
Proof. unfold getitem. destruct (l !! i); naive_solver. Qed.

Lemma getitem_lt {A : Type} (l : list A) (i : nat) :
  i < length l → ∃ x, getitem l i = Ok x ∧ l !! i = Some x.
Proof.
  intros [x Hx]%lookup_lt_is_Some_2. exists x. by rewrite getitem_Ok.
Qed.

Lemma setitem_Ok {A : Type} (l : list A) (i : nat) (v : A) :
  i < length l → setitem l i v = Ok (<[i:=v]> l).
Proof. intros H. unfold setitem. by rewrite decide_True. Qed.

Lemma getitemZ_nonneg {A : Type} (l : list A) (i : Z) :
  (0 ≤ i)%Z → getitemZ l i = getitem l (Z.to_nat i).
Proof.
  intros H. unfold getitemZ.
  destruct (Z.ltb_spec i 0) as [?|_]; [lia|].
  destruct (Z.ltb_spec i 0) as [?|_]; [lia|done].
Qed.

Lemma setitemZ_nonneg {A : Type} (l : list A) (i : Z) (v : A) :
  (0 ≤ i)%Z → setitemZ l i v = setitem l (Z.to_nat i) v.
Proof.
  intros H. unfold setitemZ.
  destruct (Z.ltb_spec i 0) as [?|_]; [lia|].
  destruct (Z.ltb_spec i 0) as [?|_]; [lia|done].
Qed.

(** ** The packed code of a quadgram *)

Lemma table_size_eq : Z.of_nat Breaker.table_size = 1048576%Z.
Proof. vm_compute. reflexivity. Qed.

#[global] Opaque Breaker.table_size.
#[global] Arguments Breaker.quadgram_chars : simpl never.

Lemma land_0x7FFF (q : Z) : Z.land q 0x7FFF = (q mod 32768)%Z.
Proof. change 0x7FFF%Z with (Z.ones 15). by rewrite Z.land_ones. Qed.

Lemma quad_next_eq (q : Z) (c : nat) :
  Breaker.quad_next q c = ((q mod 32768) * 32 + Z.of_nat c)%Z.
Proof.
  unfold Breaker.quad_next. rewrite land_0x7FFF, Z.shiftl_mul_pow2 by lia.
  reflexivity.
Qed.

Lemma quad_next_range (q : Z) (c : nat) :
  c < 32 → (0 ≤ Breaker.quad_next q c < 1048576)%Z.
Proof.
  intros Hc. rewrite quad_next_eq.
  pose proof (Z.mod_pos_bound q 32768). lia.
Qed.

Lemma table_getitemZ (quadgrams : list Z) (i : Z) :
  length quadgrams = Breaker.table_size → (0 ≤ i < 1048576)%Z →
  ∃ score, getitemZ quadgrams i = Ok score ∧ quadgrams !! Z.to_nat i = Some score.
Proof.
  intros Hlen Hi. rewrite getitemZ_nonneg by lia.
  apply getitem_lt. pose proof table_size_eq. lia.
Qed.

(** ** The projection of a text through the alphabet *)

Lemma foldl_insert_lookup {K V P : Type} `{Countable K} (f : P → K * V)
    (l : list P) (m : gmap K V) (k : K) (v : V) :
  foldl (λ d p, <[(f p).1:=(f p).2]> d) m l !! k = Some v →
  (∃ p, p ∈ l ∧ f p = (k, v)) ∨ m !! k = Some v.
Proof.
  revert m. induction l as [|p l IH]; intros m; simpl; [by right|].
  intros [(q & Hq & Hf)|Hm]%IH.
  - left. exists q. split; [by right|done].
  - destruct (decide ((f p).1 = k)) as [<-|Hne].
    + rewrite lookup_insert_eq in Hm. injection Hm as <-.
      left. exists p. split; [by left|]. by destruct (f p).
    + rewrite lookup_insert_ne in Hm by done. by right.
Qed.

Lemma trans_lookup (alphabet : str) (c : ascii) (i : nat) :
  Breaker.trans alphabet !! c = Some i → lower alphabet !! i = Some c.
Proof.
  unfold Breaker.trans. intros Hl.
  apply (foldl_insert_lookup (λ p : nat * ascii, (p.2, p.1))) in Hl.
  destruct Hl as [(p & Hp & Hf)|Hl]; [|by rewrite lookup_empty in Hl].
  apply elem_of_lookup_imap in Hp as (j & x & -> & Hx).
  simpl in Hf. by injection Hf as -> ->.
Qed.

Lemma length_lower (s : str) : length (lower s) = length s.
Proof. unfold lower. by rewrite length_fmap. Qed.

Lemma trans_lookup_lt (alphabet : str) (c : ascii) (i : nat) :
  Breaker.trans alphabet !! c = Some i → i < length alphabet.
Proof.
  intros H%trans_lookup%lookup_lt_Some. by rewrite length_lower in H.
Qed.

Lemma text_iterator_lt (txt alphabet : str) :
  Forall (λ c, c < length alphabet) (Breaker._text_iterator txt alphabet).
Proof.
  apply list.Forall_forall. intros i Hi. unfold Breaker._text_iterator in Hi.
  apply list_elem_of_omap in Hi as (c & _ & Hc).
  by apply trans_lookup_lt in Hc.
Qed.

Lemma file_iterator_lt (file_fh : list str) (alphabet : str) :
  Forall (λ c, c < length alphabet) (Breaker._file_iterator file_fh alphabet).
Proof.
  apply list.Forall_forall. intros i Hi. unfold Breaker._file_iterator in Hi.
  apply list_elem_of_bind in Hi as (line & Hi & _).
  apply list_elem_of_omap in Hi as (c & _ & Hc).
  by apply trans_lookup_lt in Hc.
Qed.

(** ** The three loops that roll the quadgram window *)

Section window_loops.

Context (quadgrams : list Z) (alphabet_len : nat).
Hypothesis table_length : length quadgrams = Breaker.table_size.
Hypothesis alphabet_short : alphabet_len ≤ 32.

Lemma sum_quadgrams_from (iterator : list nat) (st : Z * Z * nat) :
  Forall (λ c, c < alphabet_len) iterator →
  ∃ quadgram_val fitness,
    for_ iterator (Breaker.sum_step quadgrams) st
    = Ok (quadgram_val, fitness, st.2 + length iterator).
Proof.
  intros Hit. revert st.
  induction Hit as [|c iterator Hc _ IH]; intros [[q f] n]; simpl.
  - exists q, f. by rewrite Nat.add_0_r.
  - destruct (table_getitemZ quadgrams (Breaker.quad_next q c) table_length)
      as (score & -> & _); [apply quad_next_range; lia|].
    simpl. destruct (IH (Breaker.quad_next q c, (f + score)%Z, S n))
      as (q' & f' & ->).
    exists q', f'. simpl. do 2 f_equal. lia.
Qed.

Lemma sum_quadgrams_Ok (iterator : list nat) (quadgram_val : Z) :
  Forall (λ c, c < alphabet_len) iterator →
  ∃ quadgram_val' fitness,
    Breaker.sum_quadgrams quadgrams iterator quadgram_val
    = Ok (quadgram_val', fitness, length iterator).
Proof.
  intros Hit. unfold Breaker.sum_quadgrams.
  by destruct (sum_quadgrams_from iterator (quadgram_val, 0%Z, 0) Hit)
    as (q' & f' & ->); eauto.
Qed.

Lemma rescore_loop_Ok (chars : list nat) (st : Z * Z) :
  Forall (λ c, c < alphabet_len) chars →
  ∃ st', for_ chars (Breaker.rescore_step quadgrams) st = Ok st'.
Proof.
  intros Hchars. revert st.
  induction Hchars as [|c chars Hc _ IH]; intros [q f]; simpl; [by eexists|].
  destruct (table_getitemZ quadgrams (Breaker.quad_next q c) table_length)
    as (score & -> & _); [apply quad_next_range; lia|].
  simpl. apply IH.
Qed.

Lemma rescore_Ok (plaintext : list nat) :
  3 ≤ length plaintext →
  Forall (λ c, c < alphabet_len) plaintext →
  ∃ tmp_fitness, Breaker.rescore quadgrams plaintext = Ok tmp_fitness.
Proof.
  intros Hlen Hpt. unfold Breaker.rescore.
  destruct plaintext as [|p0 [|p1 [|p2 rest]]]; simpl in Hlen; try lia.
  simpl. rewrite drop_0.
  assert (Forall (λ c, c < alphabet_len) rest) as Hrest.
  { by do 3 apply Forall_cons_1 in Hpt as [_ Hpt]. }
  edestruct (rescore_loop_Ok rest) as ([q f] & ->); [done|].
  simpl. by eexists.
Qed.

End window_loops.

Lemma count_step_Ok (c : nat) (q : Z) (t : list Z) :
  c < 32 → length t = Breaker.table_size →
  ∃ old, t !! Z.to_nat (Breaker.quad_next q c) = Some old
    ∧ Breaker.count_step c (q, t)
      = Ok (Breaker.quad_next q c,
            <[Z.to_nat (Breaker.quad_next q c):=(old + 1)%Z]> t).
Proof.
  intros Hc Hlen. unfold Breaker.count_step.
  pose proof (quad_next_range q c Hc) as Hq.
  destruct (table_getitemZ t (Breaker.quad_next q c) Hlen Hq) as (old & -> & Hold).
  exists old. split; [done|]. simpl.
  by rewrite setitemZ_nonneg, setitem_Ok by (pose proof table_size_eq; lia).
Qed.

Lemma count_quadgrams_Ok (alphabet_len : nat) (iterator : list nat)
    (quadgram_val : Z) (quadgrams : list Z) :
  alphabet_len ≤ 32 →
  length quadgrams = Breaker.table_size →
  Forall (λ c, c < alphabet_len) iterator →
  ∃ r, Breaker.count_quadgrams iterator quadgram_val quadgrams = Ok r
       ∧ length r.2 = Breaker.table_size.
Proof.
  intros Hn Hlen Hit. unfold Breaker.count_quadgrams.
  revert quadgram_val quadgrams Hlen.
  induction Hit as [|c iterator Hc _ IH]; intros q t Hlen; [by eexists|].
  destruct (count_step_Ok c q t ltac:(lia) Hlen) as (old & _ & Hstep).
  rewrite for__cons, Hstep. simpl. apply IH. by rewrite length_insert.
Qed.

(** C10.  Whenever every symbol index is below the alphabet length, itself
    at most 32, every index [((code & 0x7FFF) << 5) + symbol] lies in
    [0, 2^20); hence in a table of 32^4 entries no lookup of the counting
    loop of [generate_quadgrams], of the loop of [_calc_fitness] or of the
    rescoring loop of [_hill_climbing] is out of bounds: the three loops run
    to their end. *)
Theorem quadgram_index_in_table (alphabet_len : nat) (quadgrams : list Z) :
  alphabet_len ≤ 32 →
  length quadgrams = Breaker.table_size →
  (∀ quadgram_val numerical_char,
     numerical_char < alphabet_len →
     (0 ≤ Breaker.quad_next quadgram_val numerical_char < 2 ^ 20)%Z
     ∧ is_Some (quadgrams !! Z.to_nat (Breaker.quad_next quadgram_val numerical_char)))
  ∧ (∀ iterator quadgram_val,
       Forall (λ c, c < alphabet_len) iterator →
       ∃ r, Breaker.count_quadgrams iterator quadgram_val quadgrams = Ok r)
  ∧ (∀ iterator quadgram_val,
       Forall (λ c, c < alphabet_len) iterator →
       ∃ r, Breaker.sum_quadgrams quadgrams iterator quadgram_val = Ok r)
  ∧ (∀ plaintext,
       3 ≤ length plaintext →
       Forall (λ c, c < alphabet_len) plaintext →
       ∃ tmp_fitness, Breaker.rescore quadgrams plaintext = Ok tmp_fitness).
Proof.
  intros Hn Hlen. repeat split.
  - apply quad_next_range; lia.
  - apply quad_next_range; lia.
  - apply lookup_lt_is_Some_2.
    pose proof (quad_next_range quadgram_val numerical_char ltac:(lia)).
    pose proof table_size_eq. lia.
  - intros iterator q Hit.
    destruct (count_quadgrams_Ok alphabet_len iterator q quadgrams Hn Hlen Hit)
      as (r & -> & _). by eexists.
  - intros iterator q Hit.
    destruct (sum_quadgrams_Ok quadgrams alphabet_len Hlen Hn iterator q Hit)
      as (q' & f & ->). by eexists.
  - intros. by eapply rescore_Ok.
Qed.

Lemma quadgram_index_in_table_witness :
  ∃ r, Breaker.sum_quadgrams (replicate Breaker.table_size 7%Z) [1; 0; 2] 33%Z = Ok r.
Proof.
  refine (proj1 (proj2 (proj2
    (quadgram_index_in_table 3 (replicate Breaker.table_size 7%Z) _ _)))
    [1; 0; 2] 33%Z _).
  - lia.
  - apply length_replicate.
  - repeat constructor.
Defined.

(** ** The fitness of a text *)


(** ** Keys *)

Ltac all_chars c :=
  destruct c as [[] [] [] [] [] [] [] []]; vm_compute; reflexivity.

Lemma char_lower_idemp (c : ascii) : char_lower (char_lower c) = char_lower c.
Proof. all_chars c. Qed.

Lemma char_upper_lower (c : ascii) : char_upper (char_lower c) = char_upper c.
Proof. all_chars c. Qed.

Lemma char_lower_upper (c : ascii) : char_lower (char_upper c) = char_lower c.
Proof. all_chars c. Qed.

Lemma letter_lower (c : ascii) : letter (char_lower c) = letter c.
Proof. all_chars c. Qed.

Lemma not_letter (c : ascii) : letter c = false → char_upper c = char_lower c.
Proof.
  unfold letter. intros H%negb_false_iff. by apply Ascii.eqb_eq.
Qed.

(** On the characters of the model the letters are the ASCII letters
    [A-Z] and [a-z]. *)
Lemma letter_ascii (c : ascii) :
  letter c = true
  ↔ (65 ≤ nat_of_ascii c ≤ 90 ∨ 97 ≤ nat_of_ascii c ≤ 122).
Proof.
  destruct c as [[] [] [] [] [] [] [] []]; vm_compute;
    (split; [intros H; try discriminate H; lia|intros H; try reflexivity; lia]).
Qed.

Lemma upper_eq (s : str) : Key._upper s = char_upper <$> s.
Proof.
  unfold Key._upper. induction s as [|c s IH]; [done|].
  by rewrite bind_cons, IH.
Qed.

Lemma upper_lower (s : str) : char_upper <$> lower s = char_upper <$> s.
Proof.
  unfold lower. rewrite <- list_fmap_compose. apply list_fmap_ext.
  intros _ c _. apply char_upper_lower.
Qed.

Lemma lower_fixed (s : str) (i : nat) (x : ascii) :
  lower s !! i = Some x → char_lower x = x.
Proof.
  unfold lower. rewrite list_lookup_fmap.
  destruct (s !! i) as [c|]; simpl; [|done].
  intros [= <-]. apply char_lower_idemp.
Qed.

Lemma size_set_le (s : str) : size (set s) ≤ length s.
Proof.
  unfold set. induction s as [|c s IH]; [by rewrite list_to_set_nil, size_empty|].
  rewrite list_to_set_cons, length_cons, size_union_alt, size_singleton.
  pose proof (subseteq_size (list_to_set s ∖ {[c]}) (list_to_set s : gset ascii)
                ltac:(set_solver)).
  lia.
Qed.

Lemma size_set_NoDup (s : str) : length s = size (set s) → NoDup s.
Proof.
  unfold set. induction s as [|c s IH]; [constructor|].
  rewrite list_to_set_cons, length_cons.
  intros Hlen. pose proof (size_set_le s) as Hle. unfold set in Hle.
  destruct (decide (c ∈ s)) as [Hin|Hnin].
  - assert ({[c]} ∪ list_to_set s = (list_to_set s : gset ascii)) as Heq
      by set_solver.
    rewrite Heq in Hlen. lia.
  - constructor; [done|]. apply IH.
    rewrite size_union, size_singleton in Hlen by set_solver. lia.
Qed.

Lemma foldl_insert_is_Some {K V : Type} `{Countable K} (l : list (K * V))
    (m : gmap K V) (k : K) :
  k ∈ l.*1 ∨ is_Some (m !! k) →
  is_Some (foldl (λ d p, <[p.1:=p.2]> d) m l !! k).
Proof.
  revert m. induction l as [|p l IH]; intros m; simpl.
  - intros [Hin|Hm]; [|done]. by apply elem_of_nil in Hin.
  - intros [Hin|Hm]; apply IH.
    + apply elem_of_cons in Hin as [->|Hin]; [right|by left].
      rewrite lookup_insert_eq. by eexists.
    + right. destruct (decide (p.1 = k)) as [->|Hne].
      * rewrite lookup_insert_eq. by eexists.
      * by rewrite lookup_insert_ne.
Qed.

Lemma foldl_insert_functional {K V : Type} `{Countable K} (l : list (K * V))
    (k : K) (v : V) :
  functional l →
  foldl (λ d p, <[p.1:=p.2]> d) (∅ : gmap K V) l !! k = Some v ↔ (k, v) ∈ l.
Proof.
  intros Hfun. split.
  - intros Hl. apply (foldl_insert_lookup (λ p, p)) in Hl.
    destruct Hl as [(p & Hp & ->)|Hl]; [done|by rewrite lookup_empty in Hl].
  - intros Hin.
    destruct (foldl_insert_is_Some l ∅ k) as [v' Hv'].
    { left. apply list_elem_of_fmap. by exists (k, v). }
    rewrite Hv'. f_equal. apply (Hfun k); [|done].
    apply (foldl_insert_lookup (λ p, p)) in Hv'.
    destruct Hv' as [(p & Hp & ->)|Hl]; [done|by rewrite lookup_empty in Hl].
Qed.

Lemma foldl_insert_None {K V : Type} `{Countable K} (l : list (K * V)) (k : K) :
  foldl (λ d p, <[p.1:=p.2]> d) (∅ : gmap K V) l !! k = None ↔ k ∉ l.*1.
Proof.
  split.
  - intros Hnone Hin.
    destruct (foldl_insert_is_Some l ∅ k (or_introl Hin)) as [v Hv]. congruence.
  - intros Hnin. destruct (foldl _ _ _ !! k) as [v|] eqn:Hl; [|done].
    apply (foldl_insert_lookup (λ p, p)) in Hl.
    destruct Hl as [(p & Hp & ->)|Hl]; [|by rewrite lookup_empty in Hl].
    destruct Hnin. apply list_elem_of_fmap. by exists (k, v).
Qed.

Lemma zip_camel (a k : str) (c d : ascii) :
  length a = length k →
  (c, d) ∈ zip (camel a) (camel k) ↔
  ∃ j x y, a !! j = Some x ∧ k !! j = Some y
           ∧ ((c = char_upper x ∧ d = char_upper y) ∨ (c = x ∧ d = y)).
Proof.
  intros Hlen. unfold camel.
  rewrite zip_with_app by (by rewrite !length_fmap).
  rewrite elem_of_app, !elem_of_lookup_zip_with.
  split.
  - intros [(j & x & y & [= -> ->] & Hx & Hy)|(j & x & y & [= -> ->] & Hx & Hy)].
    + rewrite list_lookup_fmap in Hx, Hy.
      destruct (a !! j) as [x'|] eqn:Hx'; [|done].
      destruct (k !! j) as [y'|] eqn:Hy'; [|done].
      injection Hx as <-. injection Hy as <-.
      exists j, x', y'. auto.
    + exists j, x, y. auto.
  - intros (j & x & y & Hx & Hy & [[-> ->]| [-> ->]]).
    + left. exists j, (char_upper x), (char_upper y).
      by rewrite !list_lookup_fmap, Hx, Hy.
    + right. by exists j, x, y.
Qed.

Lemma camel_functional (a k : str) :
  length a = length k →
  NoDup a →
  (∀ j x, a !! j = Some x → char_lower x = x) →
  (∀ j y, k !! j = Some y → char_lower y = y) →
  (∀ j x y, a !! j = Some x → k !! j = Some y → letter x = letter y) →
  functional (zip (camel a) (camel k)).
Proof.
  intros Hlen Hnd Ha Hk Hletter c d d'.
  rewrite !zip_camel by done.
  intros (j & x & y & Hx & Hy & Hcase) (j' & x' & y' & Hx' & Hy' & Hcase').
  pose proof (Ha _ _ Hx) as Hlx. pose proof (Ha _ _ Hx') as Hlx'.
  pose proof (Hk _ _ Hy) as Hly. pose proof (Hk _ _ Hy') as Hly'.
  assert (x = x' → y = y') as Hsame.
  { intros <-. assert (j = j') as <- by by eapply NoDup_lookup. congruence. }
  destruct Hcase as [[-> ->]|[-> ->]], Hcase' as [[Hc ->]|[Hc ->]].
  - f_equal. apply Hsame.
    rewrite <- Hlx, <- Hlx', <- (char_lower_upper x), <- (char_lower_upper x').
    by rewrite Hc.
  - assert (char_upper x = x) as Hux.
    { rewrite <- Hlx at 2. rewrite <- (char_lower_upper x), Hc. done. }
    assert (x = x') as Hxx by congruence.
    rewrite <- (Hsame Hxx).
    assert (letter y = false) as Hy0.
    { rewrite <- (Hletter _ _ _ Hx Hy). unfold letter.
      rewrite Hux, Hlx. by rewrite Ascii.eqb_refl. }
    apply not_letter in Hy0. congruence.
  - assert (char_upper x' = x') as Hux.
    { rewrite <- Hlx' at 2. rewrite <- (char_lower_upper x'), <- Hc. done. }
    assert (x = x') as Hxx by congruence.
    rewrite (Hsame Hxx).
    assert (letter y' = false) as Hy0.
    { rewrite <- (Hletter _ _ _ Hx' Hy'). unfold letter.
      rewrite Hux, Hlx'. by rewrite Ascii.eqb_refl. }
    apply not_letter in Hy0. congruence.
  - by apply Hsame.
Qed.

Lemma elem_of_camel (a : str) (c : ascii) :
  c ∈ camel a ↔ ∃ x, x ∈ a ∧ (c = char_upper x ∨ c = x).
Proof.
  unfold camel. rewrite elem_of_app, list_elem_of_fmap. naive_solver.
Qed.

Lemma zip_swap {A B : Type} (l : list A) (k : list B) (x : A) (y : B) :
  (x, y) ∈ zip l k ↔ (y, x) ∈ zip k l.
Proof.
  rewrite !elem_of_lookup_zip_with. naive_solver.
Qed.

Lemma zip_fst_elem {A B : Type} (l : list A) (k : list B) (x : A) :
  length l = length k → x ∈ (zip l k).*1 ↔ x ∈ l.
Proof. intros Hlen. by rewrite fst_zip by lia. Qed.

(** Two tables built from a relation and from its converse, when the
    relation is one to one and both strings have the same characters, undo
    each other. *)
Lemma translate_inverse (xs ys : str) (E D : gmap ascii ascii) (t : str) :
  length xs = length ys →
  (∀ c, c ∈ xs ↔ c ∈ ys) →
  functional (zip xs ys) →
  functional (zip ys xs) →
  maketrans xs ys = Ok E →
  maketrans ys xs = Ok D →
  translate D (translate E t) = t.
Proof.
  intros Hlen Hset Hfun Hinj HE HD.
  unfold maketrans in HE, HD.
  rewrite decide_True in HE by done. rewrite decide_True in HD by done.
  injection HE as <-. injection HD as <-.
  unfold translate. rewrite <- list_fmap_compose.
  rewrite <- (list_fmap_id t) at 2. apply list_fmap_ext. intros _ c _. simpl.
  destruct (foldl _ _ (zip xs ys) !! c) as [d|] eqn:HEc; simpl.
  - apply foldl_insert_functional in HEc; [|done].
    apply zip_swap in HEc.
    apply (foldl_insert_functional _ _ _ Hinj) in HEc. by rewrite HEc.
  - apply foldl_insert_None in HEc. rewrite zip_fst_elem in HEc by done.
    rewrite Hset in HEc. rewrite <- (zip_fst_elem ys xs) in HEc by done.
    apply foldl_insert_None in HEc. by rewrite HEc.
Qed.

Lemma check_alphabet_Ok (alphabet a : str) :
  Key.check_alphabet alphabet = Ok a → a = lower alphabet ∧ NoDup a.
Proof.
  unfold Key.check_alphabet. case_decide as Hsz; [done|].
  intros [= <-]. split; [done|]. by apply size_set_NoDup.
Qed.

Lemma check_key_Ok (key a k : str) :
  Key.check_key key a = Ok k →
  k = lower key ∧ NoDup k ∧ length k = length a ∧ ∀ c, c ∈ k ↔ c ∈ a.
Proof.
  unfold Key.check_key.
  case_decide as Hsz; [done|]. case_decide as Hlen; [done|].
  case_decide as Hset; [done|]. intros [= <-].
  split; [done|]. split; [by apply size_set_NoDup|]. split; [done|].
  intros c. unfold set in Hset.
  by rewrite <- (elem_of_list_to_set (C:=gset ascii)), Hset, elem_of_list_to_set.
Qed.

Lemma Key_init_Ok (key alphabet : str) (self : Key.t) :
  Key.__init__ key alphabet = Ok self →
  let a := lower alphabet in
  let k := lower key in
  NoDup a ∧ NoDup k ∧ length k = length a ∧ (∀ c, c ∈ k ↔ c ∈ a)
  ∧ maketrans (camel a) (camel k) = Ok (Key._encode self)
  ∧ maketrans (camel k) (camel a) = Ok (Key._decode self).
Proof.
  intros Hinit a k. unfold Key.__init__ in Hinit.
  apply bind_Ok in Hinit as (a' & [-> Hnda]%check_alphabet_Ok & Hinit).
  apply bind_Ok in Hinit as (k' & (-> & Hndk & Hlen & Hset)%check_key_Ok & Hinit).
  rewrite (upper_eq key), (upper_eq alphabet) in Hinit.
  rewrite <- (upper_lower key), <- (upper_lower alphabet) in Hinit.
  fold a k (camel a) (camel k) in Hinit.
  apply bind_Ok in Hinit as (E & HE & Hinit).
  apply bind_Ok in Hinit as (D & HD & [= <-]).
  by repeat split; try apply Hset.
Qed.

Lemma length_camel (s : str) : length (camel s) = 2 * length s.
Proof. unfold camel. rewrite length_app, length_fmap. lia. Qed.

(** C3, as amended.  For an ASCII key and an ASCII alphabet that form a
    valid pair, and in which the key has a letter ([A-Z], [a-z]) exactly at
    the positions where the alphabet has one (so that no letter is exchanged
    with a digit or a sign; in particular when both consist of ASCII letters
    only), decoding undoes encoding and encoding undoes decoding, on every
    text.  [letter] is the ASCII letters by [letter_ascii]. *)
Theorem key_round_trip (key alphabet : str) (self : Key.t) (t : str) :
  is_ascii key = true →
  is_ascii alphabet = true →
  Key.__init__ key alphabet = Ok self →
  letter <$> key = letter <$> alphabet →
  Key.decode self (Key.encode self t) = t
  ∧ Key.encode self (Key.decode self t) = t.
Proof.
  intros _ _ Hinit Hletter.
  apply Key_init_Ok in Hinit as (Hnda & Hndk & Hlen & Hset & HE & HD).
  set (a := lower alphabet) in *. set (k := lower key) in *.
  assert (∀ j x y, a !! j = Some x → k !! j = Some y → letter x = letter y)
    as Hak.
  { intros j x y Hx Hy. unfold a, k, lower in Hx, Hy.
    rewrite list_lookup_fmap in Hx, Hy.
    destruct (alphabet !! j) as [x'|] eqn:Hx'; [|done].
    destruct (key !! j) as [y'|] eqn:Hy'; [|done].
    injection Hx as <-. injection Hy as <-. rewrite !letter_lower.
    assert ((letter <$> key) !! j = (letter <$> alphabet) !! j) as Hj
      by by rewrite Hletter.
    rewrite !list_lookup_fmap, Hx', Hy' in Hj. by injection Hj. }
  assert (functional (zip (camel a) (camel k))) as Hfun.
  { apply camel_functional; [done|done|apply lower_fixed|apply lower_fixed|done]. }
  assert (functional (zip (camel k) (camel a))) as Hinj.
  { apply camel_functional; [done|done|apply lower_fixed|apply lower_fixed|].
    intros j y x Hy Hx. symmetry. by eapply Hak. }
  assert (∀ c, c ∈ camel a ↔ c ∈ camel k) as Hcamel.
  { intros c. rewrite !elem_of_camel. split; intros (x & Hx & Hc); exists x;
      (split; [by apply Hset|done]). }
  unfold Key.decode, Key.encode. split.
  - eapply (translate_inverse (camel a) (camel k)); try done.
    rewrite !length_camel. lia.
  - eapply (translate_inverse (camel k) (camel a)); try done.
    rewrite !length_camel. lia.
Qed.

Lemma key_round_trip_witness :
  ∃ self,
    Key.__init__ (str_of "Zebrascdfghijklmnopqtuvwxy10")
                 (str_of "abcdefghijklmnopqrstuvwxyz01") = Ok self
    ∧ Key.decode self (Key.encode self (str_of "Flee at 10!"))
      = str_of "Flee at 10!"
    ∧ Key.encode self (Key.decode self (str_of "Flee at 10!"))
      = str_of "Flee at 10!".
Proof.
  destruct (Key.__init__ (str_of "Zebrascdfghijklmnopqtuvwxy10")
              (str_of "abcdefghijklmnopqrstuvwxyz01")) as [self|e|] eqn:Hinit;
    [|vm_compute in Hinit; discriminate..].
  exists self. split; [reflexivity|].
  apply (key_round_trip (str_of "Zebrascdfghijklmnopqtuvwxy10")
           (str_of "abcdefghijklmnopqrstuvwxyz01") self (str_of "Flee at 10!"));
    [reflexivity|reflexivity|exact Hinit|reflexivity].
Defined.

(** C3 as the specification states it fails: with the alphabet [ab1] and the
    key [1ab], a valid pair, [A] is encoded to [1] and [1] is decoded
    to [a]. *)
Lemma key_round_trip_counterexample :
  (self ← Key.__init__ (str_of "1ab") (str_of "ab1");
   Ok (Key.encode self (str_of "A"),
       Key.decode self (Key.encode self (str_of "A"))))
  = Ok (str_of "1", str_of "a").
Proof. vm_compute. reflexivity. Qed.

(** ** The hill climber *)

Lemma swap_key_Permutation (key : list nat) (idx1 idx2 : nat) :
  swap_key key idx1 idx2 ≡ₚ key.
Proof.
  unfold swap_key.
  destruct (key !! idx1) as [ch1|] eqn:H1; [|done].
  destruct (key !! idx2) as [ch2|] eqn:H2; [|done].
  apply Permutation_inj. split; [by rewrite !length_insert|].
  exists (λ p, if decide (p = idx1) then idx2
               else if decide (p = idx2) then idx1 else p).
  split.
  - intros p q. repeat case_decide; congruence.
  - intros p. pose proof (lookup_lt_Some _ _ _ H1). pose proof (lookup_lt_Some _ _ _ H2).
    destruct (decide (p = idx2)) as [->|Hp2].
    + rewrite list_lookup_insert_eq by (by rewrite length_insert).
      case_decide; congruence.
    + rewrite list_lookup_insert_ne by done.
      destruct (decide (p = idx1)) as [->|Hp1].
      * by rewrite list_lookup_insert_eq.
      * by rewrite list_lookup_insert_ne.
Qed.

Lemma permutation_seq_facts (key : list nat) (n : nat) :
  key ≡ₚ seq 0 n →
  length key = n ∧ NoDup key ∧ (∀ i c, key !! i = Some c → c < n)
  ∧ (∀ c, c < n → ∃ i, key !! i = Some c).
Proof.
  intros Hp. split; [by rewrite Hp, length_seq|].
  split; [rewrite Hp; apply NoDup_seq|]. split.
  - intros i c Hc. apply list_elem_of_lookup_2 in Hc. rewrite Hp in Hc.
    apply elem_of_seq in Hc. lia.
  - intros c Hc. apply list_elem_of_lookup. rewrite Hp. apply elem_of_seq. lia.
Qed.

Lemma char_positions_spec (alphabet : str) (cipher_bin : list nat) (ch : nat) :
  ch < length alphabet →
  ∃ positions,
    Breaker.build_char_positions alphabet cipher_bin !! ch = Some positions
    ∧ ∀ p, p ∈ positions ↔ cipher_bin !! p = Some ch.
Proof.
  intros Hch. eexists. split.
  - unfold Breaker.build_char_positions, range.
    rewrite list_lookup_fmap, lookup_seq_lt by lia. reflexivity.
  - intros p. rewrite list_elem_of_omap. split.
    + intros ([i c] & Hin & Heq). simpl in Heq.
      apply elem_of_lookup_imap in Hin as (j & x & [= -> ->] & Hx).
      case_decide; [|done]. by simplify_eq.
    + intros Hp. exists (p, ch). split.
      * apply elem_of_lookup_imap. by exists p, ch.
      * simpl. by rewrite decide_True.
Qed.

Lemma assign_all_spec (positions : list nat) (v : nat) (plaintext : list nat) :
  Forall (λ p, p < length plaintext) positions →
  ∃ plaintext',
    Breaker.assign_all positions v plaintext = Ok plaintext'
    ∧ length plaintext' = length plaintext
    ∧ ∀ p, plaintext' !! p
           = if decide (p ∈ positions) then Some v else plaintext !! p.
Proof.
  unfold Breaker.assign_all. intros Hpos. revert plaintext Hpos.
  induction positions as [|p0 positions IH]; intros pt Hpos.
  - exists pt. split; [done|]. split; [done|]. intros p.
    rewrite decide_False; [done|apply not_elem_of_nil].
  - apply Forall_cons_1 in Hpos as [Hp0 Hpos].
    rewrite for__cons, setitem_Ok by done. simpl.
    destruct (IH (<[p0:=v]> pt)) as (pt' & -> & Hlen & Hlook).
    { by rewrite length_insert. }
    exists pt'. split; [done|]. split; [by rewrite Hlen, length_insert|].
    intros p. rewrite Hlook.
    destruct (decide (p ∈ positions)) as [Hin|Hnin].
    + rewrite decide_True; [done|by right].
    + destruct (decide (p = p0)) as [->|Hne].
      * rewrite decide_True by by left. by rewrite list_lookup_insert_eq.
      * rewrite decide_False by (by intros [?|?]%elem_of_cons).
        by rewrite list_lookup_insert_ne.
Qed.

Section trial.

Context (quadgram : list Z) (alphabet : str) (cipher_bin : list nat).
Hypothesis table_length : length quadgram = Breaker.table_size.
Hypothesis alphabet_short : length alphabet ≤ 32.
Hypothesis cipher_long : 3 ≤ length cipher_bin.

Local Abbreviation key_len := (length alphabet).
Local Abbreviation char_positions :=
  (Breaker.build_char_positions alphabet cipher_bin).

(** The two assignments of a trial, to the positions of [ch1] and of
    [ch2]. *)
Lemma flip_spec (ch1 ch2 v1 v2 : nat) (plaintext : list nat) :
  ch1 < key_len → ch2 < key_len →
  length plaintext = length cipher_bin →
  ∃ positions1 positions2 plaintext1 plaintext2,
    getitem char_positions ch1 = Ok positions1
    ∧ Breaker.assign_all positions1 v1 plaintext = Ok plaintext1
    ∧ getitem char_positions ch2 = Ok positions2
    ∧ Breaker.assign_all positions2 v2 plaintext1 = Ok plaintext2
    ∧ length plaintext2 = length cipher_bin
    ∧ ∀ p, plaintext2 !! p
           = if decide (cipher_bin !! p = Some ch2) then Some v2
             else if decide (cipher_bin !! p = Some ch1) then Some v1
             else plaintext !! p.
Proof.
  intros Hch1 Hch2 Hlen.
  destruct (char_positions_spec alphabet cipher_bin ch1 Hch1) as (pos1 & Hpos1 & Hin1).
  destruct (char_positions_spec alphabet cipher_bin ch2 Hch2) as (pos2 & Hpos2 & Hin2).
  destruct (assign_all_spec pos1 v1 plaintext) as (pt1 & Hpt1 & Hlen1 & Hlook1).
  { apply list.Forall_forall. intros p Hp%Hin1%lookup_lt_Some. lia. }
  destruct (assign_all_spec pos2 v2 pt1) as (pt2 & Hpt2 & Hlen2 & Hlook2).
  { apply list.Forall_forall. intros p Hp%Hin2%lookup_lt_Some. lia. }
  exists pos1, pos2, pt1, pt2.
  repeat split; try done; try (by apply getitem_Ok); try lia.
  intros p. rewrite Hlook2, Hlook1.
  repeat case_decide; try done; exfalso; naive_solver.
Qed.

(** What a trial does, for a state that satisfies the invariant. *)
Lemma trial_spec (idx1 idx2 : nat) (s : Breaker.climb) :
  climb_inv key_len cipher_bin s →
  idx1 < idx2 < key_len →
  ∃ plaintext tmp_fitness,
    Forall2 (λ p c, swap_key (Breaker.c_key s) idx1 idx2 !! p = Some c)
      plaintext cipher_bin
    ∧ Breaker.rescore quadgram plaintext = Ok tmp_fitness
    ∧ Breaker.trial quadgram char_positions idx1 idx2 s
      = Ok (if (tmp_fitness >? Breaker.c_max_fitness s)%Z
            then Breaker.mkClimb (swap_key (Breaker.c_key s) idx1 idx2)
                   plaintext (S (Breaker.c_nbr_keys s)) tmp_fitness true
            else Breaker.mkClimb (Breaker.c_key s) (Breaker.c_plaintext s)
                   (S (Breaker.c_nbr_keys s)) (Breaker.c_max_fitness s)
                   (Breaker.c_better_key s)).
Proof.
  intros [Hperm Hpt] Hidx. destruct s as [key pt n mx better]. simpl in *.
  destruct (permutation_seq_facts key key_len Hperm) as (Hklen & Hnd & Hlt & _).
  destruct (lookup_lt_is_Some_2 key idx1 ltac:(lia)) as [ch1 Hch1].
  destruct (lookup_lt_is_Some_2 key idx2 ltac:(lia)) as [ch2 Hch2].
  pose proof (Hlt _ _ Hch1) as Hch1lt. pose proof (Hlt _ _ Hch2) as Hch2lt.
  assert (ch1 ≠ ch2) as Hne.
  { intros <-. pose proof (NoDup_lookup _ _ _ _ Hnd Hch1 Hch2). lia. }
  pose proof (Forall2_length _ _ _ Hpt) as Hptlen.
  destruct (flip_spec ch1 ch2 idx2 idx1 pt Hch1lt Hch2lt Hptlen)
    as (pos1 & pos2 & pt1 & pt2 & Hg1 & Ha1 & Hg2 & Ha2 & Hlen2 & Hlook2).
  assert (swap_key key idx1 idx2 = <[idx2:=ch1]> (<[idx1:=ch2]> key)) as Hswap.
  { unfold swap_key. by rewrite Hch1, Hch2. }
  assert (Forall2 (λ p c, swap_key key idx1 idx2 !! p = Some c) pt2 cipher_bin)
    as Hpt2.
  { apply Forall2_same_length_lookup. split; [done|].
    intros p x c Hx Hc. rewrite Hlook2, Hc in Hx. rewrite Hswap.
    destruct (decide (Some c = Some ch2)) as [[= ->]|Hc2].
    - injection Hx as <-.
      rewrite list_lookup_insert_ne by lia.
      by rewrite list_lookup_insert_eq by lia.
    - destruct (decide (Some c = Some ch1)) as [[= ->]|Hc1].
      + injection Hx as <-.
        by rewrite list_lookup_insert_eq by (rewrite length_insert; lia).
      + pose proof (Forall2_lookup_lr _ _ _ _ _ _ Hpt Hx Hc) as Hkey.
        rewrite !list_lookup_insert_ne; [done|congruence..]. }
  assert (∃ tmp, Breaker.rescore quadgram pt2 = Ok tmp) as [tmp Htmp].
  { apply (rescore_Ok quadgram key_len table_length alphabet_short); [lia|].
    apply Forall_lookup. intros p x Hx.
    destruct (Forall2_lookup_l _ _ _ _ _ Hpt2 Hx) as (c & _ & Hkx).
    apply lookup_lt_Some in Hkx.
    rewrite swap_key_Permutation in Hkx. lia. }
  exists pt2, tmp. split; [done|]. split; [done|].
  unfold Breaker.trial. simpl.
  rewrite (proj2 (getitem_Ok key idx1 ch1) Hch1). simpl.
  rewrite (proj2 (getitem_Ok key idx2 ch2) Hch2). simpl.
  rewrite Hg1. simpl. rewrite Ha1. simpl. rewrite Hg2. simpl.
  rewrite Ha2. simpl. rewrite Htmp. simpl.
  destruct (tmp >? mx)%Z.
  - rewrite setitem_Ok by lia. simpl.
    rewrite setitem_Ok by (rewrite length_insert; lia). simpl.
    by rewrite Hswap.
  - destruct (flip_spec ch1 ch2 idx1 idx2 pt2 Hch1lt Hch2lt Hlen2)
      as (pos1' & pos2' & pt3 & pt4 & Hg1' & Ha3 & Hg2' & Ha4 & Hlen4 & Hlook4).
    rewrite Hg1 in Hg1'. injection Hg1' as <-.
    rewrite Hg2 in Hg2'. injection Hg2' as <-.
    rewrite Ha3. simpl. rewrite Ha4. simpl. do 2 f_equal.
    apply list_eq. intros p. rewrite Hlook4, Hlook2.
    destruct (cipher_bin !! p) as [c|] eqn:Hc.
    + destruct (Forall2_lookup_r _ _ _ _ _ Hpt Hc) as (x & Hx & Hkx).
      rewrite Hx.
      destruct (decide (Some c = Some ch2)) as [[= ->]|Hc2].
      { f_equal. by eapply NoDup_lookup. }
      destruct (decide (Some c = Some ch1)) as [[= ->]|Hc1]; [|done].
      f_equal. by eapply NoDup_lookup.
    + rewrite !decide_False by done. done.
Qed.

End trial.

Lemma score_bound_nonneg (quadgram : list Z) : (0 ≤ score_bound quadgram)%Z.
Proof. unfold score_bound. induction quadgram; simpl; lia. Qed.

Lemma score_bound_ge (quadgram : list Z) (v : Z) :
  v ∈ quadgram → (v ≤ score_bound quadgram)%Z.
Proof.
  unfold score_bound. induction 1; simpl; lia.
Qed.

Lemma getitemZ_elem {A : Type} (l : list A) (i : Z) (x : A) :
  getitemZ l i = Ok x → x ∈ l.
Proof.
  unfold getitemZ. case_match; [done|].
  intros Hg%getitem_Ok. by eapply list_elem_of_lookup_2.
Qed.

Lemma rescore_loop_le (quadgram : list Z) (chars : list nat) (st st' : Z * Z) :
  for_ chars (Breaker.rescore_step quadgram) st = Ok st' →
  (st'.2 ≤ st.2 + Z.of_nat (length chars) * score_bound quadgram)%Z.
Proof.
  revert st. induction chars as [|c chars IH]; intros [q f].
  - intros [= <-]. simpl. lia.
  - rewrite for__cons. intros (st1 & Hstep & Hrest)%bind_Ok.
    unfold Breaker.rescore_step in Hstep.
    apply bind_Ok in Hstep as (score & Hscore%getitemZ_elem%score_bound_ge & [= <-]).
    apply IH in Hrest. simpl in *. lia.
Qed.

Lemma rescore_le (quadgram : list Z) (plaintext : list nat) (tmp_fitness : Z) :
  Breaker.rescore quadgram plaintext = Ok tmp_fitness →
  (tmp_fitness ≤ (Z.of_nat (length plaintext) - 3) * score_bound quadgram)%Z.
Proof.
  unfold Breaker.rescore.
  intros (p0 & Hp0%getitem_Ok & H)%bind_Ok.
  apply bind_Ok in H as (p1 & Hp1%getitem_Ok & H).
  apply bind_Ok in H as (p2 & Hp2%getitem_Ok & H).
  apply bind_Ok in H as ([q f] & Hloop%rescore_loop_le & [= <-]).
  rewrite length_drop in Hloop. apply lookup_lt_Some in Hp2.
  rewrite Nat2Z.inj_sub in Hloop by lia. simpl in Hloop. lia.
Qed.

Section climb.

Context (quadgram : list Z) (alphabet : str) (cipher_bin : list nat).
Hypothesis table_length : length quadgram = Breaker.table_size.
Hypothesis alphabet_short : length alphabet ≤ 32.
Hypothesis cipher_long : 3 ≤ length cipher_bin.

Local Abbreviation key_len := (length alphabet).
Local Abbreviation char_positions :=
  (Breaker.build_char_positions alphabet cipher_bin).
Local Abbreviation B := (fitness_bound quadgram cipher_bin).

Local Abbreviation pass_inv := (pass_inv key_len cipher_bin B).

Lemma trial_pass_inv (idx1 idx2 : nat) (s0 s : Breaker.climb) :
  idx1 < idx2 < key_len →
  pass_inv s0 s →
  ∃ s', Breaker.trial quadgram char_positions idx1 idx2 s = Ok s'
        ∧ pass_inv s0 s'.
Proof.
  intros Hidx (Hinv & Hmax & Hbetter).
  destruct (trial_spec quadgram alphabet cipher_bin table_length alphabet_short
              cipher_long idx1 idx2 s Hinv Hidx) as (pt & tmp & Hpt & Htmp & ->).
  eexists. split; [done|].
  apply rescore_le in Htmp. rewrite (Forall2_length _ _ _ Hpt) in Htmp.
  destruct (Z.gtb_spec tmp (Breaker.c_max_fitness s)) as [Hgt|Hle].
  - split; [|simpl; split; [unfold fitness_bound; lia|right; lia]].
    split; simpl; [|done].
    rewrite swap_key_Permutation. apply Hinv.
  - split; [|done]. destruct Hinv. by split.
Qed.

Lemma pass_spec (s : Breaker.climb) :
  climb_inv key_len cipher_bin s →
  (Breaker.c_max_fitness s ≤ B)%Z →
  ∃ s', Breaker.pass quadgram key_len char_positions s = Ok s'
        ∧ pass_inv s s'.
Proof.
  intros Hinv Hmax. unfold Breaker.pass.
  apply (for__inv (λ _, True) (pass_inv s)).
  - by apply Forall_true.
  - intros idx1 s1 _ Hs1.
    apply (for__inv (λ idx2, idx1 < idx2 < key_len) (pass_inv s)); [|intros; by apply trial_pass_inv|done].
    unfold range. apply Forall_seq. intros idx2 Hidx2. lia.
  - split; [done|]. split; [lia|]. by left.
Qed.

Lemma climb_while_spec (fuel : nat) (s : Breaker.climb) :
  climb_inv key_len cipher_bin s →
  (Breaker.c_max_fitness s ≤ B)%Z →
  Z.to_nat (B - Breaker.c_max_fitness s) + 2 ≤ fuel →
  ∃ s', Breaker.climb_while fuel quadgram key_len char_positions s = Ok s'
        ∧ climb_inv key_len cipher_bin s'
        ∧ (Breaker.c_max_fitness s ≤ Breaker.c_max_fitness s' ≤ B)%Z.
Proof.
  revert s. induction fuel as [|fuel IH]; intros s Hinv Hmax Hfuel; [lia|].
  simpl. destruct (Breaker.c_better_key s) eqn:Hbetter.
  - set (s0 := Breaker.mkClimb _ _ _ _ false).
    destruct (pass_spec s0) as (s1 & -> & Hinv1 & Hmax1 & Hbetter1).
    { by destruct Hinv. }
    { done. }
    simpl in *. destruct (Breaker.c_better_key s1) eqn:Hb1.
    + destruct Hbetter1 as [?|Hlt]; [done..|].
      destruct (IH s1) as (s' & Hs' & Hinv' & Hmax'); [done|lia|lia|].
      exists s'. split; [done|]. split; [done|]. lia.
    + exists s1. split; [|done].
      destruct fuel as [|fuel]; [lia|]. simpl. by rewrite Hb1.
  - exists s. split; [done|]. split; [done|]. lia.
Qed.

End climb.
Lemma index_Ok {A : Type} `{EqDecision A} (l : list A) (x : A) :
  x ∈ l → ∃ i, index l x = Ok i ∧ l !! i = Some x.
Proof.
  induction l as [|y l IH]; [by intros ?%elem_of_nil|].
  intros Hin. simpl. destruct (decide (y = x)) as [->|Hne]; [by exists 0|].
  apply elem_of_cons in Hin as [->|Hin]; [done|].
  destruct (IH Hin) as (i & -> & Hi). by exists (S i).
Qed.

Lemma comprehension_Forall2 {A B : Type} (R : B → A → Prop) (f : A → res B)
    (l : list A) :
  Forall (λ x, ∃ y, f x = Ok y ∧ R y x) l →
  ∃ ys, comprehension f l = Ok ys ∧ Forall2 R ys l.
Proof.
  induction 1 as [|x l (y & Hy & HR) _ (ys & Hys & HF)]; simpl.
  - exists []. by split.
  - rewrite Hy. simpl. rewrite Hys. simpl. exists (y :: ys). split; [done|].
    by constructor.
Qed.

Lemma comprehension_fmap {A B : Type} (f : A → res B) (g : A → B) (l : list A) :
  Forall (λ x, f x = Ok (g x)) l → comprehension f l = Ok (g <$> l).
Proof.
  induction 1 as [|x l Hx _ IH]; simpl; [done|]. by rewrite Hx, IH.
Qed.

(** A climb from a permutation ends, with a permutation. *)
Lemma hill_climbing_spec (self : Breaker.t) (fuel : nat) (key cipher_bin : list nat) :
  wf self →
  Forall (λ c, c < length (Breaker._alphabet self)) cipher_bin →
  3 ≤ length cipher_bin →
  key ≡ₚ seq 0 (length (Breaker._alphabet self)) →
  climb_fuel (Breaker._quadgrams self) cipher_bin ≤ fuel →
  ∃ fitness nbr_keys key',
    Breaker._hill_climbing self fuel key cipher_bin
      (Breaker.build_char_positions (Breaker._alphabet self) cipher_bin)
    = Ok (fitness, nbr_keys, key')
    ∧ key' ≡ₚ seq 0 (length (Breaker._alphabet self))
    ∧ (0 ≤ fitness ≤ fitness_bound (Breaker._quadgrams self) cipher_bin)%Z.
Proof.
  intros Hwf Hsym Hlong Hperm Hfuel. unfold Breaker._hill_climbing.
  destruct (permutation_seq_facts _ _ Hperm) as (_ & _ & _ & Hall).
  destruct (comprehension_Forall2 (λ p c, key !! p = Some c)
              (λ idx, index key idx) cipher_bin) as (pt & -> & Hpt).
  { eapply Forall_impl; [exact Hsym|]. intros c Hc. simpl in Hc.
    destruct (Hall c Hc) as (i & Hi). by apply index_Ok, list_elem_of_lookup_2 with i. }
  simpl. rewrite (wf_len self Hwf).
  assert (0 ≤ fitness_bound (Breaker._quadgrams self) cipher_bin)%Z as HB.
  { unfold fitness_bound. pose proof (score_bound_nonneg (Breaker._quadgrams self)). nia. }
  destruct (climb_while_spec (Breaker._quadgrams self) (Breaker._alphabet self)
              cipher_bin (wf_table self Hwf) (wf_short self Hwf) Hlong fuel
              (Breaker.mkClimb key pt 0 0%Z true))
    as (s' & -> & [Hperm' _] & Hmax).
  - by split.
  - done.
  - simpl. unfold climb_fuel in Hfuel. lia.
  - simpl. by exists (Breaker.c_max_fitness s'), (Breaker.c_nbr_keys s'), (Breaker.c_key s').
Qed.

(** ** Which exceptions a computation may raise *)

Lemma raises_only_Ok {A : Type} (Q : exn → Prop) (a : A) : raises_only Q (Ok a).
Proof. intros e [=]. Qed.

Lemma raises_only_OutOfFuel {A : Type} (Q : exn → Prop) :
  raises_only Q (@OutOfFuel A).
Proof. intros e [=]. Qed.

Lemma raises_only_Raise {A : Type} (Q : exn → Prop) (e : exn) :
  Q e → raises_only Q (@Raise A e).
Proof. by intros He e' [= <-]. Qed.

Lemma raises_only_bind {A B : Type} (Q : exn → Prop) (m : res A) (f : A → res B) :
  raises_only Q m → (∀ a, raises_only Q (f a)) → raises_only Q (m ≫= f).
Proof.
  intros Hm Hf e [He|(a & _ & He)]%bind_Raise; [by apply Hm|by apply (Hf a)].
Qed.

Lemma raises_only_for_ {A S : Type} (Q : exn → Prop) (l : list A)
    (body : A → S → res S) (s : S) :
  (∀ x s, raises_only Q (body x s)) → raises_only Q (for_ l body s).
Proof.
  intros Hbody. revert s. induction l as [|x l IH]; intros s; simpl.
  - apply raises_only_Ok.
  - apply raises_only_bind; [apply Hbody|apply IH].
Qed.

Lemma raises_only_comprehension {A B : Type} (Q : exn → Prop) (f : A → res B)
    (l : list A) :
  (∀ x, raises_only Q (f x)) → raises_only Q (comprehension f l).
Proof.
  intros Hf. induction l as [|x l IH]; simpl; [apply raises_only_Ok|].
  apply raises_only_bind; [apply Hf|]. intros y.
  apply raises_only_bind; [apply IH|]. intros ys. apply raises_only_Ok.
Qed.

Lemma raises_only_getitem {A : Type} (Q : exn → Prop) (l : list A) (i : nat) :
  Q IndexError → raises_only Q (getitem l i).
Proof.
  intros HQ. unfold getitem. destruct (l !! i);
    [apply raises_only_Ok|by apply raises_only_Raise].
Qed.

Lemma raises_only_setitem {A : Type} (Q : exn → Prop) (l : list A) (i : nat) (v : A) :
  Q IndexError → raises_only Q (setitem l i v).
Proof.
  intros HQ. unfold setitem. case_decide;
    [apply raises_only_Ok|by apply raises_only_Raise].
Qed.

Lemma raises_only_getitemZ {A : Type} (Q : exn → Prop) (l : list A) (i : Z) :
  Q IndexError → raises_only Q (getitemZ l i).
Proof.
  intros HQ. unfold getitemZ. case_match;
    [by apply raises_only_Raise|by apply raises_only_getitem].
Qed.

Lemma raises_only_index {A : Type} `{EqDecision A} (Q : exn → Prop)
    (l : list A) (x : A) :
  Q (ValueError "x is not in list") → raises_only Q (index l x).
Proof.
  intros HQ. induction l as [|y l IH]; simpl; [by apply raises_only_Raise|].
  case_decide; [apply raises_only_Ok|].
  apply raises_only_bind; [done|]. intros i. apply raises_only_Ok.
Qed.

#[global] Hint Resolve raises_only_Ok raises_only_OutOfFuel raises_only_bind
  raises_only_for_ raises_only_comprehension raises_only_getitem
  raises_only_setitem raises_only_getitemZ raises_only_index : raises.

Lemma not_range_error_other (e : exn) :
  match e with
  | ValueError msg =>
    msg ≠ "maximum number of rounds not in the valid range 1..10000"%string
    ∧ msg ≠ "consolidate parameter out of valid range 1..30"%string
  | _ => True
  end → not_range_error e.
Proof.
  intros He [->| ->]; by destruct He.
Qed.

Ltac other_error := apply not_range_error_other; try done; by split.

Lemma trial_raises (quadgram : list Z) (char_positions : list (list nat))
    (idx1 idx2 : nat) (s : Breaker.climb) :
  raises_only not_range_error (Breaker.trial quadgram char_positions idx1 idx2 s).
Proof.
  assert (not_range_error IndexError) as HI by other_error.
  assert (∀ pos v pt, raises_only not_range_error (Breaker.assign_all pos v pt)) as Hassign.
  { intros. unfold Breaker.assign_all. auto with raises. }
  assert (∀ pt, raises_only not_range_error (Breaker.rescore quadgram pt)) as Hrescore.
  { intros pt. unfold Breaker.rescore.
    apply raises_only_bind; [auto with raises|intros p0].
    apply raises_only_bind; [auto with raises|intros p1].
    apply raises_only_bind; [auto with raises|intros p2].
    apply raises_only_bind; [|intros [q f]; apply raises_only_Ok].
    apply raises_only_for_. intros c [q f]. unfold Breaker.rescore_step.
    apply raises_only_bind; [auto with raises|intros; apply raises_only_Ok]. }
  unfold Breaker.trial.
  repeat (apply raises_only_bind; [auto with raises|intros]).
  case_match; repeat (apply raises_only_bind; [auto with raises|intros]);
    apply raises_only_Ok.
Qed.

Lemma hill_climbing_raises (self : Breaker.t) (fuel : nat) (key cipher_bin : list nat)
    (char_positions : list (list nat)) :
  raises_only not_range_error
    (Breaker._hill_climbing self fuel key cipher_bin char_positions).
Proof.
  unfold Breaker._hill_climbing.
  apply raises_only_bind.
  { apply raises_only_comprehension. intros c. apply raises_only_index. other_error. }
  intros pt. apply raises_only_bind; [|auto with raises].
  generalize (Breaker.mkClimb key pt 0 0%Z true).
  induction fuel as [|fuel IH]; intros s; simpl; [auto with raises|].
  case_match; [|auto with raises].
  apply raises_only_bind; [|done].
  unfold Breaker.pass. apply raises_only_for_. intros idx1 s1.
  apply raises_only_for_. intros idx2 s2. apply trial_raises.
Qed.

(** ** The rounds of [break_cipher] *)

Section rounds.

Context {RNG : Type} (shuffle : RNG → list nat → list nat * RNG).
Context (self : Breaker.t) (fuel : nat) (cipher_bin : list nat)
        (char_positions : list (list nat)) (consolidate : Z).

Local Abbreviation break_rounds :=
  (Breaker.break_rounds RNG shuffle self fuel cipher_bin char_positions consolidate).

(** One iteration of the loop. *)
Lemma break_rounds_cons (round_cntr : nat) (round_cntrs : list nat)
    (s : Breaker.rounds) (g : RNG) :
  break_rounds (round_cntr :: round_cntrs) s g
  = match Breaker._hill_climbing self fuel (shuffle g (Breaker.r_key s)).1
            cipher_bin char_positions with
    | Ok (fitness, tmp_nbr_keys, key) =>
      if (Breaker.record_climb consolidate round_cntr key fitness tmp_nbr_keys s).2
      then (Ok (Breaker.record_climb consolidate round_cntr key fitness
                  tmp_nbr_keys s).1, (shuffle g (Breaker.r_key s)).2)
      else break_rounds round_cntrs
             (Breaker.record_climb consolidate round_cntr key fitness
                tmp_nbr_keys s).1 (shuffle g (Breaker.r_key s)).2
    | Raise e => (Raise e, (shuffle g (Breaker.r_key s)).2)
    | OutOfFuel => (OutOfFuel, (shuffle g (Breaker.r_key s)).2)
    end.
Proof.
  simpl. destruct (shuffle g (Breaker.r_key s)) as [key g1]. simpl.
  destruct (Breaker._hill_climbing _ _ _ _ _) as [[[fitness nbr] key']| |]; try done.
  by destruct (Breaker.record_climb _ _ _ _ _ _) as [s1 []].
Qed.

Lemma record_climb_fields (round_cntr : nat) (key : list nat) (fitness : Z)
    (tmp_nbr_keys : nat) (s : Breaker.rounds) :
  let s1 := (Breaker.record_climb consolidate round_cntr key fitness tmp_nbr_keys s).1 in
  Breaker.r_key s1 = key
  ∧ (Breaker.r_best_key s1 = key ∨ Breaker.r_best_key s1 = Breaker.r_best_key s)
  ∧ Breaker.r_round_cntr s1 = Some round_cntr
  ∧ Breaker.r_climbs s1 = Breaker.r_climbs s ++ [(fitness, tmp_nbr_keys)].
Proof.
  unfold Breaker.record_climb. repeat case_match; simpl; auto.
Qed.

(** After the loop, the loop variable is the index of the last climb. *)
Lemma break_rounds_cntr (k a : nat) (s s' : Breaker.rounds) (g g' : RNG) :
  length (Breaker.r_climbs s) = a →
  k ≠ 0 ∨ Breaker.r_round_cntr s = Some (pred a) ∧ a ≠ 0 →
  break_rounds (seq a k) s g = (Ok s', g') →
  ∃ r, Breaker.r_round_cntr s' = Some r ∧ length (Breaker.r_climbs s') = S r.
Proof.
  revert a s g. induction k as [|k IH]; intros a s g Hlen Hk.
  - intros [= <- <-]. destruct Hk as [?|[Hr Ha]]; [done|].
    exists (pred a). split; [done|lia].
  - simpl seq. rewrite break_rounds_cons.
    destruct (Breaker._hill_climbing _ _ _ _ _) as [[[fitness nbr] key']| |];
      try done.
    pose proof (record_climb_fields a key' fitness nbr s) as (_ & _ & Hc & Hl).
    destruct (Breaker.record_climb _ _ _ _ _ _) as [s1 stop]. simpl in *.
    assert (length (Breaker.r_climbs s1) = S a) as Hlen1.
    { rewrite Hl, length_app. simpl. lia. }
    destruct stop.
    + intros [= <- <-]. by exists a.
    + apply IH; [done|]. right. by split.
Qed.

(** With [consolidate = 1] the loop never breaks. *)
Lemma break_rounds_consolidate_1 (round_cntrs : list nat)
    (s s' : Breaker.rounds) (g g' : RNG) :
  consolidate = 1%Z →
  (1 ≤ Breaker.r_local_maximum_hit s)%Z →
  break_rounds round_cntrs s g = (Ok s', g') →
  length (Breaker.r_climbs s')
  = length (Breaker.r_climbs s) + length round_cntrs.
Proof.
  intros Hc. revert s g. induction round_cntrs as [|r round_cntrs IH];
    intros s g Hhit.
  - intros [= <- <-]. simpl. lia.
  - rewrite break_rounds_cons.
    destruct (Breaker._hill_climbing _ _ _ _ _) as [[[fitness nbr] key']| |];
      try done.
    pose proof (record_climb_fields r key' fitness nbr s) as (_ & _ & _ & Hl).
    assert ((Breaker.record_climb consolidate r key' fitness nbr s).2 = false
            ∧ (1 ≤ Breaker.r_local_maximum_hit
                     (Breaker.record_climb consolidate r key' fitness nbr s).1)%Z)
      as [Hstop Hhit1].
    { unfold Breaker.record_climb. repeat case_match; simpl; split; try done;
        lia. }
    rewrite Hstop. intros Hrest%IH; [|done].
    rewrite Hrest, Hl, length_app. simpl. lia.
Qed.

Lemma break_rounds_raises (round_cntrs : list nat) (s : Breaker.rounds) (g : RNG) :
  raises_only not_range_error (break_rounds round_cntrs s g).1.
Proof.
  revert s g. induction round_cntrs as [|r round_cntrs IH]; intros s g.
  - apply raises_only_Ok.
  - rewrite break_rounds_cons.
    pose proof (hill_climbing_raises self fuel (shuffle g (Breaker.r_key s)).1
                  cipher_bin char_positions) as Hclimb.
    destruct (Breaker._hill_climbing _ _ _ _ _) as [[[fitness nbr] key']|e|].
    + case_match; [apply raises_only_Ok|apply IH].
    + simpl. by apply raises_only_Raise, Hclimb.
    + apply raises_only_OutOfFuel.
Qed.

End rounds.
(** ** The key rendered by [break_cipher] *)

Lemma Key_init_Permutation (key alphabet : str) :
  NoDup (lower alphabet) → key ≡ₚ alphabet →
  ∃ self_key, Key.__init__ key alphabet = Ok self_key.
Proof.
  intros Hnd Hperm. unfold Key.__init__.
  assert (lower key ≡ₚ lower alphabet) as Hlow by (unfold lower; by rewrite Hperm).
  assert (Key.check_alphabet alphabet = Ok (lower alphabet)) as ->.
  { unfold Key.check_alphabet. rewrite decide_False; [done|].
    unfold set. rewrite size_list_to_set by done. lia. }
  simpl.
  assert (Key.check_key key (lower alphabet) = Ok (lower key)) as ->.
  { unfold Key.check_key.
    rewrite decide_False.
    2:{ unfold set. rewrite size_list_to_set; [lia|]. by rewrite Hlow. }
    rewrite decide_False by (rewrite Hlow; lia).
    rewrite decide_False; [done|]. intros Hne. apply Hne. unfold set.
    apply set_eq. intros c. by rewrite !elem_of_list_to_set, Hlow. }
  simpl. unfold maketrans.
  rewrite decide_True.
  2:{ rewrite (upper_eq key), (upper_eq alphabet), !length_app.
      rewrite (length_lower key), (length_lower alphabet), !length_fmap.
      by rewrite Hperm. }
  simpl. rewrite decide_True.
  2:{ rewrite (upper_eq key), (upper_eq alphabet), !length_app.
      rewrite (length_lower key), (length_lower alphabet), !length_fmap.
      by rewrite Hperm. }
  simpl. by eexists.
Qed.

Lemma render_key (alphabet : str) (best_key : list nat) :
  best_key ≡ₚ seq 0 (length alphabet) →
  ∃ key_str, comprehension (λ x, getitem alphabet x) best_key = Ok key_str
             ∧ key_str ≡ₚ alphabet.
Proof.
  intros Hperm.
  destruct (permutation_seq_facts _ _ Hperm) as (_ & _ & Hlt & _).
  set (g := λ x, default "000"%char (alphabet !! x)).
  exists (g <$> best_key). split.
  - apply comprehension_fmap, Forall_lookup. intros i x Hx%Hlt.
    destruct (getitem_lt alphabet x Hx) as (c & -> & Hc). unfold g. by rewrite Hc.
  - rewrite Hperm. assert (g <$> seq 0 (length alphabet) = alphabet) as ->; [|done].
    apply list_eq. intros i. rewrite list_lookup_fmap.
    destruct (decide (i < length alphabet)) as [Hi|Hi].
    + rewrite lookup_seq_lt by done. simpl. unfold g.
      by destruct (lookup_lt_is_Some_2 alphabet i Hi) as [c ->].
    + rewrite lookup_seq_ge, lookup_ge_None_2 by lia. done.
Qed.

Section break.

Context {RNG : Type} (shuffle : RNG → list nat → list nat * RNG).
Context (self : Breaker.t) (fuel : nat).

Local Abbreviation alphabet := (Breaker._alphabet self).

Lemma search_Ok (g g' : RNG) (ciphertext : str) (max_rounds consolidate : Z)
    (cipher_bin : list nat) (s : Breaker.rounds) :
  Breaker.search RNG shuffle self g fuel ciphertext max_rounds consolidate
  = (Ok (cipher_bin, s), g') →
  (1 ≤ max_rounds ≤ 10000)%Z ∧ (1 ≤ consolidate ≤ 30)%Z
  ∧ cipher_bin = Breaker._text_iterator ciphertext alphabet
  ∧ 4 ≤ length cipher_bin
  ∧ Breaker.break_rounds RNG shuffle self fuel cipher_bin
      (Breaker.build_char_positions alphabet cipher_bin) consolidate
      (seq 0 (Z.to_nat max_rounds))
      (Breaker.mkRounds (seq 0 (length alphabet)) (seq 0 (length alphabet))
         0 0%Z 1%Z None []) g
    = (Ok s, g').
Proof.
  unfold Breaker.search, range. rewrite !Nat.sub_0_r.
  destruct (Z.leb_spec 1 max_rounds), (Z.leb_spec max_rounds 10000); try done.
  destruct (Z.leb_spec 1 consolidate), (Z.leb_spec consolidate 30); try done.
  simpl. case_decide; [done|].
  destruct (Breaker.break_rounds _ _ _ _ _ _ _ _ _ _) as [[s1| |] g1] eqn:Hr;
    try done.
  simpl. intros [= <- <- <-]. repeat split; try done; lia.
Qed.

Lemma search_range_error (g : RNG) (ciphertext : str) (max_rounds consolidate : Z) :
  ¬ (1 ≤ max_rounds ≤ 10000)%Z ∨ ¬ (1 ≤ consolidate ≤ 30)%Z →
  Breaker.search RNG shuffle self g fuel ciphertext max_rounds consolidate
  = (Raise (if decide (1 ≤ max_rounds ≤ 10000)%Z
            then ValueError "consolidate parameter out of valid range 1..30"
            else ValueError "maximum number of rounds not in the valid range 1..10000"),
     g).
Proof.
  intros Hout. unfold Breaker.search.
  destruct (Z.leb_spec 1 max_rounds), (Z.leb_spec max_rounds 10000); simpl;
    try (rewrite decide_False by lia; done).
  rewrite (decide_True (P := (1 ≤ max_rounds ≤ 10000)%Z)) by lia.
  destruct (Z.leb_spec 1 consolidate), (Z.leb_spec consolidate 30); simpl;
    try done. lia.
Qed.

Lemma search_raises (g : RNG) (ciphertext : str) (max_rounds consolidate : Z) :
  (1 ≤ max_rounds ≤ 10000)%Z → (1 ≤ consolidate ≤ 30)%Z →
  raises_only not_range_error
    (Breaker.search RNG shuffle self g fuel ciphertext max_rounds consolidate).1.
Proof.
  intros Hm Hc. unfold Breaker.search.
  destruct (Z.leb_spec 1 max_rounds), (Z.leb_spec max_rounds 10000); try lia.
  destruct (Z.leb_spec 1 consolidate), (Z.leb_spec consolidate 30); try lia.
  simpl. case_decide; [apply raises_only_Raise; other_error|].
  pose proof (break_rounds_raises shuffle self fuel
    (Breaker._text_iterator ciphertext alphabet)
    (Breaker.build_char_positions alphabet (Breaker._text_iterator ciphertext alphabet))
    consolidate (range 0 (Z.to_nat max_rounds))
    (Breaker.mkRounds (range 0 (length alphabet)) (range 0 (length alphabet))
         0 0%Z 1%Z None []) g) as Hr.
  destruct (Breaker.break_rounds _ _ _ _ _ _ _ _ _ _) as [r g1]. simpl in *.
  apply raises_only_bind; [done|]. intros; apply raises_only_Ok.
Qed.

Lemma break_cipher_Ok (g g' : RNG) (seconds : Q) (ciphertext : str)
    (max_rounds consolidate : Z) (result : BreakerResult.t) (self' : Breaker.t) :
  Breaker.break_cipher RNG shuffle self g seconds fuel ciphertext max_rounds consolidate
  = (Ok result, self', g') →
  ∃ cipher_bin s,
    Breaker.search RNG shuffle self g fuel ciphertext max_rounds consolidate
    = (Ok (cipher_bin, s), g')
    ∧ Breaker.r_round_cntr s = Some (BreakerResult.nbr_rounds result)
    ∧ Breaker.r_nbr_keys s = BreakerResult.nbr_keys result.
Proof.
  unfold Breaker.break_cipher.
  destruct (Breaker.search _ _ _ _ _ _ _ _) as [[[cb s]| |] g1]; try done.
  destruct (_ ≫= _) as [[key_str self_key]| |]; try done.
  case_decide; [done|].
  destruct (Breaker.r_round_cntr s) as [r|] eqn:Hr; [|done]. simpl.
  destruct (Qeq_bool seconds 0); [done|].
  intros [= <- <- <-]. by exists cb, s.
Qed.

End break.
Lemma Key_init_raises (key alphabet : str) :
  raises_only not_range_error (Key.__init__ key alphabet).
Proof.
  assert (∀ x y, raises_only not_range_error (maketrans x y)) as Hmk.
  { intros. unfold maketrans. case_decide; [apply raises_only_Ok|].
    apply raises_only_Raise. other_error. }
  unfold Key.__init__.
  apply raises_only_bind.
  { unfold Key.check_alphabet. case_decide; [|apply raises_only_Ok].
    apply raises_only_Raise. other_error. }
  intros a. apply raises_only_bind.
  { unfold Key.check_key.
    repeat (case_decide; [apply raises_only_Raise; other_error|]).
    apply raises_only_Ok. }
  intros k. apply raises_only_bind; [done|]. intros E.
  apply raises_only_bind; [done|]. intros D. apply raises_only_Ok.
Qed.

Section break_cipher.

Context {RNG : Type} (shuffle : RNG → list nat → list nat * RNG).
Context (self : Breaker.t) (fuel : nat).

Local Abbreviation alphabet := (Breaker._alphabet self).

Lemma break_cipher_raises (g : RNG) (seconds : Q) (ciphertext : str)
    (max_rounds consolidate : Z) :
  (1 ≤ max_rounds ≤ 10000)%Z → (1 ≤ consolidate ≤ 30)%Z →
  raises_only not_range_error
    (Breaker.break_cipher RNG shuffle self g seconds fuel ciphertext
       max_rounds consolidate).1.1.
Proof.
  intros Hm Hc. unfold Breaker.break_cipher.
  pose proof (search_raises shuffle self fuel g ciphertext max_rounds
                consolidate Hm Hc) as Hs.
  destruct (Breaker.search _ _ _ _ _ _ _ _) as [[[cb s]|e|] g1]; simpl in *.
  - assert (raises_only not_range_error
              (comprehension (λ x, getitem alphabet x) (Breaker.r_best_key s)
               ≫= λ key_str, Key.__init__ key_str alphabet
               ≫= λ self_key, Ok (key_str, self_key))) as Hk.
    { apply raises_only_bind.
      - apply raises_only_comprehension. intros x.
        apply raises_only_getitem. other_error.
      - intros key_str. apply raises_only_bind; [apply Key_init_raises|].
        intros. apply raises_only_Ok. }
    destruct (_ ≫= _) as [[key_str self_key]|e|]; simpl.
    + case_decide; [apply raises_only_Raise; other_error|].
      apply raises_only_bind.
      { destruct (Breaker.r_round_cntr s); [apply raises_only_Ok|].
        apply raises_only_Raise. other_error. }
      intros r. destruct (Qeq_bool seconds 0); [|apply raises_only_Ok].
      apply raises_only_Raise. other_error.
    + by apply raises_only_Raise, Hk.
    + apply raises_only_OutOfFuel.
  - by apply raises_only_Raise, Hs.
  - apply raises_only_OutOfFuel.
Qed.

Lemma break_cipher_out_of_range (g : RNG) (seconds : Q) (ciphertext : str)
    (max_rounds consolidate : Z) :
  ¬ (1 ≤ max_rounds ≤ 10000)%Z ∨ ¬ (1 ≤ consolidate ≤ 30)%Z →
  Breaker.break_cipher RNG shuffle self g seconds fuel ciphertext max_rounds consolidate
  = (Raise (if decide (1 ≤ max_rounds ≤ 10000)%Z
            then ValueError "consolidate parameter out of valid range 1..30"
            else ValueError "maximum number of rounds not in the valid range 1..10000"),
     self, g).
Proof.
  intros Hout. unfold Breaker.break_cipher.
  by rewrite (search_range_error shuffle self fuel g ciphertext max_rounds
                consolidate Hout).
Qed.

End break_cipher.

(** C4.  [break_cipher] raises one of its two range errors exactly when
    [max_rounds] is outside [1, 10000] or [consolidate] is outside [1, 30].
    It then leaves the breaker and the random generator as they were, and
    what it returns does not depend on the ciphertext: nothing was built
    from it, and no round was run. *)
Theorem break_cipher_range_check {RNG : Type}
    (shuffle : RNG → list nat → list nat * RNG) (self : Breaker.t) (g : RNG)
    (seconds : Q) (fuel : nat) (ciphertext : str) (max_rounds consolidate : Z) :
  let out :=
    Breaker.break_cipher RNG shuffle self g seconds fuel ciphertext
      max_rounds consolidate in
  let out_of_range :=
    ¬ (1 ≤ max_rounds ≤ 10000)%Z ∨ ¬ (1 ≤ consolidate ≤ 30)%Z in
  ((∃ e, out.1.1 = Raise e ∧ range_error e) ↔ out_of_range)
  ∧ (out_of_range →
     out.1.2 = self ∧ out.2 = g
     ∧ ∀ seconds' fuel' ciphertext',
         Breaker.break_cipher RNG shuffle self g seconds' fuel' ciphertext'
           max_rounds consolidate = out).
Proof.
  intros out out_of_range. split; [split|].
  - intros (e & He & Hrange).
    destruct (decide (1 ≤ max_rounds ≤ 10000)%Z) as [Hm|Hm]; [|by left].
    destruct (decide (1 ≤ consolidate ≤ 30)%Z) as [Hc|Hc]; [|by right].
    by destruct (break_cipher_raises shuffle self fuel g seconds ciphertext
                   max_rounds consolidate Hm Hc e He).
  - intros Hout. unfold out.
    rewrite (break_cipher_out_of_range shuffle self fuel g seconds ciphertext
               max_rounds consolidate Hout).
    eexists. split; [done|]. unfold range_error. case_decide; auto.
  - intros Hout. unfold out.
    rewrite (break_cipher_out_of_range shuffle self fuel g seconds ciphertext
               max_rounds consolidate Hout).
    repeat split. intros seconds' fuel' ciphertext'.
    by rewrite (break_cipher_out_of_range shuffle self fuel' g seconds'
                  ciphertext' max_rounds consolidate Hout).
Qed.

Section search_total.

Context {RNG : Type} (shuffle : RNG → list nat → list nat * RNG).
Context (self : Breaker.t) (fuel : nat) (cipher_bin : list nat)
        (consolidate : Z).
Hypothesis shuffle_permutation : ∀ g key, (shuffle g key).1 ≡ₚ key.
Hypothesis self_wf : wf self.
Hypothesis cipher_symbols :
  Forall (λ c, c < length (Breaker._alphabet self)) cipher_bin.
Hypothesis cipher_long : 3 ≤ length cipher_bin.
Hypothesis enough_fuel : climb_fuel (Breaker._quadgrams self) cipher_bin ≤ fuel.

Local Abbreviation n := (length (Breaker._alphabet self)).

(** The loop ends without an exception, and its keys are permutations. *)
Lemma break_rounds_total (round_cntrs : list nat) (s : Breaker.rounds) (g : RNG) :
  Breaker.r_key s ≡ₚ seq 0 n →
  Breaker.r_best_key s ≡ₚ seq 0 n →
  ∃ s' g',
    Breaker.break_rounds RNG shuffle self fuel cipher_bin
      (Breaker.build_char_positions (Breaker._alphabet self) cipher_bin)
      consolidate round_cntrs s g = (Ok s', g')
    ∧ Breaker.r_key s' ≡ₚ seq 0 n
    ∧ Breaker.r_best_key s' ≡ₚ seq 0 n.
Proof.
  revert s g. induction round_cntrs as [|r round_cntrs IH]; intros s g Hk Hb.
  - by exists s, g.
  - rewrite break_rounds_cons.
    destruct (hill_climbing_spec self fuel (shuffle g (Breaker.r_key s)).1
                cipher_bin self_wf cipher_symbols cipher_long)
      as (fitness & nbr & key' & -> & Hk' & _); [|done|].
    { by rewrite shuffle_permutation. }
    pose proof (record_climb_fields consolidate r key' fitness nbr s)
      as (Hkey & Hbest & _).
    destruct (Breaker.record_climb _ _ _ _ _ _) as [s1 stop]. simpl in *.
    assert (Breaker.r_key s1 ≡ₚ seq 0 n) as Hk1 by by rewrite Hkey.
    assert (Breaker.r_best_key s1 ≡ₚ seq 0 n) as Hb1
      by (by destruct Hbest as [-> | ->]).
    destruct stop; [by eexists _, _|by apply IH].
Qed.

End search_total.

(** The end of [break_cipher] on a ciphertext of at least four symbols:
    the search returns, and the outcome depends on the elapsed time, by
    which line 435 divides. *)
Lemma break_cipher_elapsed {RNG : Type}
    (shuffle : RNG → list nat → list nat * RNG) (self : Breaker.t) (g : RNG)
    (seconds : Q) (fuel : nat) (ciphertext : str) (max_rounds consolidate : Z) :
  (1 ≤ max_rounds ≤ 10000)%Z →
  (1 ≤ consolidate ≤ 30)%Z →
  let cipher_bin := Breaker._text_iterator ciphertext (Breaker._alphabet self) in
  4 ≤ length cipher_bin →
  wf self →
  (∀ g key, (shuffle g key).1 ≡ₚ key) →
  climb_fuel (Breaker._quadgrams self) cipher_bin ≤ fuel →
  (¬ (seconds == 0)%Q →
   ∃ result self' g',
     Breaker.break_cipher RNG shuffle self g seconds fuel ciphertext
       max_rounds consolidate = (Ok result, self', g'))
  ∧ ((seconds == 0)%Q →
     ∃ self' g',
       Breaker.break_cipher RNG shuffle self g seconds fuel ciphertext
         max_rounds consolidate = (Raise ZeroDivisionError, self', g')).
Proof.
  intros Hm Hc cipher_bin Hlong Hwf Hshuffle Hfuel.
  unfold Breaker.break_cipher, Breaker.search.
  destruct (Z.leb_spec 1 max_rounds), (Z.leb_spec max_rounds 10000); try lia.
  destruct (Z.leb_spec 1 consolidate), (Z.leb_spec consolidate 30); try lia.
  simpl. fold cipher_bin. rewrite decide_False by lia.
  destruct (break_rounds_total shuffle self fuel cipher_bin consolidate
              Hshuffle Hwf (text_iterator_lt _ _) ltac:(lia) Hfuel
              (range 0 (Z.to_nat max_rounds))
              (Breaker.mkRounds (range 0 (length (Breaker._alphabet self)))
                 (range 0 (length (Breaker._alphabet self))) 0 0%Z 1%Z None []) g)
    as (s & g' & Hrounds & _ & Hbest).
  { unfold range. by rewrite Nat.sub_0_r. }
  { unfold range. by rewrite Nat.sub_0_r. }
  pose proof Hrounds as Hcntr. unfold range in Hcntr.
  apply break_rounds_cntr in Hcntr as (r & Hr & _); [|done|left; lia].
  rewrite Hrounds. simpl.
  destruct (render_key _ _ Hbest) as (key_str & -> & Hperm). simpl.
  destruct (Key_init_Permutation key_str (Breaker._alphabet self)
              (wf_unique self Hwf) Hperm) as (self_key & ->).
  simpl. rewrite decide_False by lia. rewrite Hr. simpl. split.
  - intros Hsec.
    destruct (Qeq_bool seconds 0) eqn:Hq; [by apply Qeq_bool_iff in Hq|].
    by eexists _, _, _.
  - intros Hsec. apply Qeq_bool_iff in Hsec. rewrite Hsec. by eexists _, _.
Qed.


(** ** Trials and keys *)

(** The invariant holds when the climb starts (line 348). *)
Lemma climb_inv_initial (key_len : nat) (key cipher_bin : list nat) :
  key ≡ₚ seq 0 key_len →
  Forall (λ c, c < key_len) cipher_bin →
  ∃ plaintext,
    comprehension (λ idx, index key idx) cipher_bin = Ok plaintext
    ∧ climb_inv key_len cipher_bin (Breaker.mkClimb key plaintext 0 0%Z true).
Proof.
  intros Hperm Hsym.
  destruct (permutation_seq_facts _ _ Hperm) as (_ & _ & _ & Hall).
  destruct (comprehension_Forall2 (λ p c, key !! p = Some c)
              (λ idx, index key idx) cipher_bin) as (pt & Hpt & Hrel).
  { eapply Forall_impl; [exact Hsym|]. intros c Hc. simpl in Hc.
    destruct (Hall c Hc) as (i & Hi). by apply index_Ok, list_elem_of_lookup_2 with i. }
  exists pt. split; [done|]. by split.
Qed.

(** C7.  The invariant of the climb (the key is a permutation, [plaintext]
    is the ciphertext read through the inverse of the key) holds when the
    climb starts, and a trial keeps it.  In a trial from a state that
    satisfies it, [plaintext] is first made the ciphertext read through the
    swapped key and scored as a whole.  The swap is committed to the key
    only when this score is strictly greater than [max_fitness]; otherwise
    (a tie included) the trial returns the key and the plaintext array
    exactly as they were. *)
Theorem trial_commit_or_restore (quadgram : list Z) (alphabet : str)
    (cipher_bin : list nat) :
  length quadgram = Breaker.table_size →
  length alphabet ≤ 32 →
  3 ≤ length cipher_bin →
  Forall (λ c, c < length alphabet) cipher_bin →
  (∀ key,
     key ≡ₚ seq 0 (length alphabet) →
     ∃ plaintext,
       comprehension (λ idx, index key idx) cipher_bin = Ok plaintext
       ∧ climb_inv (length alphabet) cipher_bin
           (Breaker.mkClimb key plaintext 0 0%Z true))
  ∧ (∀ idx1 idx2 s,
       climb_inv (length alphabet) cipher_bin s →
       idx1 < idx2 < length alphabet →
       ∃ plaintext tmp_fitness s',
         Forall2 (λ p c, swap_key (Breaker.c_key s) idx1 idx2 !! p = Some c)
           plaintext cipher_bin
         ∧ Breaker.rescore quadgram plaintext = Ok tmp_fitness
         ∧ Breaker.trial quadgram (Breaker.build_char_positions alphabet cipher_bin)
             idx1 idx2 s = Ok s'
         ∧ Breaker.c_nbr_keys s' = S (Breaker.c_nbr_keys s)
         ∧ ((tmp_fitness > Breaker.c_max_fitness s)%Z →
            Breaker.c_key s' = swap_key (Breaker.c_key s) idx1 idx2
            ∧ Breaker.c_plaintext s' = plaintext
            ∧ Breaker.c_max_fitness s' = tmp_fitness
            ∧ Breaker.c_better_key s' = true)
         ∧ ((tmp_fitness ≤ Breaker.c_max_fitness s)%Z →
            Breaker.c_key s' = Breaker.c_key s
            ∧ Breaker.c_plaintext s' = Breaker.c_plaintext s
            ∧ Breaker.c_max_fitness s' = Breaker.c_max_fitness s
            ∧ Breaker.c_better_key s' = Breaker.c_better_key s)
         ∧ climb_inv (length alphabet) cipher_bin s').
Proof.
  intros Htable Hshort Hlong Hsym. split.
  - intros key Hperm. by apply climb_inv_initial.
  - intros idx1 idx2 s Hinv Hidx.
    destruct (trial_spec quadgram alphabet cipher_bin Htable Hshort Hlong
                idx1 idx2 s Hinv Hidx) as (pt & tmp & Hpt & Htmp & Htrial).
    exists pt, tmp. eexists. split; [done|]. split; [done|]. split; [done|].
    destruct (Z.gtb_spec tmp (Breaker.c_max_fitness s)) as [Hgt|Hle]; simpl.
    + repeat split; try done; try lia.
      simpl. rewrite swap_key_Permutation. apply Hinv.
    + repeat split; try done; try lia; apply Hinv.
Qed.

Lemma setitem_inv {A : Type} (l l' : list A) (i : nat) (v : A) :
  setitem l i v = Ok l' → l' = <[i:=v]> l.
Proof. unfold setitem. case_decide; [by intros [= <-]|done]. Qed.

(** Whatever the state, a trial that returns leaves the key or swaps two
    of its entries. *)
Lemma trial_key (quadgram : list Z) (char_positions : list (list nat))
    (idx1 idx2 : nat) (s s' : Breaker.climb) :
  Breaker.trial quadgram char_positions idx1 idx2 s = Ok s' →
  Breaker.c_key s' = Breaker.c_key s
  ∨ Breaker.c_key s' = swap_key (Breaker.c_key s) idx1 idx2.
Proof.
  unfold Breaker.trial.
  intros (ch1 & Hch1%getitem_Ok & H)%bind_Ok.
  apply bind_Ok in H as (ch2 & Hch2%getitem_Ok & H).
  apply bind_Ok in H as (pos1 & _ & H).
  apply bind_Ok in H as (pt1 & _ & H).
  apply bind_Ok in H as (pos2 & _ & H).
  apply bind_Ok in H as (pt2 & _ & H).
  apply bind_Ok in H as (tmp & _ & H).
  destruct (tmp >? Breaker.c_max_fitness s)%Z.
  - apply bind_Ok in H as (k1 & ->%setitem_inv & H).
    apply bind_Ok in H as (k2 & ->%setitem_inv & [= <-]).
    right. simpl. unfold swap_key. by rewrite Hch1, Hch2.
  - apply bind_Ok in H as (pos1' & _ & H).
    apply bind_Ok in H as (pt3 & _ & H).
    apply bind_Ok in H as (pos2' & _ & H).
    apply bind_Ok in H as (pt4 & _ & [= <-]).
    by left.
Qed.

Lemma for__preserves {A S : Type} (I : S → Prop) (l : list A)
    (body : A → S → res S) (s s' : S) :
  (∀ x s s', I s → body x s = Ok s' → I s') →
  I s → for_ l body s = Ok s' → I s'.
Proof.
  intros Hbody. revert s. induction l as [|x l IH]; intros s Hs.
  - by intros [= <-].
  - rewrite for__cons. intros (s1 & Hs1 & Hrest)%bind_Ok.
    eapply IH; [|done]. by eapply Hbody.
Qed.

Section reachable.

Context {RNG : Type} (shuffle : RNG → list nat → list nat * RNG).
Context (self : Breaker.t) (cipher_bin : list nat).

Local Abbreviation reachable := (key_reachable shuffle self cipher_bin).
Local Abbreviation char_positions :=
  (Breaker.build_char_positions (Breaker._alphabet self) cipher_bin).

Lemma key_reachable_Permutation (key : list nat) :
  (∀ g key, (shuffle g key).1 ≡ₚ key) →
  reachable key → key ≡ₚ seq 0 (length (Breaker._alphabet self)).
Proof.
  intros Hshuffle. induction 1 as [|g key _ IH|idx1 idx2 s s' _ IH Htrial].
  - unfold range. by rewrite Nat.sub_0_r.
  - by rewrite Hshuffle.
  - apply trial_key in Htrial as [-> | ->]; [done|].
    by rewrite swap_key_Permutation.
Qed.

Lemma hill_climbing_reachable (fuel : nat) (key key' : list nat)
    (fitness : Z) (nbr_keys : nat) :
  reachable key →
  Breaker._hill_climbing self fuel key cipher_bin char_positions
  = Ok (fitness, nbr_keys, key') →
  reachable key'.
Proof.
  intros Hkey. unfold Breaker._hill_climbing.
  intros (pt & _ & H)%bind_Ok.
  apply bind_Ok in H as (s' & Hwhile & [= _ _ <-]).
  revert Hwhile.
  assert (reachable (Breaker.c_key (Breaker.mkClimb key pt 0 0%Z true)))
    as Hs by done.
  revert Hs. generalize (Breaker.mkClimb key pt 0 0%Z true).
  induction fuel as [|fuel IH]; intros s Hs; simpl; [done|].
  destruct (Breaker.c_better_key s); [|by intros [= <-]].
  intros (s1 & Hpass & Hrest)%bind_Ok. eapply IH; [|done].
  unfold Breaker.pass in Hpass. revert Hpass.
  apply (for__preserves (λ s, reachable (Breaker.c_key s))); [|done].
  intros idx1 s2 s3 Hs2.
  apply (for__preserves (λ s, reachable (Breaker.c_key s))); [|done].
  intros idx2 s4 s5 Hs4 Htrial. by eapply reach_trial.
Qed.

Lemma break_rounds_reachable (fuel : nat) (consolidate : Z)
    (round_cntrs : list nat) (s s' : Breaker.rounds) (g g' : RNG) :
  reachable (Breaker.r_key s) →
  reachable (Breaker.r_best_key s) →
  Breaker.break_rounds RNG shuffle self fuel cipher_bin char_positions
    consolidate round_cntrs s g = (Ok s', g') →
  reachable (Breaker.r_key s') ∧ reachable (Breaker.r_best_key s').
Proof.
  revert s g. induction round_cntrs as [|r round_cntrs IH]; intros s g Hk Hb.
  - by intros [= <- <-].
  - rewrite break_rounds_cons.
    destruct (Breaker._hill_climbing _ _ _ _ _) as [[[fitness nbr] key']| |]
      eqn:Hclimb; try done.
    apply hill_climbing_reachable in Hclimb; [|by apply reach_shuffle].
    pose proof (record_climb_fields consolidate r key' fitness nbr s)
      as (Hkey & Hbest & _).
    destruct (Breaker.record_climb _ _ _ _ _ _) as [s1 stop]. simpl in *.
    assert (reachable (Breaker.r_key s1)) as Hk1 by by rewrite Hkey.
    assert (reachable (Breaker.r_best_key s1)) as Hb1
      by (by destruct Hbest as [-> | ->]).
    destruct stop; [by intros [= <- <-]|by apply IH].
Qed.

End reachable.

(** C8.  Every key that [break_cipher] and the hill climber hold between
    two trials (the initial key, the key after a shuffle, the key after a
    trial) is a permutation of the alphabet indices [0 .. len-1]: each of
    them occurs exactly once.  In particular so are the key and the best
    key with which the search ends.  [random.shuffle] is taken to permute
    its argument. *)
Theorem key_always_permutation {RNG : Type}
    (shuffle : RNG → list nat → list nat * RNG) (self : Breaker.t) :
  (∀ g key, (shuffle g key).1 ≡ₚ key) →
  let n := length (Breaker._alphabet self) in
  (∀ cipher_bin key,
     key_reachable shuffle self cipher_bin key →
     key ≡ₚ seq 0 n ∧ NoDup key ∧ ∀ v, v ∈ key ↔ v < n)
  ∧ (∀ g fuel ciphertext max_rounds consolidate cipher_bin s g',
       Breaker.search RNG shuffle self g fuel ciphertext max_rounds consolidate
       = (Ok (cipher_bin, s), g') →
       Breaker.r_key s ≡ₚ seq 0 n ∧ Breaker.r_best_key s ≡ₚ seq 0 n).
Proof.
  intros Hshuffle n. split.
  - intros cipher_bin key Hkey.
    apply (key_reachable_Permutation shuffle self cipher_bin key Hshuffle) in Hkey.
    split; [done|]. split; [rewrite Hkey; apply NoDup_seq|].
    intros v. rewrite Hkey, elem_of_seq. lia.
  - intros g fuel ciphertext max_rounds consolidate cipher_bin s g' Hsearch.
    apply search_Ok in Hsearch as (_ & _ & _ & _ & Hrounds).
    apply (break_rounds_reachable shuffle self cipher_bin) in Hrounds
      as [Hk Hb].
    + split; by eapply key_reachable_Permutation.
    + simpl. pose proof (reach_init shuffle self cipher_bin) as Hinit.
      unfold range in Hinit. by rewrite Nat.sub_0_r in Hinit.
    + simpl. pose proof (reach_init shuffle self cipher_bin) as Hinit.
      unfold range in Hinit. by rewrite Nat.sub_0_r in Hinit.
Qed.

(** ** A small breaker, on which the statements are run *)

Lemma toy_wf : wf toy.
Proof.
  split; simpl.
  - reflexivity.
  - repeat constructor; set_solver.
  - lia.
  - reflexivity.
  - apply length_replicate.
Defined.

Lemma reverse_shuffle_permutation (g : unit) (key : list nat) :
  (reverse_shuffle g key).1 ≡ₚ key.
Proof. apply reverse_Permutation. Defined.




Lemma trial_commit_or_restore_witness :
  ∃ plaintext tmp_fitness s',
    Forall2 (λ p c, swap_key [0; 1; 2; 3] 0 1 !! p = Some c) plaintext [0; 1; 2; 3]
    ∧ Breaker.rescore (Breaker._quadgrams toy) plaintext = Ok tmp_fitness
    ∧ Breaker.trial (Breaker._quadgrams toy)
        (Breaker.build_char_positions (str_of "abcd") [0; 1; 2; 3]) 0 1
        (Breaker.mkClimb [0; 1; 2; 3] [0; 1; 2; 3] 0 0%Z false) = Ok s'
    ∧ Breaker.c_nbr_keys s' = 1
    ∧ ((tmp_fitness > 0)%Z →
       Breaker.c_key s' = swap_key [0; 1; 2; 3] 0 1
       ∧ Breaker.c_plaintext s' = plaintext
       ∧ Breaker.c_max_fitness s' = tmp_fitness
       ∧ Breaker.c_better_key s' = true)
    ∧ ((tmp_fitness ≤ 0)%Z →
       Breaker.c_key s' = [0; 1; 2; 3]
       ∧ Breaker.c_plaintext s' = [0; 1; 2; 3]
       ∧ Breaker.c_max_fitness s' = 0%Z
       ∧ Breaker.c_better_key s' = false)
    ∧ climb_inv 4 [0; 1; 2; 3] s'.
Proof.
  refine (proj2 (trial_commit_or_restore (Breaker._quadgrams toy) (str_of "abcd")
                   [0; 1; 2; 3] _ _ _ _) 0 1
            (Breaker.mkClimb [0; 1; 2; 3] [0; 1; 2; 3] 0 0%Z false) _ _).
  - apply length_replicate.
  - simpl. lia.
  - simpl. lia.
  - repeat constructor.
  - split; simpl; [reflexivity|repeat constructor].
  - simpl. lia.
Defined.

Lemma key_always_permutation_witness :
  (reverse_shuffle tt (range 0 4)).1 ≡ₚ seq 0 4.
Proof.
  refine (proj1 (proj1 (key_always_permutation reverse_shuffle toy
            reverse_shuffle_permutation) [0; 1; 2; 3]
            (reverse_shuffle tt (range 0 4)).1 _)).
  apply reach_shuffle. apply (reach_init reverse_shuffle toy [0; 1; 2; 3]).
Defined.

(** ** Where the code departs from its documentation *)

Lemma record_climb_spec (consolidate : Z) (round_cntr : nat) (key : list nat)
    (fitness : Z) (tmp_nbr_keys : nat) (s : Breaker.rounds) :
  let out := Breaker.record_climb consolidate round_cntr key fitness tmp_nbr_keys s in
  ((fitness > Breaker.r_local_maximum s)%Z →
   Breaker.r_local_maximum out.1 = fitness
   ∧ Breaker.r_local_maximum_hit out.1 = 1%Z
   ∧ Breaker.r_best_key out.1 = key ∧ out.2 = false)
  ∧ (fitness = Breaker.r_local_maximum s →
     Breaker.r_local_maximum out.1 = Breaker.r_local_maximum s
     ∧ Breaker.r_local_maximum_hit out.1 = (Breaker.r_local_maximum_hit s + 1)%Z
     ∧ Breaker.r_best_key out.1 = Breaker.r_best_key s
     ∧ (out.2 = true ↔ (Breaker.r_local_maximum_hit s + 1)%Z = consolidate))
  ∧ ((fitness < Breaker.r_local_maximum s)%Z →
     Breaker.r_local_maximum out.1 = Breaker.r_local_maximum s
     ∧ Breaker.r_local_maximum_hit out.1 = Breaker.r_local_maximum_hit s
     ∧ Breaker.r_best_key out.1 = Breaker.r_best_key s ∧ out.2 = false).
Proof.
  unfold Breaker.record_climb.
  destruct (Z.gtb_spec fitness (Breaker.r_local_maximum s)),
           (Z.eqb_spec fitness (Breaker.r_local_maximum s)); simpl;
    repeat split; try done; try lia.
Qed.

(** With [consolidate = 1] every round of the budget is run. *)
Lemma consolidate_1_runs_all_rounds {RNG : Type}
    (shuffle : RNG → list nat → list nat * RNG) (self : Breaker.t) (g g' : RNG)
    (fuel : nat) (ciphertext : str) (max_rounds : Z) (cipher_bin : list nat)
    (s : Breaker.rounds) :
  Breaker.search RNG shuffle self g fuel ciphertext max_rounds 1
  = (Ok (cipher_bin, s), g') →
  length (Breaker.r_climbs s) = Z.to_nat max_rounds.
Proof.
  intros (_ & _ & _ & _ & Hrounds)%search_Ok.
  apply break_rounds_consolidate_1 in Hrounds; [|done|simpl; lia].
  by rewrite Hrounds, length_seq.
Qed.

(** [nbr_rounds] is one less than the number of climbs performed. *)
Lemma nbr_rounds_one_less {RNG : Type}
    (shuffle : RNG → list nat → list nat * RNG) (self self' : Breaker.t)
    (g g' : RNG) (seconds : Q) (fuel : nat) (ciphertext : str)
    (max_rounds consolidate : Z) (result : BreakerResult.t) :
  Breaker.break_cipher RNG shuffle self g seconds fuel ciphertext max_rounds consolidate
  = (Ok result, self', g') →
  ∃ cipher_bin s,
    Breaker.search RNG shuffle self g fuel ciphertext max_rounds consolidate
    = (Ok (cipher_bin, s), g')
    ∧ length (Breaker.r_climbs s) = S (BreakerResult.nbr_rounds result).
Proof.
  intros (cb & s & Hsearch & Hr & _)%break_cipher_Ok.
  exists cb, s. split; [done|].
  apply search_Ok in Hsearch as (Hm & _ & _ & _ & Hrounds).
  apply break_rounds_cntr in Hrounds as (r & Hr' & Hlen); [|done|left; lia].
  congruence.
Qed.

(** C1, at [consolidate = 1] and [max_rounds = 3]: the three climbs end
    on the same score 1, the hit counter reaches 3, and the search stops at
    none of them. *)
Theorem consolidate_1_never_stops :
  ('(_, s) ← (Breaker.search unit reverse_shuffle toy tt 5 (str_of "abcd") 3 1).1;
   Ok (Breaker.r_climbs s, Breaker.r_local_maximum_hit s))
  = Ok ([(1%Z, 12); (1%Z, 12); (1%Z, 12)], 3%Z).
Proof. vm_compute. reflexivity. Qed.

(** C2, at [max_rounds = 1]: one climb is performed and [nbr_rounds]
    is 0. *)
Theorem nbr_rounds_off_by_one :
  (result ← (Breaker.break_cipher unit reverse_shuffle toy tt 1 5
               (str_of "abcd") 1 3).1.1;
   Ok (BreakerResult.nbr_rounds result))
  = Ok 0
  ∧ ('(_, s) ← (Breaker.search unit reverse_shuffle toy tt 5 (str_of "abcd") 1 3).1;
     Ok (length (Breaker.r_climbs s)))
    = Ok 1.
Proof. vm_compute. split; reflexivity. Qed.

(** ** The table that [generate_quadgrams] builds *)

Lemma field_eq (k : nat) (code : Z) :
  field k code = ((code / 32 ^ Z.of_nat k) mod 32)%Z.
Proof.
  unfold field. change 0x1F%Z with (Z.ones 5).
  rewrite Z.land_ones, Z.shiftr_div_pow2 by lia.
  rewrite Z.pow_mul_r by lia. reflexivity.
Qed.

Lemma reachable_pack (n : nat) (a b c d : Z) :
  n ≤ 32 →
  (0 ≤ a < Z.of_nat n)%Z → (0 ≤ b < Z.of_nat n)%Z →
  (0 ≤ c < Z.of_nat n)%Z → (0 ≤ d < Z.of_nat n)%Z →
  reachable_code n (((a * 32 + b) * 32 + c) * 32 + d).
Proof.
  intros Hn Ha Hb Hc Hd k Hk. rewrite field_eq.
  destruct k as [|[|[|[|k]]]]; try lia; simpl Z.of_nat.
  - change (32 ^ 0)%Z with 1%Z. rewrite Z.div_1_r.
    Z.div_mod_to_equations. lia.
  - change (32 ^ 1)%Z with 32%Z. Z.div_mod_to_equations. lia.
  - change (32 ^ 2)%Z with 1024%Z. Z.div_mod_to_equations. lia.
  - change (32 ^ 3)%Z with 32768%Z. Z.div_mod_to_equations. lia.
Qed.

Lemma reachable_zero (n : nat) : 0 < n → reachable_code n 0.
Proof.
  intros Hn k Hk. rewrite field_eq, Zdiv_0_l, Zmod_0_l. lia.
Qed.

(** [sum] *)
Lemma foldl_add (a : Z) (l : list Z) :
  foldl Z.add a l = (a + foldl Z.add 0 l)%Z.
Proof.
  revert a. induction l as [|x l IH]; intros a; simpl; [lia|].
  rewrite (IH (a + x)%Z), (IH (0 + x)%Z). lia.
Qed.

Lemma py_sum_cons (x : Z) (l : list Z) : py_sum (x :: l) = (x + py_sum l)%Z.
Proof. unfold py_sum. simpl. apply foldl_add. Qed.

Lemma py_sum_insert (l : list Z) (i : nat) (old v : Z) :
  l !! i = Some old → py_sum (<[i:=v]> l) = (py_sum l - old + v)%Z.
Proof.
  revert i. induction l as [|x l IH]; intros [|i]; simpl; try done.
  - intros [= ->]. rewrite !py_sum_cons. lia.
  - intros Hi. rewrite !py_sum_cons, (IH i Hi). lia.
Qed.

Lemma py_sum_replicate_0 (k : nat) : py_sum (replicate k 0%Z) = 0%Z.
Proof. induction k as [|k IH]; [done|]. simpl. by rewrite py_sum_cons, IH. Qed.

Lemma py_sum_pos_elem (l : list Z) :
  Forall (λ v, (0 ≤ v)%Z) l → (0 < py_sum l)%Z → ∃ v, v ∈ l ∧ (0 < v)%Z.
Proof.
  induction 1 as [|x l Hx _ IH]; [unfold py_sum; simpl; lia|].
  rewrite py_sum_cons. intros Hs.
  destruct (decide (0 < x)%Z) as [Hpos|Hnot].
  - exists x. split; [by left|done].
  - destruct IH as (v & Hv & Hpos); [lia|]. exists v. split; [by right|done].
Qed.

Lemma count_step_inv (n c : nat) (st : Z * list Z) :
  n ≤ 32 → c < n → count_inv n st →
  ∃ st', Breaker.count_step c st = Ok st' ∧ count_inv n st'
         ∧ py_sum st'.2 = (py_sum st.2 + 1)%Z.
Proof.
  intros Hn Hc (Hlen & (a & b & c0 & Ha & Hb & Hc0 & Hq) & Hcounts).
  destruct st as [q t]. simpl in Hlen, Hq, Hcounts.
  destruct (count_step_Ok c q t ltac:(lia) Hlen) as (old & Hold & Hstep).
  eexists. split; [exact Hstep|]. unfold count_inv. simpl.
  pose proof (quad_next_range q c ltac:(lia)) as Hrange.
  assert (Breaker.quad_next q c = ((a * 32 + b) * 32 + c0) * 32 + Z.of_nat c)%Z
    as Hcode by (rewrite quad_next_eq, Hq; done).
  split; [|by rewrite (py_sum_insert _ _ _ _ Hold); lia].
  split; [by rewrite length_insert|]. split.
  - exists b, c0, (Z.of_nat c). repeat split; try lia.
    rewrite Hcode. Z.div_mod_to_equations. lia.
  - intros i v Hv.
    destruct (decide (i = Z.to_nat (Breaker.quad_next q c))) as [->|Hne].
    + rewrite list_lookup_insert_eq in Hv by (pose proof table_size_eq; lia).
      injection Hv as <-. destruct (Hcounts _ _ Hold) as [Hpos _].
      split; [lia|]. intros _. rewrite Z2Nat.id, Hcode by lia.
      apply reachable_pack; lia.
    + rewrite list_lookup_insert_ne in Hv by done. by apply Hcounts.
Qed.

Lemma count_quadgrams_inv (n : nat) (iterator : list nat) (st : Z * list Z) :
  n ≤ 32 → Forall (λ c, c < n) iterator → count_inv n st →
  ∃ st', for_ iterator Breaker.count_step st = Ok st' ∧ count_inv n st'
         ∧ py_sum st'.2 = (py_sum st.2 + Z.of_nat (length iterator))%Z.
Proof.
  intros Hn Hit. revert st. induction Hit as [|c iterator Hc _ IH]; intros st Hst.
  - exists st. split; [done|]. split; [done|]. simpl length. lia.
  - destruct (count_step_inv n c st Hn Hc Hst) as (st1 & Hstep & Hst1 & Hsum1).
    destruct (IH st1 Hst1) as (st' & Hfor & Hst' & Hsum').
    exists st'. rewrite for__cons, Hstep. simpl. split; [done|]. split; [done|].
    rewrite Hsum', Hsum1. simpl length. lia.
Qed.

Lemma quadgram_min_spec (l : list Z) (m0 : Z) :
  Forall (λ v, (0 ≤ v)%Z) l → (1 ≤ m0)%Z →
  let m := foldl (λ quadgram_min val,
                    if decide (val ≠ 0%Z) then Z.min quadgram_min val
                    else quadgram_min) m0 l in
  (1 ≤ m ≤ m0)%Z ∧ ∀ v, v ∈ l → v ≠ 0%Z → (m ≤ v)%Z.
Proof.
  intros Hl. revert m0. induction Hl as [|x l Hx _ IH]; intros m0 Hm0; simpl.
  - split; [lia|]. by intros v ?%elem_of_nil.
  - case_decide as Hx0.
    + destruct (IH (Z.min m0 x) ltac:(lia)) as [Hm Hle].
      split; [lia|]. intros v [->|Hv]%elem_of_cons Hv0; [lia|by apply Hle].
    + destruct (IH m0 Hm0) as [Hm Hle].
      split; [lia|]. intros v [->|Hv]%elem_of_cons Hv0; [done|by apply Hle].
Qed.

Lemma foldl_max_spec (l : list Z) (x : Z) :
  let m := foldl Z.max x l in
  (m = x ∨ m ∈ l) ∧ (x ≤ m)%Z ∧ ∀ v, v ∈ l → (v ≤ m)%Z.
Proof.
  revert x. induction l as [|y l IH]; intros x; simpl.
  - split; [by left|]. split; [lia|]. by intros v ?%elem_of_nil.
  - destruct (IH (Z.max x y)) as (Hin & Hle & Hall).
    split; [|split; [lia|]].
    + destruct Hin as [Heq|Hin]; [|right; by right].
      destruct (Z.max_spec x y) as [[_ Hmax]|[_ Hmax]]; rewrite Hmax in *.
      * right. rewrite Heq. by left.
      * by left.
    + intros v [->|Hv]%elem_of_cons; [lia|by apply Hall].
Qed.

Lemma py_max_spec (l : list Z) :
  l ≠ [] → ∃ m, py_max l = Ok m ∧ m ∈ l ∧ ∀ v, v ∈ l → (v ≤ m)%Z.
Proof.
  destruct l as [|x l]; [done|]. intros _. simpl.
  destruct (foldl_max_spec l x) as (Hin & Hle & Hall).
  eexists. split; [done|]. split.
  - destruct Hin as [-> |Hin]; [by left|by right].
  - intros v [->|Hv]%elem_of_cons; [done|by apply Hall].
Qed.

Lemma index_head {A : Type} `{EqDecision A} (l : list A) (x : A) :
  l !! 0 = Some x → index l x = Ok 0.
Proof.
  destruct l as [|y l]; [done|]. intros [= ->]. simpl. by rewrite decide_True.
Qed.

(** [round] *)
Lemma py_round_zero (x : Q) : (x == 0)%Q → py_round x = 0%Z.
Proof.
  intros Hx. unfold py_round.
  assert (Qfloor x = 0%Z) as -> by (by rewrite Hx).
  assert (x - inject_Z 0 == 0)%Q as -> by (rewrite Hx; reflexivity).
  reflexivity.
Qed.

Lemma py_round_nonneg (x : Q) : (0 <= x)%Q → (0 ≤ py_round x)%Z.
Proof.
  intros Hx. unfold py_round.
  pose proof (Qfloor_resp_le 0 x Hx) as Hf. change (Qfloor 0) with 0%Z in Hf.
  destruct (_ ?= _)%Q; [destruct (Z.even _)|..]; lia.
Qed.

Lemma field_succ (k : nat) (code : Z) :
  field (S k) code = field k (Z.shiftr code 5).
Proof.
  unfold field. rewrite Z.shiftr_shiftr by lia. do 2 f_equal. lia.
Qed.

Lemma field_0 (code : Z) : field 0 code = Z.land code 0x1F.
Proof. unfold field. simpl. by rewrite Z.shiftr_0_r. Qed.

(** The four characters of a reachable code. *)
Lemma decode_reachable (alphabet : str) (max_idx : nat) :
  reachable_code (length alphabet) (Z.of_nat max_idx) →
  ∃ r, Breaker.quadgram_chars alphabet max_idx = Ok r.
Proof.
  unfold Breaker.quadgram_chars. generalize (Z.of_nat max_idx). intros code.
  intros Hreach.
  assert (∀ k, k < 4 → ∃ char,
            getitemZ alphabet (field k code) = Ok char) as Hchar.
  { intros k Hk. pose proof (Hreach k Hk) as Hlt.
    assert (0 ≤ field k code)%Z as Hpos.
    { rewrite field_eq. apply Z.mod_pos_bound. lia. }
    rewrite getitemZ_nonneg by done.
    destruct (getitem_lt alphabet (Z.to_nat (field k code)) ltac:(lia))
      as (char & -> & _). by eexists. }
  unfold range. simpl seq. rewrite !for__cons. simpl for_.
  destruct (Hchar 0 ltac:(lia)) as (ch0 & H0).
  destruct (Hchar 1 ltac:(lia)) as (ch1 & H1).
  destruct (Hchar 2 ltac:(lia)) as (ch2 & H2).
  destruct (Hchar 3 ltac:(lia)) as (ch3 & H3).
  repeat rewrite field_succ in H1. repeat rewrite field_succ in H2.
  repeat rewrite field_succ in H3. rewrite field_0 in H0, H1, H2, H3.
  rewrite H0. simpl. rewrite H1. simpl. rewrite H2. simpl. rewrite H3. simpl.
  by eexists.
Qed.

Lemma inject_Z_pos (z : Z) : (0 < z)%Z → (0 < inject_Z z)%Q.
Proof. intros Hz. change 0%Q with (inject_Z 0). by rewrite <- Zlt_Qlt. Qed.

Lemma prop_positive (val quadgram_sum : Z) :
  (0 < val)%Z → (0 < quadgram_sum)%Z →
  (0 < inject_Z val / inject_Z quadgram_sum)%Q.
Proof.
  intros Hv Hs. apply Qlt_shift_div_l; [by apply inject_Z_pos|].
  rewrite Qmult_0_l. by apply inject_Z_pos.
Qed.

Lemma floor_below_prop (quadgram_min val quadgram_sum : Z) :
  (1 ≤ quadgram_min ≤ val)%Z → (0 < quadgram_sum)%Z →
  (0 < inject_Z quadgram_min / 10 / inject_Z quadgram_sum)%Q
  ∧ (10 * (inject_Z quadgram_min / 10 / inject_Z quadgram_sum)
     <= inject_Z val / inject_Z quadgram_sum)%Q.
Proof.
  intros Hm Hs.
  pose proof (inject_Z_pos quadgram_sum Hs) as HsQ.
  pose proof (inject_Z_pos quadgram_min ltac:(lia)) as HmQ.
  assert (inject_Z quadgram_min <= inject_Z val)%Q as Hle
    by (rewrite <- Zle_Qle; lia).
  assert (¬ (inject_Z quadgram_sum == 0)%Q) as Hne.
  { intros Hz. rewrite Hz in HsQ. by apply Qlt_irrefl in HsQ. }
  split.
  - apply Qlt_shift_div_l; [done|]. rewrite Qmult_0_l.
    apply Qlt_shift_div_l; [reflexivity|]. by rewrite Qmult_0_l.
  - assert (10 * (inject_Z quadgram_min / 10 / inject_Z quadgram_sum)
            == inject_Z quadgram_min / inject_Z quadgram_sum)%Q as ->
      by (by field).
    apply Qle_shift_div_l; [done|].
    assert (inject_Z quadgram_min / inject_Z quadgram_sum * inject_Z quadgram_sum
            == inject_Z quadgram_min)%Q as ->; [by field|done].
Qed.

Section log_scores.

Context (ln : Q → Q).
Hypothesis ln_increasing : ∀ x y, (0 < x)%Q → (10 * x <= y)%Q → (ln x < ln y)%Q.

Context (quadgram_sum quadgram_min : Z).
Hypothesis sum_positive : (0 < quadgram_sum)%Z.
Hypothesis min_positive : (1 ≤ quadgram_min)%Z.

Local Abbreviation offset :=
  (ln (inject_Z quadgram_min / 10 / inject_Z quadgram_sum)).

Lemma log_scores_spec (quadgrams : list Z) (norm0 : Q) :
  Forall (λ v, (0 ≤ v)%Z ∧ (v ≠ 0%Z → (quadgram_min ≤ v)%Z)) quadgrams →
  (0 <= norm0)%Q →
  ∃ logs norm,
    Breaker.log_scores ln quadgram_sum offset quadgrams norm0 = Ok (logs, norm)
    ∧ (norm0 <= norm)%Q
    ∧ ((∃ v, v ∈ quadgrams ∧ v ≠ 0%Z) → (norm0 < norm)%Q)
    ∧ Forall2 (λ v lg, (0 <= lg)%Q ∧ (v = 0%Z → lg = inject_Z 0)) quadgrams logs.
Proof.
  intros Hq. revert norm0.
  induction Hq as [|val quadgrams [Hval Hmin] _ IH]; intros norm0 Hnorm0.
  - exists [], norm0. simpl. split; [done|]. split; [apply Qle_refl|].
    split; [|constructor]. by intros (v & ?%elem_of_nil & _).
  - simpl. case_decide as Hv0.
    + specialize (Hmin Hv0).
      pose proof (prop_positive val quadgram_sum ltac:(lia) sum_positive) as Hprop.
      destruct (floor_below_prop quadgram_min val quadgram_sum
                  ltac:(lia) sum_positive) as [Hfloor Hten].
      pose proof (ln_increasing _ _ Hfloor Hten) as Hln.
      unfold Breaker.math_log.
      destruct (Qle_bool _ 0) eqn:Hle.
      { apply Qle_bool_iff in Hle. by apply Qle_not_lt in Hle. }
      simpl.
      set (prop := (inject_Z val / inject_Z quadgram_sum)%Q) in *.
      set (new_val := (ln prop - offset)%Q).
      assert (0 < new_val)%Q as Hnew by (unfold new_val; lra).
      assert (0 < prop * new_val)%Q as Hterm.
      { rewrite <- (Qmult_0_l new_val). by apply Qmult_lt_compat_r. }
      destruct (IH (norm0 + prop * new_val)%Q ltac:(lra))
        as (logs & norm & -> & Hle' & _ & Hlogs).
      simpl. exists (new_val :: logs), norm.
      split; [done|]. split; [lra|]. split; [intros _; lra|].
      constructor; [|done]. split; [lra|done].
    + destruct (IH norm0 Hnorm0) as (logs & norm & -> & Hle' & Hlt & Hlogs).
      simpl. exists (inject_Z 0 :: logs), norm.
      split; [done|]. split; [done|]. split.
      * intros (v & [->|Hv]%elem_of_cons & Hne); [done|]. apply Hlt. by exists v.
      * constructor; [|done]. split; [apply Qle_refl|done].
Qed.

End log_scores.

Lemma lower_idemp (s : str) : lower (lower s) = lower s.
Proof.
  unfold lower. rewrite <- list_fmap_compose. apply list_fmap_ext.
  intros _ c _. apply char_lower_idemp.
Qed.

Lemma file_iterator_lower (corpus_fh : list str) (alphabet : str) :
  Breaker._file_iterator corpus_fh (lower alphabet)
  = Breaker._file_iterator corpus_fh alphabet.
Proof. unfold Breaker._file_iterator, Breaker.trans. by rewrite lower_idemp. Qed.

Lemma table_size_pow : Z.of_nat Breaker.table_size = (32 ^ 4)%Z.
Proof. by rewrite table_size_eq. Qed.

(** C9.  For an alphabet of at most 32 unique symbols and a corpus whose
    projection has at least one quadgram (4 symbols), [generate_quadgrams]
    returns a model whose table has 32^4 entries, and every entry whose
    code has a 5-bit field that is not below the alphabet length is 0.
    [ln], the logarithm of [math.log], is taken to give a larger value at
    an argument ten times larger. *)
Theorem generate_quadgrams_table (ln : Q → Q) (corpus_fh : list str)
    (alphabet : str) :
  (∀ x y, (0 < x)%Q → (10 * x <= y)%Q → (ln x < ln y)%Q) →
  is_ascii alphabet = true →
  Forall (λ line, is_ascii line = true) corpus_fh →
  NoDup (lower alphabet) →
  length alphabet ≤ 32 →
  4 ≤ length (Breaker._file_iterator corpus_fh alphabet) →
  ∃ obj,
    Breaker.generate_quadgrams ln corpus_fh alphabet = Ok obj
    ∧ Z.of_nat (length (QuadgramFile.quadgrams obj)) = (32 ^ 4)%Z
    ∧ ∀ code k,
        (Z.of_nat code < 32 ^ 4)%Z → k < 4 →
        (Z.of_nat (length alphabet) ≤ field k (Z.of_nat code))%Z →
        QuadgramFile.quadgrams obj !! code = Some 0%Z.
Proof.
  intros Hln _ _ Hnd Hshort Hlong. unfold Breaker.generate_quadgrams.
  assert (Key.check_alphabet alphabet = Ok (lower alphabet)) as ->.
  { unfold Key.check_alphabet. rewrite decide_False; [done|].
    unfold set. rewrite size_list_to_set by done. lia. }
  simpl. rewrite decide_False by (rewrite length_lower; lia).
  rewrite file_iterator_lower.
  pose proof (file_iterator_lt corpus_fh alphabet) as Hsym.
  destruct (Breaker._file_iterator corpus_fh alphabet)
    as [|c0 [|c1 [|c2 iterator]]]; simpl in Hlong; try lia.
  apply Forall_cons_1 in Hsym as [Hc0 Hsym].
  apply Forall_cons_1 in Hsym as [Hc1 Hsym].
  apply Forall_cons_1 in Hsym as [Hc2 Hsym].
  set (n := length alphabet) in *.
  (* the counts *)
  unfold Breaker.count_quadgrams.
  edestruct (count_quadgrams_inv n iterator) as ([q counts] & -> & Hinv & Hsum);
    [done|done| |].
  { split; [apply length_replicate|]. split.
    - exists (Z.of_nat c0), (Z.of_nat c1), (Z.of_nat c2). simpl.
      rewrite !Z.shiftl_mul_pow2 by lia. change (2 ^ 5)%Z with 32%Z.
      repeat split; try lia. apply Z.mod_small. nia.
    - intros i v [-> _]%lookup_replicate. by split. }
  simpl in Hsum. rewrite py_sum_replicate_0 in Hsum.
  destruct Hinv as (Hlen & _ & Hcounts). simpl in Hlen, Hcounts.
  simpl. rewrite length_lower. fold n.
  assert (0 < py_sum counts)%Z as Hsumpos by lia.
  rewrite decide_False by lia.
  assert (Forall (λ v, (0 ≤ v)%Z) counts) as Hnonneg.
  { apply Forall_lookup. intros i v Hv. by apply (Hcounts i v). }
  destruct (quadgram_min_spec counts 10000000 Hnonneg ltac:(lia)) as [Hmin Hminle].
  set (quadgram_min := foldl _ 10000000%Z counts) in *.
  (* the logarithms *)
  unfold Breaker.math_log at 1.
  destruct (floor_below_prop quadgram_min quadgram_min (py_sum counts)
              ltac:(lia) Hsumpos) as [Hfloor _].
  destruct (Qle_bool _ 0) eqn:Hle.
  { apply Qle_bool_iff in Hle. by apply Qle_not_lt in Hle. }
  simpl.
  destruct (log_scores_spec ln Hln (py_sum counts) quadgram_min Hsumpos
              ltac:(lia) counts 0%Q) as (logs & norm & -> & _ & Hnorm & Hlogs).
  { apply Forall_lookup. intros i v Hv. split; [by apply (Hcounts i v)|].
    intros Hv0. apply Hminle; [|done]. by eapply list_elem_of_lookup_2. }
  { apply Qle_refl. }
  assert (0 < norm)%Q as Hnormpos.
  { apply Hnorm. destruct (py_sum_pos_elem counts Hnonneg Hsumpos) as (v & Hv & Hpos).
    exists v. split; [done|lia]. }
  simpl.
  (* the scores *)
  set (score := λ val : Q, py_round (val / norm * 1000)%Q).
  rewrite (comprehension_fmap _ score).
  2:{ apply Forall_true. intros val.
      destruct (Qeq_bool norm 0) eqn:Hq; [|done].
      apply Qeq_bool_iff in Hq. rewrite Hq in Hnormpos.
      by apply Qlt_irrefl in Hnormpos. }
  simpl.
  assert (length (score <$> logs) = Breaker.table_size) as Hlenscores.
  { by rewrite length_fmap, <- (Forall2_length _ _ _ Hlogs). }
  assert (∀ i s, (score <$> logs) !! i = Some s →
            (0 ≤ s)%Z ∧ (s ≠ 0%Z → reachable_code n (Z.of_nat i))) as Hscores.
  { intros i s Hs. rewrite list_lookup_fmap in Hs.
    destruct (logs !! i) as [lg|] eqn:Hlg; [|done]. injection Hs as <-.
    destruct (Forall2_lookup_r _ _ _ _ _ Hlogs Hlg) as (v & Hv & Hpos & Hzero).
    split.
    - apply py_round_nonneg. apply Qmult_le_0_compat; [|done].
      apply Qle_shift_div_l; [done|]. by rewrite Qmult_0_l.
    - intros Hs. apply (Hcounts i v Hv). intros ->.
      apply Hs. unfold score. rewrite (Hzero eq_refl).
      apply py_round_zero. unfold Qdiv. by rewrite !Qmult_0_l. }
  (* the most frequent quadgram *)
  destruct (py_max_spec (score <$> logs)) as (m & -> & Hmin' & Hmax).
  { intros Hnil. rewrite Hnil in Hlenscores. pose proof table_size_eq.
    simpl in Hlenscores. lia. }
  simpl.
  assert (∃ max_idx, index (score <$> logs) m = Ok max_idx
            ∧ (score <$> logs) !! max_idx = Some m
            ∧ reachable_code n (Z.of_nat max_idx)) as (max_idx & -> & Hidx & Hreach).
  { destruct (decide (m = 0%Z)) as [->|Hm0].
    - exists 0. assert ((score <$> logs) !! 0 = Some 0%Z) as H0.
      { destruct (lookup_lt_is_Some_2 (score <$> logs) 0) as [s Hs].
        { pose proof table_size_eq. lia. }
        rewrite Hs. f_equal. destruct (Hscores 0 s Hs) as [Hpos _].
        pose proof (Hmax s (list_elem_of_lookup_2 _ _ _ Hs)). lia. }
      split; [by apply index_head|]. split; [done|].
      apply reachable_zero. unfold n. lia.
    - destruct (index_Ok _ _ Hmin') as (i & Hi & Hlook).
      exists i. split; [done|]. split; [done|]. by apply (Hscores i m). }
  simpl. rewrite (proj2 (getitem_Ok _ _ _) Hidx). simpl.
  destruct (decode_reachable (lower alphabet) max_idx)
    as ([max_chars idx'] & ->).
  { by rewrite length_lower. }
  simpl. eexists. split; [done|]. simpl.
  split; [by rewrite Hlenscores, table_size_pow|].
  intros code k Hcode Hk Hfield.
  destruct (lookup_lt_is_Some_2 (score <$> logs) code) as [s Hs].
  { rewrite Hlenscores. pose proof table_size_pow. lia. }
  rewrite Hs. f_equal. destruct (Hscores code s Hs) as [_ Hreach'].
  destruct (decide (s = 0%Z)) as [->|Hs0]; [done|].
  pose proof (Hreach' Hs0 k Hk). lia.
Qed.

Lemma generate_quadgrams_table_witness :
  ∃ obj,
    Breaker.generate_quadgrams (λ x, x)
      [str_of "The cab."; str_of "A bad deed"] (str_of "abcde") = Ok obj
    ∧ Z.of_nat (length (QuadgramFile.quadgrams obj)) = (32 ^ 4)%Z
    ∧ ∀ code k,
        (Z.of_nat code < 32 ^ 4)%Z → k < 4 →
        (Z.of_nat (length (str_of "abcde")) ≤ field k (Z.of_nat code))%Z →
        QuadgramFile.quadgrams obj !! code = Some 0%Z.
Proof.
  apply (generate_quadgrams_table (λ x, x)
           [str_of "The cab."; str_of "A bad deed"] (str_of "abcde")).
  - intros x y Hx Hxy. lra.
  - reflexivity.
  - repeat constructor.
  - apply (bool_decide_unpack _). vm_compute. exact I.
  - simpl. lia.
  - vm_compute. lia.
Defined.

(** * Further properties of the code *)

(** ** Validation of alphabets and keys *)

Lemma NoDup_size_set (s : str) : NoDup s ↔ length s = size (set s).
Proof.
  split; [|apply size_set_NoDup].
  intros Hnd. unfold set. by rewrite size_list_to_set.
Qed.

(** [check_alphabet] accepts an alphabet exactly when no two of its symbols
    are equal up to case, and returns it in lower case; a second check of
    what it returns succeeds and changes nothing. *)
Theorem check_alphabet_spec (alphabet : str) :
  is_ascii alphabet = true →
  match Key.check_alphabet alphabet with
  | Ok a => a = lower alphabet ∧ NoDup a ∧ Key.check_alphabet a = Ok a
  | Raise e =>
    e = AlphabetInvalid "alphabet characters must be unique"
    ∧ ¬ NoDup (lower alphabet)
  | OutOfFuel => False
  end.
Proof.
  intros _. unfold Key.check_alphabet at 1.
  case_decide as Hsz.
  - split; [done|]. intros Hnd. by apply Hsz, NoDup_size_set.
  - split; [done|]. split; [by apply NoDup_size_set|].
    unfold Key.check_alphabet. rewrite lower_idemp.
    by rewrite decide_False by (by intros ?).
Qed.

Lemma check_alphabet_spec_witness :
  match Key.check_alphabet (str_of "AbC") with
  | Ok a => a = lower (str_of "AbC") ∧ NoDup a ∧ Key.check_alphabet a = Ok a
  | Raise e =>
    e = AlphabetInvalid "alphabet characters must be unique"
    ∧ ¬ NoDup (lower (str_of "AbC"))
  | OutOfFuel => False
  end.
Proof. apply (check_alphabet_spec (str_of "AbC")). reflexivity. Defined.

(** [check_key] on an ASCII key and an alphabet without repeated symbols
    (which it assumes: the alphabet has been checked before).  It returns
    the key in lower case exactly when that is a permutation of the
    alphabet.  Otherwise it raises [KeyInvalid] with the message of the
    first test that fails: a repeated character of the key, else a length
    other than the alphabet's, else a different set of characters. *)
Theorem check_key_spec (key alphabet : str) :
  is_ascii key = true →
  NoDup alphabet →
  let k := lower key in
  (Key.check_key key alphabet = Ok k ↔ k ≡ₚ alphabet)
  ∧ match Key.check_key key alphabet with
    | Ok r => r = k
    | Raise e =>
      (e = KeyInvalid "key characters must be unique" ∧ ¬ NoDup k)
      ∨ (e = KeyInvalid "key must be as long as the alphabet"
         ∧ NoDup k ∧ length k ≠ length alphabet)
      ∨ (e = KeyInvalid "key must use the same set of characters than the alphabet"
         ∧ NoDup k ∧ length k = length alphabet ∧ ¬ k ≡ₚ alphabet)
    | OutOfFuel => False
    end.
Proof.
  intros _ Hnda k. unfold Key.check_key. fold k.
  case_decide as Hsz.
  { split.
    - split; [done|]. intros Hperm. destruct Hsz.
      apply NoDup_size_set. by rewrite Hperm.
    - left. split; [done|]. intros Hnd. by apply Hsz, NoDup_size_set. }
  assert (NoDup k) as Hnd by by apply NoDup_size_set.
  case_decide as Hlen.
  { split.
    - split; [done|]. intros Hperm. destruct Hlen. by rewrite Hperm.
    - right. left. by repeat split. }
  case_decide as Hset.
  - assert (¬ k ≡ₚ alphabet) as Hnperm.
    { intros Hperm. apply Hset. unfold set. apply set_eq. intros c.
      by rewrite !elem_of_list_to_set, Hperm. }
    split; [by split|]. right. right. by repeat split.
  - split; [|done]. split; [|done]. intros _.
    apply NoDup_Permutation; [done|done|]. intros c.
    unfold set in Hset.
    by rewrite <- (elem_of_list_to_set (C:=gset ascii)), Hset, elem_of_list_to_set.
Qed.

Lemma check_key_spec_witness :
  (Key.check_key (str_of "BcA") (str_of "abc") = Ok (lower (str_of "BcA"))
   ↔ lower (str_of "BcA") ≡ₚ str_of "abc")
  ∧ match Key.check_key (str_of "BcA") (str_of "abc") with
    | Ok r => r = lower (str_of "BcA")
    | Raise e =>
      (e = KeyInvalid "key characters must be unique"
       ∧ ¬ NoDup (lower (str_of "BcA")))
      ∨ (e = KeyInvalid "key must be as long as the alphabet"
         ∧ NoDup (lower (str_of "BcA"))
         ∧ length (lower (str_of "BcA")) ≠ length (str_of "abc"))
      ∨ (e = KeyInvalid "key must use the same set of characters than the alphabet"
         ∧ NoDup (lower (str_of "BcA"))
         ∧ length (lower (str_of "BcA")) = length (str_of "abc")
         ∧ ¬ lower (str_of "BcA") ≡ₚ str_of "abc")
    | OutOfFuel => False
    end.
Proof.
  apply (check_key_spec (str_of "BcA") (str_of "abc")).
  - reflexivity.
  - apply (bool_decide_unpack _). vm_compute. exact I.
Defined.

(** ** The table of a key, character by character *)

Lemma foldl_insert_notin {K V : Type} `{Countable K} (l : list (K * V))
    (m : gmap K V) (k : K) :
  k ∉ l.*1 → foldl (λ d p, <[p.1:=p.2]> d) m l !! k = m !! k.
Proof.
  revert m. induction l as [|p l IH]; intros m Hnin; [done|].
  simpl. rewrite fmap_cons, not_elem_of_cons in Hnin. destruct Hnin as [Hne Hnin].
  rewrite IH by done. by rewrite lookup_insert_ne.
Qed.

Lemma foldl_insert_NoDup {K V : Type} `{Countable K} (l : list (K * V))
    (m : gmap K V) (k : K) (v : V) :
  NoDup l.*1 → (k, v) ∈ l → foldl (λ d p, <[p.1:=p.2]> d) m l !! k = Some v.
Proof.
  revert m. induction l as [|p l IH]; intros m Hnd Hin; [by apply elem_of_nil in Hin|].
  rewrite fmap_cons in Hnd. apply NoDup_cons in Hnd as [Hp Hnd].
  apply elem_of_cons in Hin as [<-|Hin]; simpl.
  - rewrite foldl_insert_notin by done. by rewrite lookup_insert_eq.
  - by apply IH.
Qed.

Lemma char_two_cases (c : ascii) :
  c = char_lower c ∨ c = char_upper (char_lower c).
Proof. destruct c as [[] [] [] [] [] [] [] []]; vm_compute; auto. Qed.

Section camel_table.

Context (a k : str).
Hypothesis same_length : length a = length k.
Hypothesis a_unique : NoDup a.
Hypothesis a_lower : ∀ j x, a !! j = Some x → char_lower x = x.

Local Abbreviation table :=
  (foldl (λ table p, <[p.1:=p.2]> table) (∅ : gmap ascii ascii)
     (zip (camel a) (camel k))).

Lemma zip_camel_app :
  zip (camel a) (camel k)
  = zip (char_upper <$> a) (char_upper <$> k) ++ zip a k.
Proof. unfold camel. apply zip_with_app. by rewrite !length_fmap. Qed.

Lemma upper_injective (x y : ascii) :
  x ∈ a → y ∈ a → char_upper x = char_upper y → x = y.
Proof.
  intros [i Hx]%list_elem_of_lookup [j Hy]%list_elem_of_lookup Heq.
  rewrite <- (a_lower _ _ Hx), <- (a_lower _ _ Hy).
  by rewrite <- (char_lower_upper x), <- (char_lower_upper y), Heq.
Qed.

(** A symbol of the alphabet goes to the symbol of the key at its
    position. *)
Lemma table_symbol (i : nat) (x y : ascii) :
  a !! i = Some x → k !! i = Some y → table !! x = Some y.
Proof.
  intros Hx Hy. rewrite zip_camel_app, foldl_app.
  apply foldl_insert_NoDup.
  - by rewrite fst_zip by lia.
  - apply elem_of_lookup_zip_with. by exists i, x, y.
Qed.

(** The upper case of a letter of the alphabet goes to the upper case of
    the symbol of the key. *)
Lemma table_upper (i : nat) (x y : ascii) :
  a !! i = Some x → k !! i = Some y → char_upper x ∉ a →
  table !! char_upper x = Some (char_upper y).
Proof.
  intros Hx Hy Hnin. rewrite zip_camel_app, foldl_app.
  rewrite foldl_insert_notin by (by rewrite fst_zip by lia).
  apply foldl_insert_NoDup.
  - rewrite fst_zip by (rewrite !length_fmap; lia).
    apply NoDup_fmap_2_strong; [|done]. intros. by apply upper_injective.
  - apply elem_of_lookup_zip_with. exists i, (char_upper x), (char_upper y).
    by rewrite !list_lookup_fmap, Hx, Hy.
Qed.

(** Any other character has no entry. *)
Lemma table_other (c : ascii) : c ∉ camel a → table !! c = None.
Proof.
  intros Hnin. apply foldl_insert_None. rewrite fst_zip; [done|].
  rewrite !length_camel. lia.
Qed.

(** The three cases cover every character. *)
Lemma camel_cases (c : ascii) :
  (∃ i, a !! i = Some c)
  ∨ (c ∉ a ∧ (∃ i x, a !! i = Some x ∧ c = char_upper x))
  ∨ c ∉ camel a.
Proof.
  destruct (decide (c ∈ a)) as [Hin|Hnin].
  { left. by apply list_elem_of_lookup. }
  destruct (decide (c ∈ char_upper <$> a)) as [Hup|Hnup].
  - right. left. split; [done|].
    apply list_elem_of_fmap in Hup as (x & -> & [i Hx]%list_elem_of_lookup).
    by exists i, x.
  - right. right. unfold camel. rewrite elem_of_app. by intros [?|?].
Qed.

End camel_table.

Section camel_table_lower.

Context (a k : str).
Hypothesis same_length : length a = length k.
Hypothesis a_unique : NoDup a.
Hypothesis a_lower : ∀ j x, a !! j = Some x → char_lower x = x.
Hypothesis k_lower : ∀ j y, k !! j = Some y → char_lower y = y.

Local Abbreviation table' :=
  (foldl (λ table p, <[p.1:=p.2]> table) (∅ : gmap ascii ascii)
     (zip (camel a) (camel k))).

Lemma lower_notin_camel (c : ascii) : c ∉ camel a → char_lower c ∉ camel a.
Proof.
  intros Hnin Hin. apply Hnin. apply elem_of_camel.
  apply elem_of_camel in Hin as (x & Hx & Hc).
  assert (char_lower x = x) as Hlx.
  { apply list_elem_of_lookup in Hx as [j Hj]. by eapply a_lower. }
  assert (char_lower c = x) as Hcx.
  { destruct Hc as [Hc|Hc]; [|done].
    rewrite <- (char_lower_idemp c), Hc, char_lower_upper. done. }
  exists x. split; [done|].
  destruct (char_two_cases c) as [Hc'|Hc']; rewrite Hcx in Hc'; auto.
Qed.

Lemma table_lower (c : ascii) :
  default (char_lower c) (table' !! char_lower c)
  = char_lower (default c (table' !! c)).
Proof.
  destruct (camel_cases a c) as [[i Hx]|[[Hnin (i & x & Hx & ->)]|Hnin]].
  - destruct (lookup_lt_is_Some_2 k i) as [y Hy].
    { rewrite <- same_length. by eapply lookup_lt_Some. }
    rewrite (a_lower _ _ Hx), (table_symbol a k same_length a_unique i c y Hx Hy).
    simpl. symmetry. by eapply k_lower.
  - destruct (lookup_lt_is_Some_2 k i) as [y Hy].
    { rewrite <- same_length. by eapply lookup_lt_Some. }
    rewrite (table_upper a k same_length a_unique a_lower i x y Hx Hy Hnin).
    rewrite char_lower_upper, (a_lower _ _ Hx).
    rewrite (table_symbol a k same_length a_unique i x y Hx Hy).
    simpl. rewrite char_lower_upper. symmetry. by eapply k_lower.
  - rewrite (table_other a k same_length c Hnin).
    by rewrite (table_other a k same_length _ (lower_notin_camel c Hnin)).
Qed.

End camel_table_lower.

Lemma Key_tables (key alphabet : str) (self : Key.t) :
  Key.__init__ key alphabet = Ok self →
  Key._encode self
  = foldl (λ table p, <[p.1:=p.2]> table) ∅
      (zip (camel (lower alphabet)) (camel (lower key)))
  ∧ Key._decode self
  = foldl (λ table p, <[p.1:=p.2]> table) ∅
      (zip (camel (lower key)) (camel (lower alphabet))).
Proof.
  intros (_ & _ & Hlen & _ & HE & HD)%Key_init_Ok.
  unfold maketrans in HE, HD. rewrite !length_camel in HE, HD.
  rewrite decide_True in HE by lia. rewrite decide_True in HD by lia.
  injection HE as <-. injection HD as <-. done.
Qed.

Lemma NoDup_same_elements_Permutation (k a : str) :
  NoDup k → NoDup a → (∀ c, c ∈ k ↔ c ∈ a) → k ≡ₚ a.
Proof. intros. by apply NoDup_Permutation. Qed.

Lemma lower_notin_alphabet (a : str) (c : ascii) :
  (∀ j x, a !! j = Some x → char_lower x = x) →
  char_lower c ∉ a → c ∉ camel a.
Proof.
  intros Hlow Hnin (x & Hx & Hc)%elem_of_camel. apply Hnin.
  assert (char_lower x = x) as Hlx.
  { apply list_elem_of_lookup in Hx as [j Hj]. by eapply Hlow. }
  destruct Hc as [->| ->]; [rewrite char_lower_upper|]; by rewrite Hlx.
Qed.

Lemma translate_app (table : gmap ascii ascii) (s t : str) :
  translate table (s ++ t) = translate table s ++ translate table t.
Proof. unfold translate. apply fmap_app. Qed.

Lemma foldl_write (f : str → str) (lines : list str) (out : str) :
  (∀ s t, f (s ++ t) = f s ++ f t) →
  foldl (λ fh line, fh ++ f line) out lines = out ++ f (mjoin lines).
Proof.
  intros Hf. assert (f [] = []) as Hnil.
  { specialize (Hf [] []). simpl in Hf.
    apply (f_equal length) in Hf. rewrite length_app in Hf.
    destruct (f []); [done|simpl in Hf; lia]. }
  revert out. induction lines as [|l lines IH]; intros out; simpl.
  - by rewrite Hnil, app_nil_r.
  - by rewrite IH, Hf, app_assoc.
Qed.

Lemma Key_init_lower (key alphabet : str) :
  Key.__init__ key alphabet = Key.__init__ (lower key) (lower alphabet).
Proof.
  unfold Key.__init__, Key.check_alphabet, Key.check_key.
  rewrite (upper_eq key), (upper_eq (lower key)), (upper_eq alphabet),
    (upper_eq (lower alphabet)).
  rewrite (upper_lower key), (upper_lower alphabet).
  by rewrite (lower_idemp key), (lower_idemp alphabet).
Qed.

(** ** Keys: construction *)

(** [Key.__init__] on an ASCII key and an ASCII alphabet.  It succeeds
    exactly when the alphabet in lower case has no repeated symbol and the
    key in lower case is a permutation of it; the object then holds both in
    lower case.  A repeated alphabet symbol is reported as
    [AlphabetInvalid], anything else as [KeyInvalid]; the two calls of
    [str.maketrans] do not fail.  (Outside ASCII they can: the upper case
    of a character may be longer than the character.) *)
Theorem Key_init_spec (key alphabet : str) :
  is_ascii key = true →
  is_ascii alphabet = true →
  match Key.__init__ key alphabet with
  | Ok self =>
      Key._alphabet self = lower alphabet ∧ Key._key self = lower key
      ∧ NoDup (lower alphabet) ∧ lower key ≡ₚ lower alphabet
  | Raise e =>
      (e = AlphabetInvalid "alphabet characters must be unique"
       ∧ ¬ NoDup (lower alphabet))
      ∨ (∃ msg, e = KeyInvalid msg ∧ NoDup (lower alphabet)
                ∧ ¬ lower key ≡ₚ lower alphabet)
  | OutOfFuel => False
  end.
Proof.
  intros _ _. unfold Key.__init__.
  destruct (Key.check_alphabet alphabet) as [a|e|] eqn:Ha; simpl.
  - apply check_alphabet_Ok in Ha as [-> Hnd].
    destruct (Key.check_key key (lower alphabet)) as [k|e|] eqn:Hk; simpl.
    + apply check_key_Ok in Hk as (-> & Hndk & Hlen & Hset).
      unfold maketrans.
      rewrite !length_app, (upper_eq key), (upper_eq alphabet), !length_fmap.
      unfold lower in Hlen |- *. rewrite !length_fmap in Hlen.
      repeat rewrite length_fmap.
      rewrite decide_True by lia. simpl. rewrite decide_True by lia. simpl.
      repeat split; try done. by apply NoDup_Permutation.
    + right. unfold Key.check_key in Hk.
      repeat case_decide; try discriminate; injection Hk as <-;
        (eexists; split; [done|split; [done|]]); intros Hperm.
      * match goal with H : _ ≠ size _ |- _ => apply H end.
        apply NoDup_size_set. by rewrite Hperm.
      * match goal with H : length _ ≠ length _ |- _ => apply H end.
        by rewrite Hperm.
      * match goal with H : set _ ≠ set _ |- _ => apply H end.
        unfold set. apply set_eq. intros c.
        rewrite !elem_of_list_to_set. by rewrite Hperm.
    + unfold Key.check_key in Hk. repeat case_decide; discriminate.
  - left. unfold Key.check_alphabet in Ha. case_decide as Hsz; [|done].
    injection Ha as <-. split; [done|]. intros Hnd. by apply Hsz, NoDup_size_set.
  - unfold Key.check_alphabet in Ha. case_decide; discriminate.
Qed.

Lemma Key_init_spec_witness :
  match Key.__init__ (str_of "BcA") (str_of "abC") with
  | Ok self =>
      Key._alphabet self = lower (str_of "abC")
      ∧ Key._key self = lower (str_of "BcA")
      ∧ NoDup (lower (str_of "abC"))
      ∧ lower (str_of "BcA") ≡ₚ lower (str_of "abC")
  | Raise e =>
      (e = AlphabetInvalid "alphabet characters must be unique"
       ∧ ¬ NoDup (lower (str_of "abC")))
      ∨ (∃ msg, e = KeyInvalid msg ∧ NoDup (lower (str_of "abC"))
                ∧ ¬ lower (str_of "BcA") ≡ₚ lower (str_of "abC"))
  | OutOfFuel => False
  end.
Proof. apply (Key_init_spec (str_of "BcA") (str_of "abC")); reflexivity. Defined.

(** ASCII keys and alphabets are case insensitive: two calls whose
    arguments agree in lower case build the same object, or fail alike. *)
Theorem Key_init_case_insensitive (key key' alphabet alphabet' : str) :
  is_ascii key = true → is_ascii key' = true →
  is_ascii alphabet = true → is_ascii alphabet' = true →
  lower key = lower key' →
  lower alphabet = lower alphabet' →
  Key.__init__ key alphabet = Key.__init__ key' alphabet'.
Proof.
  intros _ _ _ _ Hk Ha.
  rewrite (Key_init_lower key), (Key_init_lower key'). by rewrite Hk, Ha.
Qed.

Lemma Key_init_case_insensitive_witness :
  Key.__init__ (str_of "bCa") (str_of "abc")
  = Key.__init__ (str_of "BcA") (str_of "ABC").
Proof.
  apply (Key_init_case_insensitive (str_of "bCa") (str_of "BcA")
           (str_of "abc") (str_of "ABC")); reflexivity.
Defined.

(** ** Keys: the substitution *)

(** The substitution of a key, position by position, for an ASCII key and
    an ASCII alphabet: the symbol at position i of the alphabet is encoded
    as the symbol at position i of the key and the latter is decoded as the
    former; the upper case of an alphabet letter is encoded as the upper
    case of the key symbol (as the key symbol itself when the alphabet
    symbol has no upper case), and likewise for decoding. *)
Theorem encode_position (key alphabet : str) (self : Key.t) (i : nat)
    (x y : ascii) :
  is_ascii key = true →
  is_ascii alphabet = true →
  Key.__init__ key alphabet = Ok self →
  lower alphabet !! i = Some x →
  lower key !! i = Some y →
  Key.encode self [x] = [y]
  ∧ Key.decode self [y] = [x]
  ∧ Key.encode self [char_upper x] = [if letter x then char_upper y else y]
  ∧ Key.decode self [char_upper y] = [if letter y then char_upper x else x].
Proof.
  intros _ _ Hinit Hx Hy.
  destruct (Key_tables _ _ _ Hinit) as [HE HD].
  apply Key_init_Ok in Hinit as (Hnda & Hndk & Hlen & Hset & _ & _).
  assert (∀ (s : str) j c, lower s !! j = Some c → letter c = true →
            char_upper c ∉ lower s) as Hup.
  { intros s j c Hc Hl [j' Hin]%list_elem_of_lookup.
    apply lower_fixed in Hin. apply lower_fixed in Hc.
    rewrite char_lower_upper, Hc in Hin. unfold letter in Hl.
    rewrite <- Hin, Hc in Hl. by rewrite Ascii.eqb_refl in Hl. }
  unfold Key.encode, Key.decode, translate. rewrite HE, HD. simpl.
  repeat split.
  - by rewrite (table_symbol _ _ (eq_sym Hlen) Hnda i x y).
  - by rewrite (table_symbol _ _ Hlen Hndk i y x).
  - destruct (letter x) eqn:Hl.
    + rewrite (table_upper _ _ (eq_sym Hlen) Hnda (lower_fixed _) i x y); eauto.
    + rewrite (not_letter _ Hl), (lower_fixed _ _ _ Hx).
      by rewrite (table_symbol _ _ (eq_sym Hlen) Hnda i x y).
  - destruct (letter y) eqn:Hl.
    + rewrite (table_upper _ _ Hlen Hndk (lower_fixed _) i y x); eauto.
    + rewrite (not_letter _ Hl), (lower_fixed _ _ _ Hy).
      by rewrite (table_symbol _ _ Hlen Hndk i y x).
Qed.

Lemma encode_position_witness :
  ∃ self,
    Key.__init__ (str_of "zebra1") (str_of "ab1erz") = Ok self
    ∧ Key.encode self (str_of "b") = str_of "e"
    ∧ Key.decode self (str_of "e") = str_of "b"
    ∧ Key.encode self (str_of "B") = str_of "E"
    ∧ Key.decode self (str_of "E") = str_of "B".
Proof.
  destruct (Key.__init__ (str_of "zebra1") (str_of "ab1erz"))
    as [self|e|] eqn:Hinit; [|vm_compute in Hinit; discriminate..].
  exists self. split; [reflexivity|].
  apply (encode_position (str_of "zebra1") (str_of "ab1erz") self 1 "b" "e");
    reflexivity || exact Hinit.
Defined.

(** Characters that are in neither case in the alphabet are left as they
    are, by [encode] and by [decode]. *)
Theorem encode_outside_alphabet (key alphabet : str) (self : Key.t) (t : str) :
  is_ascii key = true →
  is_ascii alphabet = true →
  Key.__init__ key alphabet = Ok self →
  Forall (λ c, char_lower c ∉ lower alphabet) t →
  Key.encode self t = t ∧ Key.decode self t = t.
Proof.
  intros _ _ Hinit Ht.
  destruct (Key_tables _ _ _ Hinit) as [HE HD].
  apply Key_init_Ok in Hinit as (Hnda & Hndk & Hlen & Hset & _ & _).
  unfold Key.encode, Key.decode, translate. rewrite HE, HD.
  split; (etrans; [|apply list_fmap_id]); apply Forall_fmap_ext_1;
    eapply Forall_impl; [exact Ht| |exact Ht|]; simpl; intros c Hc.
  - rewrite table_other; [done|done|].
    apply lower_notin_alphabet; [apply lower_fixed|done].
  - rewrite table_other; [done|done|].
    apply lower_notin_alphabet; [apply lower_fixed|]. by rewrite Hset.
Qed.

Lemma encode_outside_alphabet_witness :
  ∃ self,
    Key.__init__ (str_of "zebrascdfghijklmnopqtuvwxy")
                 (str_of "abcdefghijklmnopqrstuvwxyz") = Ok self
    ∧ Key.encode self (str_of "10. (!) ?") = str_of "10. (!) ?"
    ∧ Key.decode self (str_of "10. (!) ?") = str_of "10. (!) ?".
Proof.
  destruct (Key.__init__ (str_of "zebrascdfghijklmnopqtuvwxy")
              (str_of "abcdefghijklmnopqrstuvwxyz"))
    as [self|e|] eqn:Hinit; [|vm_compute in Hinit; discriminate..].
  exists self. split; [reflexivity|].
  apply (encode_outside_alphabet (str_of "zebrascdfghijklmnopqtuvwxy")
           (str_of "abcdefghijklmnopqrstuvwxyz") self (str_of "10. (!) ?"));
    [reflexivity|reflexivity|exact Hinit|].
  apply (bool_decide_unpack _). vm_compute. exact I.
Defined.

(** Encoding and decoding respect lower case on ASCII text: the image of a
    text put in lower case is the image of the text, put in lower case.
    This holds for every valid ASCII key, also one that exchanges letters
    with other symbols.  (A character outside ASCII whose lower case is an
    ASCII letter, such as the Kelvin sign, is outside the statement.) *)
Theorem encode_lower (key alphabet : str) (self : Key.t) (t : str) :
  is_ascii key = true →
  is_ascii alphabet = true →
  is_ascii t = true →
  Key.__init__ key alphabet = Ok self →
  Key.encode self (lower t) = lower (Key.encode self t)
  ∧ Key.decode self (lower t) = lower (Key.decode self t).
Proof.
  intros _ _ _ Hinit.
  destruct (Key_tables _ _ _ Hinit) as [HE HD].
  apply Key_init_Ok in Hinit as (Hnda & Hndk & Hlen & Hset & _ & _).
  unfold Key.encode, Key.decode, translate, lower.
  rewrite HE, HD, <- !list_fmap_compose.
  split; apply list_fmap_ext; intros j c _; simpl.
  - apply table_lower; [done|done|apply lower_fixed|apply lower_fixed].
  - apply table_lower; [done|done|apply lower_fixed|apply lower_fixed].
Qed.

Lemma encode_lower_witness :
  ∃ self,
    Key.__init__ (str_of "1ab") (str_of "ab1") = Ok self
    ∧ Key.encode self (lower (str_of "A b 1 B"))
      = lower (Key.encode self (str_of "A b 1 B"))
    ∧ Key.decode self (lower (str_of "A b 1 B"))
      = lower (Key.decode self (str_of "A b 1 B")).
Proof.
  destruct (Key.__init__ (str_of "1ab") (str_of "ab1"))
    as [self|e|] eqn:Hinit; [|vm_compute in Hinit; discriminate..].
  exists self. split; [reflexivity|].
  apply (encode_lower (str_of "1ab") (str_of "ab1") self (str_of "A b 1 B"));
    reflexivity || exact Hinit.
Defined.

(** Decoding with a key is encoding with the key and the alphabet
    exchanged: the exchanged pair is a valid key too, and its two tables are
    the two tables of the key, exchanged. *)
Theorem decode_is_encode_of_inverse (key alphabet : str) (self : Key.t) :
  is_ascii key = true →
  is_ascii alphabet = true →
  Key.__init__ key alphabet = Ok self →
  ∃ inverse,
    Key.__init__ alphabet key = Ok inverse
    ∧ Key._alphabet inverse = Key._key self
    ∧ Key._key inverse = Key._alphabet self
    ∧ ∀ t, Key.decode self t = Key.encode inverse t
           ∧ Key.encode self t = Key.decode inverse t.
Proof.
  intros _ _ Hinit.
  destruct (Key_tables _ _ _ Hinit) as [HE HD].
  pose proof (Key_init_Ok _ _ _ Hinit) as (Hnda & Hndk & Hlen & Hset & _ & _).
  destruct (Key_init_Permutation (lower alphabet) (lower key))
    as [inverse Hinv].
  { by rewrite lower_idemp. }
  { symmetry. by apply NoDup_Permutation. }
  rewrite <- Key_init_lower in Hinv.
  destruct (Key_tables _ _ _ Hinv) as [HE' HD'].
  exists inverse. split; [done|].
  unfold Key.encode, Key.decode. rewrite HE, HD, HE', HD'.
  revert Hinit Hinv. unfold Key.__init__.
  destruct (Key.check_alphabet alphabet) as [a| |] eqn:Ha; [|done..].
  destruct (Key.check_alphabet key) as [k| |] eqn:Hk; [|done..]. simpl.
  destruct (Key.check_key key a) as [k'| |] eqn:Hk'; [|done..].
  destruct (Key.check_key alphabet k) as [a'| |] eqn:Ha'; [|done..]. simpl.
  apply check_alphabet_Ok in Ha as [-> _]. apply check_alphabet_Ok in Hk as [-> _].
  apply check_key_Ok in Hk' as [-> _]. apply check_key_Ok in Ha' as [-> _].
  destruct (maketrans _ _); [|done..]. simpl.
  destruct (maketrans _ _); [|done..]. simpl.
  intros [= <-] [= <-]. done.
Qed.

Lemma decode_is_encode_of_inverse_witness :
  ∃ self inverse,
    Key.__init__ (str_of "zebra") (str_of "aberz") = Ok self
    ∧ Key.__init__ (str_of "aberz") (str_of "zebra") = Ok inverse
    ∧ Key._alphabet inverse = Key._key self
    ∧ Key._key inverse = Key._alphabet self
    ∧ ∀ t, Key.decode self t = Key.encode inverse t
           ∧ Key.encode self t = Key.decode inverse t.
Proof.
  destruct (Key.__init__ (str_of "zebra") (str_of "aberz"))
    as [self|e|] eqn:Hinit; [|vm_compute in Hinit; discriminate..].
  exists self.
  destruct (decode_is_encode_of_inverse (str_of "zebra") (str_of "aberz") self)
    as (inverse & Hinv & H); [reflexivity|reflexivity|exact Hinit|].
  exists inverse. split; [reflexivity|]. split; [exact Hinv|exact H].
Defined.

Lemma Key_identity (alphabet : str) (self : Key.t) (t : str) :
  Key.__init__ alphabet alphabet = Ok self →
  Key.encode self t = t ∧ Key.decode self t = t.
Proof.
  intros Hinit.
  destruct (Key_tables _ _ _ Hinit) as [HE HD].
  apply Key_init_Ok in Hinit as (Hnda & _ & _ & _ & _ & _).
  unfold Key.encode, Key.decode, translate. rewrite HE, HD.
  assert (∀ c, default c
            (foldl (λ table p, <[p.1:=p.2]> table) (∅ : gmap ascii ascii)
               (zip (camel (lower alphabet)) (camel (lower alphabet))) !! c)
            = c) as Hid.
  { intros c.
    destruct (camel_cases (lower alphabet) c)
      as [[i Hx]|[[Hnin (i & x & Hx & ->)]|Hnin]].
    - by rewrite (table_symbol _ _ eq_refl Hnda i c c).
    - by rewrite (table_upper _ _ eq_refl Hnda (lower_fixed _) i x x).
    - by rewrite table_other. }
  split; (etrans; [|apply list_fmap_id]); apply list_fmap_ext;
    intros j c _; apply Hid.
Qed.

(** The alphabet taken as its own key is the identity substitution. *)
Theorem identity_key (alphabet : str) (self : Key.t) (t : str) :
  is_ascii alphabet = true →
  Key.__init__ alphabet alphabet = Ok self →
  Key.encode self t = t ∧ Key.decode self t = t.
Proof. intros _. apply Key_identity. Qed.

Lemma identity_key_witness :
  ∃ self,
    Key.__init__ (str_of "abc1") (str_of "abc1") = Ok self
    ∧ Key.encode self (str_of "A cab, 1 Bc") = str_of "A cab, 1 Bc"
    ∧ Key.decode self (str_of "A cab, 1 Bc") = str_of "A cab, 1 Bc".
Proof.
  destruct (Key.__init__ (str_of "abc1") (str_of "abc1"))
    as [self|e|] eqn:Hinit; [|vm_compute in Hinit; discriminate..].
  exists self. split; [reflexivity|].
  apply (identity_key (str_of "abc1") self (str_of "A cab, 1 Bc"));
    reflexivity || exact Hinit.
Defined.

(** [encode_file] and [decode_file] append to the output the image of the
    whole input: treating a file line by line gives what [encode] and
    [decode] give on its text, whatever the cutting into lines. *)
Theorem encode_file_whole_text (self : Key.t) (lines : list str) (out : str) :
  Key.encode_file self lines out = out ++ Key.encode self (mjoin lines)
  ∧ Key.decode_file self lines out = out ++ Key.decode self (mjoin lines).
Proof.
  unfold Key.encode_file, Key.decode_file. split.
  - apply (foldl_write (Key.encode self)). intros; apply translate_app.
  - apply (foldl_write (Key.decode self)). intros; apply translate_app.
Qed.

(** ** The iterators and the score of a text *)

Lemma trans_None (alphabet : str) (c : ascii) :
  Breaker.trans alphabet !! c = None → c ∉ lower alphabet.
Proof.
  unfold Breaker.trans. intros Hnone Hin.
  assert (∀ (l : list (nat * ascii)) (m : gmap ascii nat),
            foldl (λ d p, <[p.2:=p.1]> d) m l !! c = None →
            c ∉ l.*2) as Hgen.
  { induction l as [|p l IH]; intros m Hm; simpl in *; [apply not_elem_of_nil|].
    apply not_elem_of_cons. split; [|by eapply IH].
    intros ->. clear IH. revert Hm.
    assert (is_Some (<[p.2:=p.1]> m !! p.2)) as Hs by (by rewrite lookup_insert_eq).
    revert Hs. generalize (<[p.2:=p.1]> m). induction l as [|q l IH]; simpl.
    - intros m' [x Hx] Hm. by rewrite Hx in Hm.
    - intros m' Hs. apply IH. destruct (decide (q.2 = p.2)) as [->|Hne].
      + by rewrite lookup_insert_eq.
      + by rewrite lookup_insert_ne. }
  apply Hgen in Hnone. apply Hnone.
  apply list_elem_of_lookup in Hin as [i Hi].
  apply list_elem_of_fmap. exists (i, c). split; [done|].
  apply elem_of_lookup_imap. by exists i, c.
Qed.

Lemma lower_app (s t : str) : lower (s ++ t) = lower s ++ lower t.
Proof. unfold lower. apply fmap_app. Qed.

Lemma text_iterator_app (s t alphabet : str) :
  Breaker._text_iterator (s ++ t) alphabet
  = Breaker._text_iterator s alphabet ++ Breaker._text_iterator t alphabet.
Proof. unfold Breaker._text_iterator. by rewrite lower_app, omap_app. Qed.

(** A file is scored as its text is: the symbols drawn line by line from a
    file are the symbols of the lines joined, so [calc_fitness_file] gives
    what [calc_fitness] gives on the text of the file (the same score, or
    the same error). *)
Theorem calc_fitness_file_is_calc_fitness (self : Breaker.t)
    (cleartext_fh : list str) :
  Breaker._file_iterator cleartext_fh (Breaker._alphabet self)
  = Breaker._text_iterator (mjoin cleartext_fh) (Breaker._alphabet self)
  ∧ Breaker.calc_fitness_file self cleartext_fh
    = Breaker.calc_fitness self (mjoin cleartext_fh).
Proof.
  assert (∀ alphabet,
            Breaker._file_iterator cleartext_fh alphabet
            = Breaker._text_iterator (mjoin cleartext_fh) alphabet) as Hit.
  { intros alphabet. induction cleartext_fh as [|line lines IH]; [done|].
    simpl. rewrite text_iterator_app. unfold Breaker._file_iterator in *.
    simpl. by rewrite IH. }
  split; [apply Hit|].
  unfold Breaker.calc_fitness_file, Breaker.calc_fitness. by rewrite Hit.
Qed.

(** The projection of an ASCII text onto an ASCII alphabet: the text in
    lower case without the characters that are not in the alphabet, each
    character replaced by a position at which the alphabet (in lower case)
    has it.  Upper and lower case of the text are not told apart. *)
Theorem text_iterator_projection (txt alphabet : str) :
  is_ascii txt = true →
  is_ascii alphabet = true →
  Forall2 (λ n c, lower alphabet !! n = Some c)
    (Breaker._text_iterator txt alphabet)
    (filter (.∈ lower alphabet) (lower txt))
  ∧ Breaker._text_iterator (upper txt) alphabet
    = Breaker._text_iterator txt alphabet
  ∧ Breaker._text_iterator (lower txt) alphabet
    = Breaker._text_iterator txt alphabet.
Proof.
  intros _ _. split; [|split].
  - unfold Breaker._text_iterator. induction (lower txt) as [|c l IH]; simpl.
    { constructor. }
    destruct (Breaker.trans alphabet !! c) as [n|] eqn:Hc.
    + apply trans_lookup in Hc. rewrite filter_cons_True.
      * by constructor.
      * by eapply list_elem_of_lookup_2.
    + rewrite filter_cons_False; [done|].
      by apply trans_None.
  - unfold Breaker._text_iterator, lower, upper.
    rewrite <- list_fmap_compose. f_equal. apply list_fmap_ext.
    intros; simpl. apply char_lower_upper.
  - unfold Breaker._text_iterator. by rewrite lower_idemp.
Qed.

Lemma text_iterator_projection_witness :
  Forall2 (λ n c, lower (str_of "abc") !! n = Some c)
    (Breaker._text_iterator (str_of "Ab, Ca!") (str_of "abc"))
    (filter (.∈ lower (str_of "abc")) (lower (str_of "Ab, Ca!")))
  ∧ Breaker._text_iterator (upper (str_of "Ab, Ca!")) (str_of "abc")
    = Breaker._text_iterator (str_of "Ab, Ca!") (str_of "abc")
  ∧ Breaker._text_iterator (lower (str_of "Ab, Ca!")) (str_of "abc")
    = Breaker._text_iterator (str_of "Ab, Ca!") (str_of "abc").
Proof.
  apply (text_iterator_projection (str_of "Ab, Ca!") (str_of "abc"));
    reflexivity.
Defined.

Lemma quadgram_code_range (a b c d : nat) :
  a < 32 → b < 32 → c < 32 → d < 32 →
  (0 ≤ quadgram_code a b c d < 1048576)%Z.
Proof. unfold quadgram_code. lia. Qed.

Lemma quadgram_code_mod (a b c d : nat) :
  a < 32 → b < 32 → c < 32 → d < 32 →
  (quadgram_code a b c d mod 32768
   = (Z.of_nat b * 32 + Z.of_nat c) * 32 + Z.of_nat d)%Z.
Proof.
  intros. unfold quadgram_code. symmetry.
  apply (Z.mod_unique _ _ (Z.of_nat a)); lia.
Qed.

Lemma text_score_cons (quadgrams : list Z) (a b c d : nat) (rest : list nat) :
  text_score quadgrams (a :: b :: c :: d :: rest)
  = (default 0 (quadgrams !! Z.to_nat (quadgram_code a b c d))
     + text_score quadgrams (b :: c :: d :: rest))%Z.
Proof. done. Qed.

Lemma text_score_short (quadgrams : list Z) (a b c : nat) :
  text_score quadgrams [a; b; c] = 0%Z.
Proof. done. Qed.

#[global] Opaque text_score.

Section text_score.

Context (quadgrams : list Z).
Hypothesis table_length : length quadgrams = Breaker.table_size.

Lemma window_score (v : Z) (a b c d : nat) :
  a < 32 → b < 32 → c < 32 → d < 32 →
  (v mod 32768 = (Z.of_nat a * 32 + Z.of_nat b) * 32 + Z.of_nat c)%Z →
  Breaker.quad_next v d = quadgram_code a b c d
  ∧ getitemZ quadgrams (Breaker.quad_next v d)
    = Ok (default 0%Z (quadgrams !! Z.to_nat (quadgram_code a b c d))).
Proof.
  intros Ha Hb Hc Hd Hv.
  assert (Breaker.quad_next v d = quadgram_code a b c d) as Hq.
  { rewrite quad_next_eq, Hv. done. }
  split; [done|]. rewrite Hq.
  destruct (table_getitemZ quadgrams (quadgram_code a b c d) table_length)
    as (score & -> & ->); [by apply quadgram_code_range|done].
Qed.

Lemma sum_loop_value (rest : list nat) (a b c : nat) (v f : Z) (n : nat) :
  a < 32 → b < 32 → c < 32 → Forall (λ d, d < 32) rest →
  (v mod 32768 = (Z.of_nat a * 32 + Z.of_nat b) * 32 + Z.of_nat c)%Z →
  ∃ v', for_ rest (Breaker.sum_step quadgrams) (v, f, n)
        = Ok (v', (f + text_score quadgrams (a :: b :: c :: rest))%Z,
              n + length rest).
Proof.
  intros Ha Hb Hc Hrest. revert a b c v f n Ha Hb Hc.
  induction Hrest as [|d rest Hd _ IH]; intros a b c v f n Ha Hb Hc Hv.
  - exists v. simpl. rewrite text_score_short. do 2 f_equal; [f_equal; lia|lia].
  - rewrite for__cons. destruct (window_score v a b c d) as [Hq Hget]; try done.
    assert (Breaker.sum_step quadgrams d (v, f, n)
            = Ok (Breaker.quad_next v d,
                  (f + default 0 (quadgrams !! Z.to_nat (quadgram_code a b c d)))%Z,
                  S n)) as ->.
    { unfold Breaker.sum_step. by rewrite Hget. }
    simpl.
    destruct (IH b c d (Breaker.quad_next v d)
                (f + default 0 (quadgrams !! Z.to_nat (quadgram_code a b c d)))%Z
                (S n)) as (v' & ->); try done.
    { rewrite Hq. by apply quadgram_code_mod. }
    exists v'. rewrite text_score_cons. do 2 f_equal; [f_equal; lia|simpl; lia].
Qed.

Lemma rescore_loop_value (rest : list nat) (a b c : nat) (v f : Z) :
  a < 32 → b < 32 → c < 32 → Forall (λ d, d < 32) rest →
  (v mod 32768 = (Z.of_nat a * 32 + Z.of_nat b) * 32 + Z.of_nat c)%Z →
  ∃ v', for_ rest (Breaker.rescore_step quadgrams) (v, f)
        = Ok (v', (f + text_score quadgrams (a :: b :: c :: rest))%Z).
Proof.
  intros Ha Hb Hc Hrest. revert a b c v f Ha Hb Hc.
  induction Hrest as [|d rest Hd _ IH]; intros a b c v f Ha Hb Hc Hv.
  - exists v. simpl. rewrite text_score_short. f_equal. f_equal. lia.
  - rewrite for__cons. destruct (window_score v a b c d) as [Hq Hget]; try done.
    assert (Breaker.rescore_step quadgrams d (v, f)
            = Ok (Breaker.quad_next v d,
                  (f + default 0 (quadgrams !! Z.to_nat (quadgram_code a b c d)))%Z))
      as ->.
    { unfold Breaker.rescore_step. by rewrite Hget. }
    simpl.
    destruct (IH b c d (Breaker.quad_next v d)
                (f + default 0 (quadgrams !! Z.to_nat (quadgram_code a b c d)))%Z)
      as (v' & ->); try done.
    { rewrite Hq. by apply quadgram_code_mod. }
    exists v'. rewrite text_score_cons. f_equal. f_equal. lia.
Qed.

Lemma pack3_mod (a b c : nat) :
  a < 32 → b < 32 → c < 32 →
  (((Z.of_nat a * 32 + Z.of_nat b) * 32 + Z.of_nat c) mod 32768
   = (Z.of_nat a * 32 + Z.of_nat b) * 32 + Z.of_nat c)%Z.
Proof. intros. apply Z.mod_small. lia. Qed.

Lemma rescore_text_score (plaintext : list nat) :
  3 ≤ length plaintext →
  Forall (λ d, d < 32) plaintext →
  Breaker.rescore quadgrams plaintext = Ok (text_score quadgrams plaintext).
Proof.
  intros Hlen Hpt. unfold Breaker.rescore.
  destruct plaintext as [|a [|b [|c rest]]]; simpl in Hlen; try lia.
  simpl. rewrite drop_0.
  apply Forall_cons_1 in Hpt as [Ha Hpt]. apply Forall_cons_1 in Hpt as [Hb Hpt].
  apply Forall_cons_1 in Hpt as [Hc Hpt].
  destruct (rescore_loop_value rest a b c
              (Z.shiftl (Z.of_nat a) 10 + Z.shiftl (Z.of_nat b) 5 + Z.of_nat c)%Z
              0%Z) as (v' & ->); try done.
  { rewrite !Z.shiftl_mul_pow2 by lia.
    replace (Z.of_nat a * 2 ^ 10 + Z.of_nat b * 2 ^ 5 + Z.of_nat c)%Z
      with ((Z.of_nat a * 32 + Z.of_nat b) * 32 + Z.of_nat c)%Z by lia.
    by apply pack3_mod. }
Qed.

Lemma calc_fitness_text_score (self : Breaker.t) (iterator : list nat) :
  Breaker._quadgrams self = quadgrams →
  4 ≤ length iterator →
  Forall (λ d, d < 32) iterator →
  Breaker._calc_fitness self iterator
  = Ok (inject_Z (text_score quadgrams iterator)
        / inject_Z (Z.of_nat (length iterator - 3)) / 10)%Q.
Proof.
  intros Hq Hlen Hit. unfold Breaker._calc_fitness.
  destruct iterator as [|a [|b [|c rest]]]; simpl in Hlen; try lia.
  apply Forall_cons_1 in Hit as [Ha Hit]. apply Forall_cons_1 in Hit as [Hb Hit].
  apply Forall_cons_1 in Hit as [Hc Hit].
  rewrite Hq. unfold Breaker.sum_quadgrams.
  destruct (sum_loop_value rest a b c
              (Z.shiftl (Z.shiftl (Z.of_nat a) 5 + Z.of_nat b) 5 + Z.of_nat c)%Z
              0%Z 0) as (v' & ->); try done.
  { rewrite !Z.shiftl_mul_pow2 by lia.
    replace ((Z.of_nat a * 2 ^ 5 + Z.of_nat b) * 2 ^ 5 + Z.of_nat c)%Z
      with ((Z.of_nat a * 32 + Z.of_nat b) * 32 + Z.of_nat c)%Z by lia.
    by apply pack3_mod. }
  simpl. rewrite decide_False by (destruct rest; simpl in *; lia).
  by rewrite Nat.sub_0_r.
Qed.

End text_score.

(** The loop of [_calc_fitness] (lines 276-282) from the window of the
    first three symbols: it leaves in [fitness] the sum of the entries of
    the table at the quadgrams of the text and in [nbr_quadgrams] their
    number. *)
Lemma sum_quadgrams_text_score (quadgrams : list Z) (c0 c1 c2 : nat)
    (rest : list nat) :
  length quadgrams = Breaker.table_size →
  Forall (λ d, d < 32) (c0 :: c1 :: c2 :: rest) →
  ∃ quadgram_val,
    Breaker.sum_quadgrams quadgrams rest
      (Z.shiftl (Z.shiftl (Z.of_nat c0) 5 + Z.of_nat c1) 5 + Z.of_nat c2)%Z
    = Ok (quadgram_val, text_score quadgrams (c0 :: c1 :: c2 :: rest),
          length rest).
Proof.
  intros Hlen Hit.
  apply Forall_cons_1 in Hit as [Ha Hit]. apply Forall_cons_1 in Hit as [Hb Hit].
  apply Forall_cons_1 in Hit as [Hc Hit].
  unfold Breaker.sum_quadgrams.
  destruct (sum_loop_value quadgrams Hlen rest c0 c1 c2
              (Z.shiftl (Z.shiftl (Z.of_nat c0) 5 + Z.of_nat c1) 5 + Z.of_nat c2)%Z
              0%Z 0) as (v' & ->); try done.
  { rewrite !Z.shiftl_mul_pow2 by lia.
    replace ((Z.of_nat c0 * 2 ^ 5 + Z.of_nat c1) * 2 ^ 5 + Z.of_nat c2)%Z
      with ((Z.of_nat c0 * 32 + Z.of_nat c1) * 32 + Z.of_nat c2)%Z by lia.
    apply Z.mod_small. lia. }
  by exists v'.
Qed.



(** The scoring loop written out in [_hill_climbing] (lines 365-369) and
    the loop of [_calc_fitness] (lines 276-282) compute the same integer on
    every text: the sum of the entries of the table at its quadgrams. *)
Theorem rescore_agrees_with_sum_quadgrams (self : Breaker.t) (p0 p1 p2 : nat)
    (rest : list nat) :
  wf self →
  Forall (λ c, c < length (Breaker._alphabet self)) (p0 :: p1 :: p2 :: rest) →
  ∃ quadgram_val,
    Breaker.rescore (Breaker._quadgrams self) (p0 :: p1 :: p2 :: rest)
    = Ok (text_score (Breaker._quadgrams self) (p0 :: p1 :: p2 :: rest))
    ∧ Breaker.sum_quadgrams (Breaker._quadgrams self) rest
        (Z.shiftl (Z.shiftl (Z.of_nat p0) 5 + Z.of_nat p1) 5 + Z.of_nat p2)%Z
      = Ok (quadgram_val,
            text_score (Breaker._quadgrams self) (p0 :: p1 :: p2 :: rest),
            length rest).
Proof.
  intros Hwf Hsym.
  assert (Forall (λ c, c < 32) (p0 :: p1 :: p2 :: rest)) as H32.
  { eapply Forall_impl; [exact Hsym|]. simpl. intros c Hc.
    pose proof (wf_short self Hwf). lia. }
  destruct (sum_quadgrams_text_score (Breaker._quadgrams self) p0 p1 p2 rest
              (wf_table self Hwf) H32) as (v & Hsum).
  exists v. split; [|done].
  apply rescore_text_score; [apply Hwf|simpl; lia|done].
Qed.

Lemma rescore_agrees_with_sum_quadgrams_witness :
  ∃ quadgram_val,
    Breaker.rescore (Breaker._quadgrams toy) [0; 1; 1; 0; 3]
    = Ok (text_score (Breaker._quadgrams toy) [0; 1; 1; 0; 3])
    ∧ Breaker.sum_quadgrams (Breaker._quadgrams toy) [0; 3]
        (Z.shiftl (Z.shiftl (Z.of_nat 0) 5 + Z.of_nat 1) 5 + Z.of_nat 1)%Z
      = Ok (quadgram_val, text_score (Breaker._quadgrams toy) [0; 1; 1; 0; 3],
            length [0; 3]).
Proof.
  apply (rescore_agrees_with_sum_quadgrams toy 0 1 1 [0; 3] toy_wf).
  repeat constructor; simpl; lia.
Defined.

(** ** The hill climber ends on a local maximum *)

Lemma for__collect {A S : Type} (P R : A → Prop) (I G : S → Prop) (l : list A)
    (body : A → S → res S) (s s' : S) :
  Forall P l →
  (∀ x s s', P x → I s → body x s = Ok s' → I s' ∧ (G s' → G s ∧ R x)) →
  I s → for_ l body s = Ok s' →
  I s' ∧ (G s' → G s ∧ Forall R l).
Proof.
  intros Hl Hbody. revert s.
  induction Hl as [|x l Hx _ IH]; intros s Hs.
  - intros [= <-]. split; [done|]. intros ?. by split.
  - rewrite for__cons. intros (s1 & Hs1 & Hrest)%bind_Ok.
    destruct (Hbody x s s1 Hx Hs Hs1) as [Hi1 Hg1].
    destruct (IH s1 Hi1 Hrest) as [Hi' Hg']. split; [done|].
    intros Hg. destruct (Hg' Hg) as [Hg1' Hall].
    destruct (Hg1 Hg1') as [Hgs Hr]. split; [done|]. by constructor.
Qed.

Section local_maximum.

Context (quadgram : list Z) (alphabet : str) (cipher_bin : list nat).
Hypothesis table_length : length quadgram = Breaker.table_size.
Hypothesis alphabet_short : length alphabet ≤ 32.
Hypothesis cipher_long : 3 ≤ length cipher_bin.
Context (key0 : list nat).

Local Abbreviation key_len := (length alphabet).
Local Abbreviation char_positions :=
  (Breaker.build_char_positions alphabet cipher_bin).
Local Abbreviation trial_inv := (trial_inv quadgram key_len cipher_bin key0).
Local Abbreviation rejected := (rejected quadgram cipher_bin).

Lemma deciphers_symbols (key plaintext : list nat) :
  key ≡ₚ seq 0 key_len →
  deciphers key cipher_bin plaintext →
  3 ≤ length plaintext ∧ Forall (λ p, p < 32) plaintext.
Proof.
  intros Hperm Hpt. split; [by rewrite (Forall2_length _ _ _ Hpt)|].
  apply permutation_seq_facts in Hperm as (Hlen & _).
  eapply Forall2_Forall_l; [exact Hpt|]. apply Forall_true.
  intros p c Hp%lookup_lt_Some. lia.
Qed.

Lemma trial_local (K : list nat) (F : Z) (idx1 idx2 : nat)
    (s s' : Breaker.climb) :
  idx1 < idx2 < key_len →
  trial_inv K F s →
  Breaker.trial quadgram char_positions idx1 idx2 s = Ok s' →
  trial_inv K F s' ∧ (quiet s' → quiet s ∧ rejected K F idx1 idx2).
Proof.
  intros Hidx (Hinv & Hscored & Hquiet).
  destruct (trial_spec quadgram alphabet cipher_bin table_length alphabet_short
              cipher_long idx1 idx2 s Hinv Hidx) as (pt & tmp & Hpt & Htmp & ->).
  assert (tmp = text_score quadgram pt) as Hscore.
  { destruct (deciphers_symbols (swap_key (Breaker.c_key s) idx1 idx2) pt)
      as [Hlen H32]; [|done|].
    - rewrite swap_key_Permutation. apply Hinv.
    - rewrite (rescore_text_score quadgram table_length pt Hlen H32) in Htmp.
      by injection Htmp. }
  assert (0 ≤ Breaker.c_max_fitness s)%Z as Hnonneg.
  { destruct Hscored as [[-> _]|[? _]]; lia. }
  destruct (Z.gtb_spec tmp (Breaker.c_max_fitness s)) as [Hgt|Hle];
    intros [= <-].
  - split; [|done]. split; [|split; [|done]].
    + split; simpl; [|done]. rewrite swap_key_Permutation. apply Hinv.
    + right. simpl. split; [lia|done].
  - split.
    + split; [by destruct Hinv|]. split; [done|]. exact Hquiet.
    + unfold quiet. simpl. intros Hq. split; [done|].
      destruct (Hquiet Hq) as [HK HF]. exists pt. rewrite <- HK, <- HF.
      split; [done|lia].
Qed.

Lemma pass_local (s s' : Breaker.climb) :
  climb_inv key_len cipher_bin s →
  climb_scored quadgram key0 s →
  Breaker.pass quadgram key_len char_positions
    (Breaker.mkClimb (Breaker.c_key s) (Breaker.c_plaintext s)
       (Breaker.c_nbr_keys s) (Breaker.c_max_fitness s) false) = Ok s' →
  climb_inv key_len cipher_bin s'
  ∧ climb_scored quadgram key0 s'
  ∧ (Breaker.c_better_key s' = false →
     no_better_swap quadgram key_len cipher_bin (Breaker.c_key s')
       (Breaker.c_max_fitness s')).
Proof.
  intros Hinv Hscored Hpass. unfold Breaker.pass in Hpass.
  set (K := Breaker.c_key s) in *. set (F := Breaker.c_max_fitness s) in *.
  apply (for__collect (λ idx1, idx1 < key_len - 1)
           (λ idx1, Forall (rejected K F idx1) (range (idx1 + 1) key_len))
           (trial_inv K F) quiet) in Hpass.
  - destruct Hpass as [(Hinv' & Hscored' & Hquiet') Hall].
    split; [done|]. split; [done|]. intros Hq.
    destruct (Hquiet' Hq) as [-> ->]. destruct (Hall Hq) as [_ Hrej].
    intros idx1 idx2 Hidx.
    rewrite list.Forall_forall in Hrej. specialize (Hrej idx1).
    rewrite list.Forall_forall in Hrej. apply Hrej.
    + unfold range. apply elem_of_seq. lia.
    + unfold range. apply elem_of_seq. lia.
  - unfold range. apply Forall_seq. intros; lia.
  - intros idx1 s1 s2 Hidx1 Hs1 Hinner.
    apply (for__collect (λ idx2, idx1 < idx2 < key_len) (rejected K F idx1)
             (trial_inv K F) quiet) in Hinner; [done| |intros; by eapply trial_local|done].
    unfold range. apply Forall_seq. intros; lia.
  - split; [by destruct Hinv|]. split; [|done].
    destruct Hscored as [?|?]; [by left|by right].
Qed.

Lemma climb_while_local (fuel : nat) (s s' : Breaker.climb) :
  climb_inv key_len cipher_bin s →
  climb_scored quadgram key0 s →
  (Breaker.c_better_key s = false →
   no_better_swap quadgram key_len cipher_bin (Breaker.c_key s)
     (Breaker.c_max_fitness s)) →
  Breaker.climb_while fuel quadgram key_len char_positions s = Ok s' →
  climb_inv key_len cipher_bin s'
  ∧ climb_scored quadgram key0 s'
  ∧ no_better_swap quadgram key_len cipher_bin (Breaker.c_key s')
      (Breaker.c_max_fitness s').
Proof.
  revert s. induction fuel as [|fuel IH]; intros s Hinv Hscored Hlocal; [done|].
  simpl. destruct (Breaker.c_better_key s) eqn:Hbetter.
  - intros (s1 & Hpass & Hrest)%bind_Ok.
    apply pass_local in Hpass as (Hinv1 & Hscored1 & Hlocal1); [|done..].
    by apply (IH s1).
  - intros [= <-]. split; [done|]. split; [done|]. by apply Hlocal.
Qed.

End local_maximum.

(** ** The number of keys tried *)

Lemma trial_nbr_keys (quadgram : list Z) (char_positions : list (list nat))
    (idx1 idx2 : nat) (s s' : Breaker.climb) :
  Breaker.trial quadgram char_positions idx1 idx2 s = Ok s' →
  Breaker.c_nbr_keys s' = S (Breaker.c_nbr_keys s).
Proof.
  unfold Breaker.trial.
  intros (ch1 & _ & H)%bind_Ok.
  apply bind_Ok in H as (ch2 & _ & H).
  apply bind_Ok in H as (pos1 & _ & H).
  apply bind_Ok in H as (pt1 & _ & H).
  apply bind_Ok in H as (pos2 & _ & H).
  apply bind_Ok in H as (pt2 & _ & H).
  apply bind_Ok in H as (tmp & _ & H).
  destruct (tmp >? Breaker.c_max_fitness s)%Z.
  - apply bind_Ok in H as (k1 & _ & H).
    by apply bind_Ok in H as (k2 & _ & [= <-]).
  - apply bind_Ok in H as (pos1' & _ & H).
    apply bind_Ok in H as (pt3 & _ & H).
    apply bind_Ok in H as (pos2' & _ & H).
    by apply bind_Ok in H as (pt4 & _ & [= <-]).
Qed.

Lemma for__count {A S : Type} (cnt : S → nat) (w : A → nat) (l : list A)
    (body : A → S → res S) (s s' : S) :
  (∀ x s s', body x s = Ok s' → cnt s' = cnt s + w x) →
  for_ l body s = Ok s' →
  cnt s' = cnt s + foldr (λ x n, w x + n) 0 l.
Proof.
  intros Hbody. revert s. induction l as [|x l IH]; intros s.
  - intros [= <-]. simpl. lia.
  - rewrite for__cons. intros (s1 & Hs1 & Hrest)%bind_Ok.
    rewrite (IH _ Hrest), (Hbody _ _ _ Hs1). simpl. lia.
Qed.

Lemma foldr_const_sum {A : Type} (l : list A) :
  foldr (λ _ n, 1 + n) 0 l = length l.
Proof. induction l as [|x l IH]; [done|]. cbn [foldr length]. by rewrite IH. Qed.

Lemma triangle (n k a : nat) :
  a + k + 1 = n →
  2 * foldr (λ idx1 m, (n - (idx1 + 1)) + m) 0 (seq a k)
  = k * (k + 1).
Proof.
  revert a. induction k as [|k IH]; intros a Hn; [done|].
  specialize (IH (S a) ltac:(lia)). cbn [seq foldr].
  replace (n - (a + 1)) with (S k) by lia.
  rewrite Nat.mul_add_distr_l, IH. lia.
Qed.

Lemma pairs_double (n : nat) : 2 * pairs n = n * (n - 1).
Proof.
  unfold pairs. destruct n as [|n]; [done|].
  replace (S n - 1) with n by lia.
  assert (S n * n = 2 * (S n * n / 2)) as <-; [|done].
  assert (∃ q, S n * n = 2 * q) as [q ->].
  { induction n as [|n [q Hq]]; [by exists 0|]. exists (q + S n). lia. }
  rewrite (Nat.mul_comm 2 q) at 2. by rewrite Nat.div_mul.
Qed.

Lemma pass_nbr_keys (quadgram : list Z) (key_len : nat)
    (char_positions : list (list nat)) (s s' : Breaker.climb) :
  Breaker.pass quadgram key_len char_positions s = Ok s' →
  Breaker.c_nbr_keys s' = Breaker.c_nbr_keys s + pairs key_len.
Proof.
  unfold Breaker.pass. intros Hpass.
  apply (for__count Breaker.c_nbr_keys (λ idx1, key_len - (idx1 + 1))) in Hpass.
  - rewrite Hpass. f_equal. unfold range. rewrite Nat.sub_0_r.
    destruct key_len as [|n]; [done|].
    pose proof (triangle (S n) (S n - 1) 0 ltac:(lia)) as Ht.
    pose proof (pairs_double (S n)) as Hp.
    replace (S n - 1) with n in * by lia. nia.
  - intros idx1 s1 s2 Hinner.
    apply (for__count Breaker.c_nbr_keys (λ _, 1)) in Hinner.
    + rewrite Hinner, foldr_const_sum. unfold range. by rewrite length_seq.
    + intros idx2 s3 s4 Htrial. apply trial_nbr_keys in Htrial. lia.
Qed.

Section passes.

Context (quadgram : list Z) (alphabet : str) (cipher_bin : list nat).
Hypothesis table_length : length quadgram = Breaker.table_size.
Hypothesis alphabet_short : length alphabet ≤ 32.
Hypothesis cipher_long : 3 ≤ length cipher_bin.

Local Abbreviation key_len := (length alphabet).
Local Abbreviation char_positions :=
  (Breaker.build_char_positions alphabet cipher_bin).
Local Abbreviation B := (fitness_bound quadgram cipher_bin).

(** Every pass but the last raises [max_fitness]. *)
Lemma climb_while_passes (fuel : nat) (s s' : Breaker.climb) :
  climb_inv key_len cipher_bin s →
  (Breaker.c_max_fitness s ≤ B)%Z →
  Breaker.climb_while fuel quadgram key_len char_positions s = Ok s' →
  (Breaker.c_max_fitness s ≤ Breaker.c_max_fitness s')%Z
  ∧ ∃ passes,
      Breaker.c_nbr_keys s' = Breaker.c_nbr_keys s + passes * pairs key_len
      ∧ (Breaker.c_better_key s = true → 1 ≤ passes)
      ∧ (Z.of_nat passes
         ≤ Breaker.c_max_fitness s' - Breaker.c_max_fitness s + 1)%Z.
Proof.
  revert s. induction fuel as [|fuel IH]; intros s Hinv Hmax; [done|].
  simpl. destruct (Breaker.c_better_key s) eqn:Hbetter.
  - set (s0 := Breaker.mkClimb _ _ _ _ false).
    destruct (pass_spec quadgram alphabet cipher_bin table_length
                alphabet_short cipher_long s0)
      as (s1 & Hpass & Hinv1 & Hmax1 & Hbetter1).
    { by destruct Hinv. }
    { done. }
    rewrite Hpass. simpl. intros Hrest.
    apply pass_nbr_keys in Hpass. simpl in Hpass, Hmax1, Hbetter1.
    destruct (Breaker.c_better_key s1) eqn:Hb1.
    + destruct (IH s1 Hinv1 ltac:(lia) Hrest)
        as (Hmono & passes & Hn & Hone & Hle).
      split; [lia|]. exists (S passes). split; [lia|]. split; [lia|].
      destruct Hbetter1 as [?|Hlt]; [done..|]. lia.
    + destruct fuel as [|fuel]; [done|]. simpl in Hrest. rewrite Hb1 in Hrest.
      injection Hrest as <-. split; [lia|]. exists 1. split; [lia|].
      split; [lia|lia].
  - intros [= <-]. split; [lia|]. exists 0. split; [lia|]. split; [done|lia].
Qed.

End passes.

(** The climb as a whole: it returns, on a key that is a permutation and a
    local maximum, after a number of passes. *)
Lemma hill_climbing_climb (self : Breaker.t) (fuel : nat)
    (key cipher_bin : list nat) :
  wf self →
  Forall (λ c, c < length (Breaker._alphabet self)) cipher_bin →
  3 ≤ length cipher_bin →
  key ≡ₚ seq 0 (length (Breaker._alphabet self)) →
  climb_fuel (Breaker._quadgrams self) cipher_bin ≤ fuel →
  ∃ fitness nbr_keys key' passes,
    Breaker._hill_climbing self fuel key cipher_bin
      (Breaker.build_char_positions (Breaker._alphabet self) cipher_bin)
    = Ok (fitness, nbr_keys, key')
    ∧ key' ≡ₚ seq 0 (length (Breaker._alphabet self))
    ∧ ((fitness = 0%Z ∧ key' = key)
       ∨ ((0 < fitness)%Z
          ∧ ∃ plaintext,
              deciphers key' cipher_bin plaintext
              ∧ text_score (Breaker._quadgrams self) plaintext = fitness))
    ∧ no_better_swap (Breaker._quadgrams self)
        (length (Breaker._alphabet self)) cipher_bin key' fitness
    ∧ nbr_keys = passes * pairs (length (Breaker._alphabet self))
    ∧ 1 ≤ passes
    ∧ (Z.of_nat passes ≤ fitness + 1)%Z.
Proof.
  intros Hwf Hsym Hlong Hperm Hfuel.
  destruct (hill_climbing_spec self fuel key cipher_bin Hwf Hsym Hlong Hperm
              Hfuel) as (fitness & nbr_keys & key' & Hclimb & Hperm' & Hfit).
  pose proof Hclimb as Hrun. unfold Breaker._hill_climbing in Hclimb.
  apply bind_Ok in Hclimb as (pt & Hpt & Hclimb).
  apply bind_Ok in Hclimb as (s' & Hwhile & [= <- <- <-]).
  destruct (climb_inv_initial _ key cipher_bin Hperm Hsym)
    as (pt' & Hpt' & Hinv).
  rewrite Hpt in Hpt'. injection Hpt' as <-.
  rewrite (wf_len self Hwf) in Hwhile.
  pose proof Hwhile as Hpasses.
  apply (climb_while_local (Breaker._quadgrams self) (Breaker._alphabet self)
           cipher_bin (wf_table self Hwf) (wf_short self Hwf) Hlong key)
    in Hwhile as (Hinv' & Hscored & Hlocal); [|done|by left|done].
  apply (climb_while_passes (Breaker._quadgrams self) (Breaker._alphabet self)
           cipher_bin (wf_table self Hwf) (wf_short self Hwf) Hlong)
    in Hpasses as (_ & passes & Hn & Hone & Hle); [|done|simpl; lia].
  simpl in Hn, Hone, Hle.
  exists (Breaker.c_max_fitness s'), (Breaker.c_nbr_keys s'),
    (Breaker.c_key s'), passes.
  split; [done|]. split; [done|]. split.
  { destruct Hscored as [?|[Hpos Hscore]]; [by left|right].
    split; [done|]. exists (Breaker.c_plaintext s'). split; [apply Hinv'|done]. }
  split; [done|]. split; [lia|]. split; [by apply Hone|lia].
Qed.

(** The climb of [_hill_climbing] returns a key that is a local maximum:
    no exchange of two of its entries gives a plaintext that scores more
    than the returned fitness.  The fitness is 0 with the key as it was
    given when no trial was accepted, and otherwise it is positive and the
    score of the plaintext that the returned key gives. *)
Theorem hill_climbing_local_maximum (self : Breaker.t) (fuel : nat)
    (key cipher_bin : list nat) :
  wf self →
  Forall (λ c, c < length (Breaker._alphabet self)) cipher_bin →
  3 ≤ length cipher_bin →
  key ≡ₚ seq 0 (length (Breaker._alphabet self)) →
  climb_fuel (Breaker._quadgrams self) cipher_bin ≤ fuel →
  ∃ fitness nbr_keys key',
    Breaker._hill_climbing self fuel key cipher_bin
      (Breaker.build_char_positions (Breaker._alphabet self) cipher_bin)
    = Ok (fitness, nbr_keys, key')
    ∧ ((fitness = 0%Z ∧ key' = key)
       ∨ ((0 < fitness)%Z
          ∧ ∃ plaintext,
              deciphers key' cipher_bin plaintext
              ∧ text_score (Breaker._quadgrams self) plaintext = fitness))
    ∧ no_better_swap (Breaker._quadgrams self)
        (length (Breaker._alphabet self)) cipher_bin key' fitness.
Proof.
  intros Hwf Hsym Hlong Hperm Hfuel.
  destruct (hill_climbing_climb self fuel key cipher_bin Hwf Hsym Hlong Hperm
              Hfuel)
    as (fitness & nbr_keys & key' & _ & Hrun & _ & Hscored & Hlocal & _).
  by exists fitness, nbr_keys, key'.
Qed.

Lemma hill_climbing_local_maximum_witness :
  ∃ fitness nbr_keys key',
    Breaker._hill_climbing toy
      (climb_fuel (Breaker._quadgrams toy) [0; 1; 2; 3; 0]) [0; 1; 2; 3]
      [0; 1; 2; 3; 0]
      (Breaker.build_char_positions (Breaker._alphabet toy) [0; 1; 2; 3; 0])
    = Ok (fitness, nbr_keys, key')
    ∧ ((fitness = 0%Z ∧ key' = [0; 1; 2; 3])
       ∨ ((0 < fitness)%Z
          ∧ ∃ plaintext,
              deciphers key' [0; 1; 2; 3; 0] plaintext
              ∧ text_score (Breaker._quadgrams toy) plaintext = fitness))
    ∧ no_better_swap (Breaker._quadgrams toy)
        (length (Breaker._alphabet toy)) [0; 1; 2; 3; 0] key' fitness.
Proof.
  apply (hill_climbing_local_maximum toy _ [0; 1; 2; 3] [0; 1; 2; 3; 0] toy_wf).
  - repeat constructor; simpl; lia.
  - simpl. lia.
  - reflexivity.
  - apply Nat.le_refl.
Defined.

(** A climb tries whole passes of n(n-1)/2 keys each, n the length of the
    alphabet: at least one pass, and at most one more than the fitness it
    returns, since every pass but the last raises the integer score. *)
Theorem hill_climbing_nbr_keys (self : Breaker.t) (fuel : nat)
    (key cipher_bin : list nat) :
  wf self →
  Forall (λ c, c < length (Breaker._alphabet self)) cipher_bin →
  3 ≤ length cipher_bin →
  key ≡ₚ seq 0 (length (Breaker._alphabet self)) →
  climb_fuel (Breaker._quadgrams self) cipher_bin ≤ fuel →
  ∃ fitness nbr_keys key' passes,
    Breaker._hill_climbing self fuel key cipher_bin
      (Breaker.build_char_positions (Breaker._alphabet self) cipher_bin)
    = Ok (fitness, nbr_keys, key')
    ∧ nbr_keys = passes * pairs (length (Breaker._alphabet self))
    ∧ 1 ≤ passes
    ∧ (Z.of_nat passes ≤ fitness + 1)%Z.
Proof.
  intros Hwf Hsym Hlong Hperm Hfuel.
  destruct (hill_climbing_climb self fuel key cipher_bin Hwf Hsym Hlong Hperm
              Hfuel)
    as (fitness & nbr_keys & key' & passes & Hrun & _ & _ & _ & Hn & Hp).
  by exists fitness, nbr_keys, key', passes.
Qed.

Lemma hill_climbing_nbr_keys_witness :
  ∃ fitness nbr_keys key' passes,
    Breaker._hill_climbing toy
      (climb_fuel (Breaker._quadgrams toy) [0; 1; 2; 3; 0]) [0; 1; 2; 3]
      [0; 1; 2; 3; 0]
      (Breaker.build_char_positions (Breaker._alphabet toy) [0; 1; 2; 3; 0])
    = Ok (fitness, nbr_keys, key')
    ∧ nbr_keys = passes * pairs (length (Breaker._alphabet toy))
    ∧ 1 ≤ passes
    ∧ (Z.of_nat passes ≤ fitness + 1)%Z.
Proof.
  apply (hill_climbing_nbr_keys toy _ [0; 1; 2; 3] [0; 1; 2; 3; 0] toy_wf).
  - repeat constructor; simpl; lia.
  - simpl. lia.
  - reflexivity.
  - apply Nat.le_refl.
Defined.

(** ** The plaintext of a key and its symbols *)

Lemma text_iterator_cons (c : ascii) (txt alphabet : str) :
  Breaker._text_iterator (c :: txt) alphabet
  = match Breaker.trans alphabet !! char_lower c with
    | Some n => n :: Breaker._text_iterator txt alphabet
    | None => Breaker._text_iterator txt alphabet
    end.
Proof. done. Qed.

Lemma trans_Some (alphabet : str) (p : nat) (x : ascii) :
  NoDup (lower alphabet) →
  lower alphabet !! p = Some x →
  Breaker.trans alphabet !! x = Some p.
Proof.
  intros Hnd Hx. destruct (Breaker.trans alphabet !! x) as [p'|] eqn:Hp.
  - apply trans_lookup in Hp. f_equal. by eapply NoDup_lookup.
  - apply trans_None in Hp. destruct Hp. by eapply list_elem_of_lookup_2.
Qed.

Lemma comprehension_lookup {A B : Type} (f : A → res B) (l : list A)
    (ys : list B) (i : nat) (x : A) :
  comprehension f l = Ok ys → l !! i = Some x →
  ∃ y, f x = Ok y ∧ ys !! i = Some y.
Proof.
  revert ys i. induction l as [|a l IH]; intros ys i Hc Hi; [done|].
  simpl in Hc. apply bind_Ok in Hc as (y & Hy & Hc).
  apply bind_Ok in Hc as (ys' & Hys & [= <-]).
  destruct i as [|i]; simpl in *.
  - injection Hi as <-. by exists y.
  - by apply (IH ys' i).
Qed.

Lemma deciphers_unique (key cipher_bin pt1 pt2 : list nat) :
  NoDup key →
  deciphers key cipher_bin pt1 → deciphers key cipher_bin pt2 → pt1 = pt2.
Proof.
  intros Hnd H1. revert pt2. induction H1 as [|p c pt1 cb Hp _ IH];
    intros pt2 H2; inversion H2 as [|p' c' pt2' cb' Hp' H2']; subst; [done|].
  f_equal; [by eapply NoDup_lookup|by apply IH].
Qed.

(** Decoding with the key that renders [best_key] and projecting onto the
    alphabet gives the ciphertext read through the inverse of [best_key]:
    the text that [break_cipher] returns is the text that the climb
    scored. *)
Lemma decode_projection (alphabet key_str ciphertext : str) (K : Key.t)
    (best_key : list nat) :
  NoDup (lower alphabet) →
  best_key ≡ₚ seq 0 (length alphabet) →
  comprehension (λ x, getitem alphabet x) best_key = Ok key_str →
  Key.__init__ key_str alphabet = Ok K →
  deciphers best_key (Breaker._text_iterator ciphertext alphabet)
    (Breaker._text_iterator (Key.decode K ciphertext) alphabet).
Proof.
  intros Hnd Hperm Hrender Hinit.
  destruct (Key_tables _ _ _ Hinit) as [_ HD].
  apply Key_init_Ok in Hinit as (Hnda & Hndk & Hlen & Hset & _ & _).
  destruct (permutation_seq_facts _ _ Hperm) as (Hblen & _ & Hlt & Hall).
  unfold Key.decode, translate. rewrite HD. clear HD.
  set (D := foldl _ _ _).
  induction ciphertext as [|ch ciphertext IH]; [constructor|].
  rewrite fmap_cons, !text_iterator_cons.
  destruct (Breaker.trans alphabet !! char_lower ch) as [c|] eqn:Hc.
  - pose proof (trans_lookup _ _ _ Hc) as Hac.
    destruct (Hall c) as (p & Hp).
    { apply lookup_lt_Some in Hac. by rewrite length_lower in Hac. }
    destruct (comprehension_lookup _ _ _ _ _ Hrender Hp) as (y & Hy & Hkp).
    apply getitem_Ok in Hy.
    assert (lower key_str !! p = Some (char_lower ch)) as Hkl.
    { unfold lower in *. rewrite list_lookup_fmap, Hkp. simpl.
      rewrite list_lookup_fmap, Hy in Hac. simpl in Hac. done. }
    destruct (lookup_lt_is_Some_2 (lower alphabet) p) as [x Hx].
    { rewrite length_lower. apply lookup_lt_Some in Hp. lia. }
    assert (char_lower (default ch (D !! ch)) = x) as Hdec.
    { unfold D.
      rewrite <- (table_lower (lower key_str) (lower alphabet) Hlen Hndk
                    (lower_fixed _) (lower_fixed _) ch).
      by rewrite (table_symbol _ _ Hlen Hndk p (char_lower ch) x). }
    rewrite Hdec, (trans_Some alphabet p x Hnd Hx). by constructor.
  - apply trans_None in Hc.
    assert (D !! ch = None) as ->.
    { unfold D. apply table_other; [done|].
      apply lower_notin_alphabet; [apply lower_fixed|]. by rewrite Hset. }
    simpl. destruct (Breaker.trans alphabet !! char_lower ch) as [n|] eqn:Hn.
    + apply trans_lookup in Hn. destruct Hc. by eapply list_elem_of_lookup_2.
    + done.
Qed.

(** ** The rounds of [break_cipher] *)

Section rounds_inv.

Context {RNG : Type} (shuffle : RNG → list nat → list nat * RNG).
Context (self : Breaker.t) (fuel : nat) (cipher_bin : list nat)
        (consolidate : Z).
Hypothesis shuffle_permutation : ∀ g key, (shuffle g key).1 ≡ₚ key.
Hypothesis self_wf : wf self.
Hypothesis cipher_symbols :
  Forall (λ c, c < length (Breaker._alphabet self)) cipher_bin.
Hypothesis cipher_long : 3 ≤ length cipher_bin.
Hypothesis enough_fuel : climb_fuel (Breaker._quadgrams self) cipher_bin ≤ fuel.

Local Abbreviation n := (length (Breaker._alphabet self)).
Local Abbreviation inv := (rounds_inv (Breaker._quadgrams self) n cipher_bin).

Lemma record_climb_inv (round_cntr : nat) (key key' : list nat) (fitness : Z)
    (nbr_keys passes : nat) (s : Breaker.rounds) :
  inv s →
  key' ≡ₚ seq 0 n →
  (fitness = 0%Z ∧ key' = key)
  ∨ ((0 < fitness)%Z
     ∧ ∃ plaintext,
         deciphers key' cipher_bin plaintext
         ∧ text_score (Breaker._quadgrams self) plaintext = fitness) →
  no_better_swap (Breaker._quadgrams self) n cipher_bin key' fitness →
  nbr_keys = passes * pairs n →
  1 ≤ passes →
  inv (Breaker.record_climb consolidate round_cntr key' fitness nbr_keys s).1.
Proof.
  intros [Hk Hb (ps & Hps & Hn) Hbest] Hperm Hscored Hlocal Hnbr Hpasses.
  assert (∃ passes', length (Breaker.r_climbs s ++ [(fitness, nbr_keys)])
                     ≤ passes'
                     ∧ Breaker.r_nbr_keys s + nbr_keys = passes' * pairs n)
    as Hcount.
  { exists (ps + passes). rewrite length_app. simpl. split; [lia|].
    rewrite Hn, Hnbr. lia. }
  assert (0 ≤ Breaker.r_local_maximum s)%Z as Hnonneg.
  { destruct Hbest as [[-> _]|[? _]]; lia. }
  unfold Breaker.record_climb.
  destruct (Z.gtb_spec fitness (Breaker.r_local_maximum s)) as [Hgt|Hle].
  - split; simpl; try done. right. split; [lia|].
    destruct Hscored as [[-> _]|[_ Hpt]]; [lia|]. by split.
  - destruct (fitness =? Breaker.r_local_maximum s)%Z; by split.
Qed.

Lemma break_rounds_inv (round_cntrs : list nat) (s : Breaker.rounds) (g : RNG) :
  inv s →
  ∃ s' g',
    Breaker.break_rounds RNG shuffle self fuel cipher_bin
      (Breaker.build_char_positions (Breaker._alphabet self) cipher_bin)
      consolidate round_cntrs s g = (Ok s', g')
    ∧ inv s'.
Proof.
  revert s g. induction round_cntrs as [|r round_cntrs IH]; intros s g Hs.
  - by exists s, g.
  - rewrite break_rounds_cons.
    destruct (hill_climbing_climb self fuel (shuffle g (Breaker.r_key s)).1
                cipher_bin self_wf cipher_symbols cipher_long)
      as (fitness & nbr & key' & passes & -> & Hk' & Hscored & Hlocal & Hn
          & Hone & _); [|done|].
    { rewrite shuffle_permutation. apply Hs. }
    pose proof (record_climb_inv r _ key' fitness nbr passes s Hs Hk' Hscored
                  Hlocal Hn Hone) as Hs1.
    destruct (Breaker.record_climb _ _ _ _ _ _) as [s1 stop]. simpl in *.
    destruct stop; [by eexists _, _|by apply IH].
Qed.

Lemma break_rounds_length (char_positions : list (list nat))
    (round_cntrs : list nat) (s s' : Breaker.rounds) (g g' : RNG) :
  Breaker.break_rounds RNG shuffle self fuel cipher_bin char_positions
    consolidate round_cntrs s g = (Ok s', g') →
  length (Breaker.r_climbs s')
  ≤ length (Breaker.r_climbs s) + length round_cntrs.
Proof.
  revert s g. induction round_cntrs as [|r round_cntrs IH]; intros s g.
  - intros [= <- <-]. simpl. lia.
  - rewrite break_rounds_cons.
    destruct (Breaker._hill_climbing _ _ _ _ _) as [[[fitness nbr] key']| |];
      try done.
    pose proof (record_climb_fields consolidate r key' fitness nbr s)
      as (_ & _ & _ & Hclimbs).
    destruct (Breaker.record_climb _ _ _ _ _ _) as [s1 stop].
    simpl in Hclimbs |- *. destruct stop.
    + intros [= <- <-]. rewrite Hclimbs, length_app. simpl. lia.
    + intros H%IH. rewrite Hclimbs, length_app in H. simpl in H. lia.
Qed.

End rounds_inv.

(** ** What [break_cipher] returns *)

(** A run of [break_cipher] that passes the checks, with all that it
    computes on the way. *)
Lemma break_cipher_run {RNG : Type}
    (shuffle : RNG → list nat → list nat * RNG) (self : Breaker.t) (g : RNG)
    (seconds : Q) (fuel : nat) (ciphertext : str) (max_rounds consolidate : Z) :
  (1 ≤ max_rounds ≤ 10000)%Z →
  (1 ≤ consolidate ≤ 30)%Z →
  let cipher_bin := Breaker._text_iterator ciphertext (Breaker._alphabet self) in
  4 ≤ length cipher_bin →
  wf self →
  (∀ g key, (shuffle g key).1 ≡ₚ key) →
  ¬ (seconds == 0)%Q →
  climb_fuel (Breaker._quadgrams self) cipher_bin ≤ fuel →
  ∃ s g' key_str K r,
    Breaker.search RNG shuffle self g fuel ciphertext max_rounds consolidate
    = (Ok (cipher_bin, s), g')
    ∧ rounds_inv (Breaker._quadgrams self) (length (Breaker._alphabet self))
        cipher_bin s
    ∧ comprehension (λ x, getitem (Breaker._alphabet self) x)
        (Breaker.r_best_key s) = Ok key_str
    ∧ key_str ≡ₚ Breaker._alphabet self
    ∧ Key.__init__ key_str (Breaker._alphabet self) = Ok K
    ∧ Breaker.r_round_cntr s = Some r
    ∧ length (Breaker.r_climbs s) = S r
    ∧ (Z.of_nat r < max_rounds)%Z
    ∧ Breaker.break_cipher RNG shuffle self g seconds fuel ciphertext
        max_rounds consolidate
      = (Ok {| BreakerResult.ciphertext := ciphertext;
               BreakerResult.plaintext := Key.decode K ciphertext;
               BreakerResult.key := key_str;
               BreakerResult.alphabet := Breaker._alphabet self;
               BreakerResult.fitness :=
                 (inject_Z (Breaker.r_local_maximum s)
                  / inject_Z (Z.of_nat (length cipher_bin) - 3) / 10)%Q;
               BreakerResult.nbr_keys := Breaker.r_nbr_keys s;
               BreakerResult.nbr_rounds := r;
               BreakerResult.keys_per_second :=
                 round3 (inject_Z (Z.of_nat (Breaker.r_nbr_keys s)) / seconds)%Q;
               BreakerResult.seconds := seconds |},
         Breaker.mk (Breaker._alphabet self) (Breaker._alphabet_len self)
           (Breaker._quadgrams self) (Breaker.info self) (Some K),
         g').
Proof.
  intros Hm Hc cipher_bin Hlong Hwf Hshuffle Hsec Hfuel.
  destruct (break_rounds_inv shuffle self fuel cipher_bin consolidate
              Hshuffle Hwf (text_iterator_lt _ _) ltac:(lia) Hfuel
              (range 0 (Z.to_nat max_rounds))
              (Breaker.mkRounds (range 0 (length (Breaker._alphabet self)))
                 (range 0 (length (Breaker._alphabet self))) 0 0%Z 1%Z None []) g)
    as (s & g' & Hrounds & Hinv).
  { unfold range. rewrite Nat.sub_0_r. split; simpl; try done.
    - exists 0. split; [lia|lia].
    - by left. }
  assert (Breaker.search RNG shuffle self g fuel ciphertext max_rounds
            consolidate = (Ok (cipher_bin, s), g')) as Hsearch.
  { unfold Breaker.search.
    destruct (Z.leb_spec 1 max_rounds), (Z.leb_spec max_rounds 10000); try lia.
    destruct (Z.leb_spec 1 consolidate), (Z.leb_spec consolidate 30); try lia.
    simpl. fold cipher_bin. rewrite decide_False by lia. by rewrite Hrounds. }
  pose proof Hrounds as Hcntr. unfold range in Hcntr.
  apply break_rounds_cntr in Hcntr as (r & Hr & Hclimbs); [|done|left; lia].
  pose proof Hrounds as Hle. apply break_rounds_length in Hle; [|lia|done].
  unfold range in Hle. rewrite length_seq in Hle. simpl in Hle.
  unfold Breaker.break_cipher. rewrite Hsearch.
  destruct (render_key _ _ (ri_best_key _ _ _ _ Hinv)) as (key_str & Hkey & Hperm).
  rewrite Hkey. simpl.
  destruct (Key_init_Permutation key_str (Breaker._alphabet self)
              (wf_unique self Hwf) Hperm) as (K & HK).
  rewrite HK. simpl. rewrite decide_False by lia. rewrite Hr. simpl.
  destruct (Qeq_bool seconds 0) eqn:Hq; [by apply Qeq_bool_iff in Hq|].
  exists s, g', key_str, K, r. repeat split; try done; try apply Hinv; lia.
Qed.

Lemma render_identity (alphabet : str) :
  comprehension (λ x, getitem alphabet x) (seq 0 (length alphabet))
  = Ok alphabet.
Proof.
  assert (∀ (pre : str),
            comprehension (λ x, getitem (pre ++ alphabet) x)
              (seq (length pre) (length alphabet)) = Ok alphabet) as Hgen.
  { induction alphabet as [|c alphabet IH]; intros pre; [done|].
    cbn [length seq comprehension].
    assert (getitem (pre ++ c :: alphabet) (length pre) = Ok c) as ->.
    { unfold getitem. by rewrite list_lookup_middle. }
    specialize (IH (pre ++ [c])). rewrite <- app_assoc in IH.
    rewrite length_app in IH. cbn [length app] in IH.
    replace (length pre + 1) with (S (length pre)) in IH by lia.
    simpl. by rewrite IH. }
  apply (Hgen []).
Qed.







(** ** The model that [generate_quadgrams] writes *)

Lemma quadgram_codes_cons (a b c d : nat) (rest : list nat) :
  quadgram_codes (a :: b :: c :: d :: rest)
  = quadgram_code a b c d :: quadgram_codes (b :: c :: d :: rest).
Proof. done. Qed.

#[global] Arguments quadgram_codes : simpl never.

(** A count that the loop made positive is the count of a quadgram of the
    text. *)
Lemma count_loop_codes (rest : list nat) (a b c : nat) (v v' : Z)
    (counts counts' : list Z) :
  a < 32 → b < 32 → c < 32 → Forall (λ d, d < 32) rest →
  length counts = Breaker.table_size →
  (v mod 32768 = (Z.of_nat a * 32 + Z.of_nat b) * 32 + Z.of_nat c)%Z →
  for_ rest Breaker.count_step (v, counts) = Ok (v', counts') →
  ∀ i x, counts' !! i = Some x → x ≠ 0%Z →
    (∃ x0, counts !! i = Some x0 ∧ x0 ≠ 0%Z)
    ∨ Z.of_nat i ∈ quadgram_codes (a :: b :: c :: rest).
Proof.
  intros Ha Hb Hc Hrest. revert a b c v counts Ha Hb Hc.
  induction Hrest as [|d rest Hd _ IH]; intros a b c v counts Ha Hb Hc Hlen Hv.
  - intros [= <- <-] i x Hx Hx0. left. by exists x.
  - rewrite for__cons.
    destruct (count_step_Ok d v counts Hd Hlen) as (old & Hold & ->). simpl.
    assert (Breaker.quad_next v d = quadgram_code a b c d) as Hq.
    { by rewrite quad_next_eq, Hv. }
    rewrite Hq in *. intros Hloop i x Hx Hx0.
    rewrite quadgram_codes_cons.
    assert (length (<[Z.to_nat (quadgram_code a b c d):=(old + 1)%Z]> counts)
            = Breaker.table_size) as Hlen' by (by rewrite length_insert).
    pose proof (quadgram_code_mod a b c d Ha Hb Hc Hd) as Hmod.
    destruct (IH b c d _ _ Hb Hc Hd Hlen' Hmod Hloop i x Hx Hx0)
      as [(x0 & Hx1 & Hx10)|Hin]; [|right; by right].
    destruct (decide (i = Z.to_nat (quadgram_code a b c d))) as [->|Hne].
    + right. pose proof (quadgram_code_range a b c d Ha Hb Hc Hd).
      rewrite Z2Nat.id by lia. by left.
    + left. exists x0. by rewrite list_lookup_insert_ne in Hx1.
Qed.

Lemma index_first {A : Type} `{EqDecision A} (l : list A) (x : A) (i : nat) :
  index l x = Ok i → l !! i = Some x ∧ ∀ j, j < i → l !! j ≠ Some x.
Proof.
  revert i. induction l as [|y l IH]; intros i; [done|]. simpl.
  destruct (decide (y = x)) as [->|Hne].
  - intros [= <-]. split; [done|]. intros; lia.
  - intros (i' & Hi' & [= <-])%bind_Ok. destruct (IH i' Hi') as [Hx Hfirst].
    split; [done|]. intros [|j] Hj; simpl; [by intros [= ?]|].
    apply Hfirst. lia.
Qed.

(** The four characters of a reachable code, the first symbol first. *)
Lemma quadgram_chars_spec (alphabet : str) (max_idx : nat) :
  reachable_code (length alphabet) (Z.of_nat max_idx) →
  ∃ max_chars rest,
    Breaker.quadgram_chars alphabet max_idx = Ok (max_chars, rest)
    ∧ Forall2 (λ ch k,
                 alphabet !! Z.to_nat (field k (Z.of_nat max_idx)) = Some ch)
        max_chars [3; 2; 1; 0].
Proof.
  unfold Breaker.quadgram_chars. generalize (Z.of_nat max_idx). intros code.
  intros Hreach.
  assert (∀ k, k < 4 → ∃ char,
            getitemZ alphabet (field k code) = Ok char
            ∧ alphabet !! Z.to_nat (field k code) = Some char) as Hchar.
  { intros k Hk. pose proof (Hreach k Hk) as Hlt.
    assert (0 ≤ field k code)%Z as Hpos.
    { rewrite field_eq. apply Z.mod_pos_bound. lia. }
    rewrite getitemZ_nonneg by done.
    destruct (getitem_lt alphabet (Z.to_nat (field k code)) ltac:(lia))
      as (char & -> & Hc). by eexists. }
  unfold range. simpl seq. rewrite !for__cons. simpl for_.
  destruct (Hchar 0 ltac:(lia)) as (ch0 & H0 & L0).
  destruct (Hchar 1 ltac:(lia)) as (ch1 & H1 & L1).
  destruct (Hchar 2 ltac:(lia)) as (ch2 & H2 & L2).
  destruct (Hchar 3 ltac:(lia)) as (ch3 & H3 & L3).
  repeat rewrite field_succ in H1. repeat rewrite field_succ in H2.
  repeat rewrite field_succ in H3. rewrite field_0 in H0, H1, H2, H3.
  rewrite H0. simpl. rewrite H1. simpl. rewrite H2. simpl. rewrite H3. simpl.
  eexists _, _. split; [done|]. by repeat constructor.
Qed.

(** A run of [generate_quadgrams] on a corpus of at least four symbols,
    with what it computes on the way. *)
Lemma generate_quadgrams_run (ln : Q → Q) (corpus_fh : list str)
    (alphabet : str) :
  (∀ x y, (0 < x)%Q → (10 * x <= y)%Q → (ln x < ln y)%Q) →
  NoDup (lower alphabet) →
  length alphabet ≤ 32 →
  let symbols := Breaker._file_iterator corpus_fh alphabet in
  4 ≤ length symbols →
  ∃ obj max_idx,
    Breaker.generate_quadgrams ln corpus_fh alphabet = Ok obj
    ∧ QuadgramFile.alphabet obj = lower alphabet
    ∧ QuadgramFile.nbr_quadgrams obj = Z.of_nat (length symbols - 3)
    ∧ length (QuadgramFile.quadgrams obj) = Breaker.table_size
    ∧ (∀ i s, QuadgramFile.quadgrams obj !! i = Some s →
         (0 ≤ s ≤ QuadgramFile.max_fitness obj)%Z)
    ∧ QuadgramFile.quadgrams obj !! max_idx
      = Some (QuadgramFile.max_fitness obj)
    ∧ (∀ j, j < max_idx →
         QuadgramFile.quadgrams obj !! j ≠ Some (QuadgramFile.max_fitness obj))
    ∧ Forall2 (λ ch k,
                 lower alphabet !! Z.to_nat (field k (Z.of_nat max_idx))
                 = Some ch)
        (QuadgramFile.most_frequent_quadgram obj) [3; 2; 1; 0]
    ∧ (∀ i s, QuadgramFile.quadgrams obj !! i = Some s → s ≠ 0%Z →
         Z.of_nat i ∈ quadgram_codes symbols)
    ∧ QuadgramFile.average_fitness obj
      = (inject_Z (py_sum (QuadgramFile.quadgrams obj))
         / inject_Z (Z.of_nat (length alphabet) ^ 4))%Q.
Proof.
  intros Hln Hnd Hshort symbols Hlong. unfold Breaker.generate_quadgrams.
  assert (Key.check_alphabet alphabet = Ok (lower alphabet)) as ->.
  { unfold Key.check_alphabet. rewrite decide_False; [done|].
    unfold set. rewrite size_list_to_set by done. lia. }
  simpl. rewrite decide_False by (rewrite length_lower; lia).
  rewrite file_iterator_lower.
  pose proof (file_iterator_lt corpus_fh alphabet) as Hsym.
  fold symbols in Hsym |- *. clearbody symbols.
  destruct symbols as [|c0 [|c1 [|c2 iterator]]]; simpl in Hlong; try lia.
  apply Forall_cons_1 in Hsym as [Hc0 Hsym].
  apply Forall_cons_1 in Hsym as [Hc1 Hsym].
  apply Forall_cons_1 in Hsym as [Hc2 Hsym].
  set (n := length alphabet) in *.
  (* the counts *)
  unfold Breaker.count_quadgrams.
  assert ((Z.shiftl (Z.shiftl (Z.of_nat c0) 5 + Z.of_nat c1) 5 + Z.of_nat c2)
            mod 32768
          = (Z.of_nat c0 * 32 + Z.of_nat c1) * 32 + Z.of_nat c2)%Z as Hwin.
  { rewrite !Z.shiftl_mul_pow2 by lia. change (2 ^ 5)%Z with 32%Z.
    apply Z.mod_small. nia. }
  destruct (count_quadgrams_inv n iterator
              ((Z.shiftl (Z.shiftl (Z.of_nat c0) 5 + Z.of_nat c1) 5
                + Z.of_nat c2)%Z, replicate Breaker.table_size 0%Z))
    as ([q counts] & Hcount & Hinv & Hsum); [done|done| |].
  { split; [apply length_replicate|]. split.
    - exists (Z.of_nat c0), (Z.of_nat c1), (Z.of_nat c2).
      repeat split; try lia. exact Hwin.
    - intros i v [-> _]%lookup_replicate. by split. }
  rewrite Hcount.
  assert (∀ i x, counts !! i = Some x → x ≠ 0%Z →
            Z.of_nat i ∈ quadgram_codes (c0 :: c1 :: c2 :: iterator)) as Hcodes.
  { intros i x Hx Hx0.
    assert (Forall (λ d, d < 32) iterator) as H32.
    { eapply Forall_impl; [exact Hsym|]. intros d Hd. simpl in Hd. lia. }
    assert (c0 < 32 ∧ c1 < 32 ∧ c2 < 32) as (H0 & H1 & H2) by lia.
    destruct (count_loop_codes iterator c0 c1 c2 _ _ _ _ H0 H1 H2 H32
                (length_replicate Breaker.table_size 0%Z) Hwin Hcount i x Hx Hx0)
      as [(x0 & Hrep & Hne)|Hin]; [|exact Hin].
    apply lookup_replicate in Hrep as [-> _]. by destruct Hne. }
  simpl in Hsum. rewrite py_sum_replicate_0 in Hsum.
  destruct Hinv as (Hlen & _ & Hcounts). simpl in Hlen, Hcounts.
  simpl. rewrite length_lower. fold n.
  assert (0 < py_sum counts)%Z as Hsumpos by lia.
  rewrite decide_False by lia.
  assert (Forall (λ v, (0 ≤ v)%Z) counts) as Hnonneg.
  { apply Forall_lookup. intros i v Hv. by apply (Hcounts i v). }
  destruct (quadgram_min_spec counts 10000000 Hnonneg ltac:(lia)) as [Hmin Hminle].
  set (quadgram_min := foldl _ 10000000%Z counts) in *.
  (* the logarithms *)
  unfold Breaker.math_log at 1.
  destruct (floor_below_prop quadgram_min quadgram_min (py_sum counts)
              ltac:(lia) Hsumpos) as [Hfloor _].
  destruct (Qle_bool _ 0) eqn:Hle.
  { apply Qle_bool_iff in Hle. by apply Qle_not_lt in Hle. }
  simpl.
  destruct (log_scores_spec ln Hln (py_sum counts) quadgram_min Hsumpos
              ltac:(lia) counts 0%Q) as (logs & norm & -> & _ & Hnorm & Hlogs).
  { apply Forall_lookup. intros i v Hv. split; [by apply (Hcounts i v)|].
    intros Hv0. apply Hminle; [|done]. by eapply list_elem_of_lookup_2. }
  { apply Qle_refl. }
  assert (0 < norm)%Q as Hnormpos.
  { apply Hnorm. destruct (py_sum_pos_elem counts Hnonneg Hsumpos) as (v & Hv & Hpos).
    exists v. split; [done|lia]. }
  simpl.
  (* the scores *)
  set (score := λ val : Q, py_round (val / norm * 1000)%Q).
  rewrite (comprehension_fmap _ score).
  2:{ apply Forall_true. intros val.
      destruct (Qeq_bool norm 0) eqn:Hq; [|done].
      apply Qeq_bool_iff in Hq. rewrite Hq in Hnormpos.
      by apply Qlt_irrefl in Hnormpos. }
  simpl.
  assert (length (score <$> logs) = Breaker.table_size) as Hlenscores.
  { by rewrite length_fmap, <- (Forall2_length _ _ _ Hlogs). }
  assert (∀ i s, (score <$> logs) !! i = Some s →
            (0 ≤ s)%Z
            ∧ (s ≠ 0%Z → reachable_code n (Z.of_nat i)
                         ∧ Z.of_nat i
                           ∈ quadgram_codes (c0 :: c1 :: c2 :: iterator)))
    as Hscores.
  { intros i s Hs. rewrite list_lookup_fmap in Hs.
    destruct (logs !! i) as [lg|] eqn:Hlg; [|done]. injection Hs as <-.
    destruct (Forall2_lookup_r _ _ _ _ _ Hlogs Hlg) as (v & Hv & Hpos & Hzero).
    split.
    - apply py_round_nonneg. apply Qmult_le_0_compat; [|done].
      apply Qle_shift_div_l; [done|]. by rewrite Qmult_0_l.
    - intros Hs.
      assert (v ≠ 0%Z) as Hv0.
      { intros ->. apply Hs. unfold score. rewrite (Hzero eq_refl).
        apply py_round_zero. unfold Qdiv. by rewrite !Qmult_0_l. }
      split; [by apply (Hcounts i v Hv)|by apply (Hcodes i v)]. }
  (* the most frequent quadgram *)
  destruct (py_max_spec (score <$> logs)) as (m & -> & Hmin' & Hmax).
  { intros Hnil. rewrite Hnil in Hlenscores. pose proof table_size_eq.
    simpl in Hlenscores. lia. }
  simpl.
  assert (∃ max_idx, index (score <$> logs) m = Ok max_idx
            ∧ (score <$> logs) !! max_idx = Some m
            ∧ reachable_code n (Z.of_nat max_idx)) as (max_idx & Hindex & Hidx & Hreach).
  { destruct (decide (m = 0%Z)) as [->|Hm0].
    - exists 0. assert ((score <$> logs) !! 0 = Some 0%Z) as H0.
      { destruct (lookup_lt_is_Some_2 (score <$> logs) 0) as [s Hs].
        { pose proof table_size_eq. lia. }
        rewrite Hs. f_equal. destruct (Hscores 0 s Hs) as [Hpos _].
        pose proof (Hmax s (list_elem_of_lookup_2 _ _ _ Hs)). lia. }
      split; [by apply index_head|]. split; [done|].
      apply reachable_zero. unfold n. lia.
    - destruct (index_Ok _ _ Hmin') as (i & Hi & Hlook).
      exists i. split; [done|]. split; [done|]. by apply (Hscores i m). }
  rewrite Hindex. simpl. rewrite (proj2 (getitem_Ok _ _ _) Hidx). simpl.
  destruct (quadgram_chars_spec (lower alphabet) max_idx)
    as (max_chars & idx' & -> & Hchars).
  { by rewrite length_lower. }
  simpl. eexists _, max_idx. split; [done|]. simpl.
  split; [done|]. split; [lia|]. split; [done|]. split.
  { intros i s Hs. split; [by apply (Hscores i s)|].
    apply Hmax. by eapply list_elem_of_lookup_2. }
  split; [done|]. split; [by apply (index_first _ _ _ Hindex)|].
  split; [done|]. split; [|done].
  intros i s Hs Hs0. by apply (Hscores i s).
Qed.

Lemma is_ascii_lower (s : str) : is_ascii s = true → is_ascii (lower s) = true.
Proof.
  unfold is_ascii, lower. rewrite !forallb_forall. intros Hs c Hc.
  apply in_map_iff in Hc as (c' & <- & Hc'). specialize (Hs c' Hc').
  revert Hs. clear. destruct c' as [[] [] [] [] [] [] [] []]; vm_compute; congruence.
Qed.

(** The model that [generate_quadgrams] writes can be loaded and used: the
    breaker that [Breaker.__init__] builds from it has the alphabet in
    lower case, at most 32 unique symbols and a table of 32^4 entries, which
    is what the scoring loops and the hill climber rely on. *)
Theorem generated_model_is_well_formed (ln : Q → Q) (corpus_fh : list str)
    (alphabet : str) :
  (∀ x y, (0 < x)%Q → (10 * x <= y)%Q → (ln x < ln y)%Q) →
  is_ascii alphabet = true →
  Forall (λ line, is_ascii line = true) corpus_fh →
  NoDup (lower alphabet) →
  length alphabet ≤ 32 →
  4 ≤ length (Breaker._file_iterator corpus_fh alphabet) →
  ∃ obj,
    Breaker.generate_quadgrams ln corpus_fh alphabet = Ok obj
    ∧ wf (Breaker.__init__ obj)
    ∧ Breaker._alphabet (Breaker.__init__ obj) = lower alphabet
    ∧ BreakerInfo.nbr_quadgrams (Breaker.info (Breaker.__init__ obj))
      = Z.of_nat (length (Breaker._file_iterator corpus_fh alphabet) - 3).
Proof.
  intros Hln Hascii _ Hnd Hshort Hlong.
  destruct (generate_quadgrams_run ln corpus_fh alphabet Hln Hnd Hshort Hlong)
    as (obj & max_idx & Hgen & Halpha & Hnbr & Hlen & _).
  exists obj. split; [done|]. split; [|by split].
  split; simpl; rewrite ?Halpha.
  - by apply is_ascii_lower.
  - by rewrite lower_idemp.
  - by rewrite length_lower.
  - done.
  - done.
Qed.

Lemma generated_model_is_well_formed_witness :
  ∃ obj,
    Breaker.generate_quadgrams (λ x, x)
      [str_of "The cab."; str_of "A bad deed"] (str_of "abcde") = Ok obj
    ∧ wf (Breaker.__init__ obj)
    ∧ Breaker._alphabet (Breaker.__init__ obj) = lower (str_of "abcde")
    ∧ BreakerInfo.nbr_quadgrams (Breaker.info (Breaker.__init__ obj))
      = Z.of_nat
          (length (Breaker._file_iterator
                     [str_of "The cab."; str_of "A bad deed"] (str_of "abcde"))
           - 3).
Proof.
  apply (generated_model_is_well_formed (λ x, x)
           [str_of "The cab."; str_of "A bad deed"] (str_of "abcde")).
  - intros x y Hx Hxy. lra.
  - reflexivity.
  - repeat constructor.
  - apply (bool_decide_unpack _). vm_compute. exact I.
  - simpl. lia.
  - vm_compute. lia.
Defined.

(** The table that [generate_quadgrams] writes.  Every score lies between 0
    and [max_fitness]; [max_fitness] is the score of the quadgram that
    [most_frequent_quadgram] spells, the first one in the order of the codes
    that has this score; and a quadgram that does not occur in the corpus
    has the score 0. *)
Theorem generate_quadgrams_scores (ln : Q → Q) (corpus_fh : list str)
    (alphabet : str) :
  (∀ x y, (0 < x)%Q → (10 * x <= y)%Q → (ln x < ln y)%Q) →
  is_ascii alphabet = true →
  Forall (λ line, is_ascii line = true) corpus_fh →
  NoDup (lower alphabet) →
  length alphabet ≤ 32 →
  4 ≤ length (Breaker._file_iterator corpus_fh alphabet) →
  ∃ obj max_idx,
    Breaker.generate_quadgrams ln corpus_fh alphabet = Ok obj
    ∧ (∀ i s, QuadgramFile.quadgrams obj !! i = Some s →
         (0 ≤ s ≤ QuadgramFile.max_fitness obj)%Z)
    ∧ QuadgramFile.quadgrams obj !! max_idx
      = Some (QuadgramFile.max_fitness obj)
    ∧ (∀ j, j < max_idx →
         QuadgramFile.quadgrams obj !! j ≠ Some (QuadgramFile.max_fitness obj))
    ∧ Forall2 (λ ch k,
                 lower alphabet !! Z.to_nat (field k (Z.of_nat max_idx))
                 = Some ch)
        (QuadgramFile.most_frequent_quadgram obj) [3; 2; 1; 0]
    ∧ (∀ i, i < Breaker.table_size →
         Z.of_nat i
         ∉ quadgram_codes (Breaker._file_iterator corpus_fh alphabet) →
         QuadgramFile.quadgrams obj !! i = Some 0%Z).
Proof.
  intros Hln _ _ Hnd Hshort Hlong.
  destruct (generate_quadgrams_run ln corpus_fh alphabet Hln Hnd Hshort Hlong)
    as (obj & max_idx & Hgen & _ & _ & Hlen & Hrange & Hmax & Hfirst & Hchars
        & Hcodes & _).
  exists obj, max_idx. do 5 (split; [done|]).
  intros i Hi Hnin.
  destruct (lookup_lt_is_Some_2 (QuadgramFile.quadgrams obj) i) as [s Hs];
    [lia|].
  rewrite Hs. f_equal. destruct (decide (s = 0%Z)) as [->|Hs0]; [done|].
  destruct Hnin. by apply (Hcodes i s).
Qed.

Lemma generate_quadgrams_scores_witness :
  ∃ obj max_idx,
    Breaker.generate_quadgrams (λ x, x)
      [str_of "The cab."; str_of "A bad deed"] (str_of "abcde") = Ok obj
    ∧ (∀ i s, QuadgramFile.quadgrams obj !! i = Some s →
         (0 ≤ s ≤ QuadgramFile.max_fitness obj)%Z)
    ∧ QuadgramFile.quadgrams obj !! max_idx
      = Some (QuadgramFile.max_fitness obj)
    ∧ (∀ j, j < max_idx →
         QuadgramFile.quadgrams obj !! j ≠ Some (QuadgramFile.max_fitness obj))
    ∧ Forall2 (λ ch k,
                 lower (str_of "abcde") !! Z.to_nat (field k (Z.of_nat max_idx))
                 = Some ch)
        (QuadgramFile.most_frequent_quadgram obj) [3; 2; 1; 0]
    ∧ (∀ i, i < Breaker.table_size →
         Z.of_nat i
         ∉ quadgram_codes
             (Breaker._file_iterator
                [str_of "The cab."; str_of "A bad deed"] (str_of "abcde")) →
         QuadgramFile.quadgrams obj !! i = Some 0%Z).
Proof.
  apply (generate_quadgrams_scores (λ x, x)
           [str_of "The cab."; str_of "A bad deed"] (str_of "abcde")).
  - intros x y Hx Hxy. lra.
  - reflexivity.
  - repeat constructor.
  - apply (bool_decide_unpack _). vm_compute. exact I.
  - simpl. lia.
  - vm_compute. lia.
Defined.

(** The errors of [generate_quadgrams], and when each is raised: a repeated
    alphabet symbol, an alphabet of more than 32 symbols, a corpus with
    fewer than three symbols of the alphabet (the iterator is exhausted) and
    a corpus with exactly three (no quadgram is counted and the sum that
    divides is 0).  With four symbols or more the model is written. *)
Theorem generate_quadgrams_errors (ln : Q → Q) (corpus_fh : list str)
    (alphabet : str) :
  (∀ x y, (0 < x)%Q → (10 * x <= y)%Q → (ln x < ln y)%Q) →
  is_ascii alphabet = true →
  Forall (λ line, is_ascii line = true) corpus_fh →
  let symbols := Breaker._file_iterator corpus_fh alphabet in
  match Breaker.generate_quadgrams ln corpus_fh alphabet with
  | Ok _ => NoDup (lower alphabet) ∧ length alphabet ≤ 32 ∧ 4 ≤ length symbols
  | Raise e =>
      (e = AlphabetInvalid "alphabet characters must be unique"
       ∧ ¬ NoDup (lower alphabet))
      ∨ (e = AlphabetInvalid "Alphabet must have less or equal than 32 characters"
         ∧ NoDup (lower alphabet) ∧ 32 < length alphabet)
      ∨ (e = StopIteration
         ∧ NoDup (lower alphabet) ∧ length alphabet ≤ 32 ∧ length symbols < 3)
      ∨ (e = ZeroDivisionError
         ∧ NoDup (lower alphabet) ∧ length alphabet ≤ 32 ∧ length symbols = 3)
  | OutOfFuel => False
  end.
Proof.
  intros Hln _ _ symbols.
  destruct (decide (NoDup (lower alphabet))) as [Hnd|Hnd].
  2:{ unfold Breaker.generate_quadgrams, Key.check_alphabet.
      rewrite decide_True; [simpl; by left|].
      intros Hsz. by apply Hnd, NoDup_size_set. }
  destruct (decide (32 < length alphabet)) as [Hlong|Hshort].
  { unfold Breaker.generate_quadgrams, Key.check_alphabet.
    rewrite decide_False by (by intros Hsz; apply Hsz, NoDup_size_set).
    simpl. rewrite decide_True by (by rewrite length_lower).
    right. by left. }
  destruct (decide (4 ≤ length symbols)) as [H4|H4].
  { destruct (generate_quadgrams_run ln corpus_fh alphabet Hln Hnd
                ltac:(lia) H4) as (obj & _ & -> & _).
    split; [done|]. split; [lia|done]. }
  unfold Breaker.generate_quadgrams, Key.check_alphabet.
  rewrite decide_False by (by intros Hsz; apply Hsz, NoDup_size_set).
  simpl. rewrite decide_False by (rewrite length_lower; lia).
  rewrite file_iterator_lower. fold symbols.
  destruct symbols as [|c0 [|c1 [|c2 [|c3 rest]]]]; simpl in H4; try lia.
  - do 2 right. left. repeat split; try done; simpl; lia.
  - do 2 right. left. repeat split; try done; simpl; lia.
  - do 2 right. left. repeat split; try done; simpl; lia.
  - unfold Breaker.count_quadgrams. simpl.
    rewrite py_sum_replicate_0. rewrite decide_True by done.
    do 3 right. repeat split; try done. lia.
Qed.

Lemma generate_quadgrams_errors_witness :
  match Breaker.generate_quadgrams (λ x, x) [str_of "Ab"; str_of "c."]
          (str_of "abc") with
  | Ok _ =>
      NoDup (lower (str_of "abc")) ∧ length (str_of "abc") ≤ 32
      ∧ 4 ≤ length (Breaker._file_iterator [str_of "Ab"; str_of "c."]
                      (str_of "abc"))
  | Raise e =>
      (e = AlphabetInvalid "alphabet characters must be unique"
       ∧ ¬ NoDup (lower (str_of "abc")))
      ∨ (e = AlphabetInvalid "Alphabet must have less or equal than 32 characters"
         ∧ NoDup (lower (str_of "abc")) ∧ 32 < length (str_of "abc"))
      ∨ (e = StopIteration
         ∧ NoDup (lower (str_of "abc")) ∧ length (str_of "abc") ≤ 32
         ∧ length (Breaker._file_iterator [str_of "Ab"; str_of "c."]
                     (str_of "abc")) < 3)
      ∨ (e = ZeroDivisionError
         ∧ NoDup (lower (str_of "abc")) ∧ length (str_of "abc") ≤ 32
         ∧ length (Breaker._file_iterator [str_of "Ab"; str_of "c."]
                     (str_of "abc")) = 3)
  | OutOfFuel => False
  end.
Proof.
  apply (generate_quadgrams_errors (λ x, x) [str_of "Ab"; str_of "c."]
           (str_of "abc")).
  - intros x y Hx Hxy. lra.
  - reflexivity.
  - repeat constructor.
Defined.

(** ** Keys from keywords *)

Lemma list_remove_Ok {A : Type} `{EqDecision A} (l : list A) (x : A) :
  x ∈ l → ∃ l', list_remove l x = Ok l' ∧ l ≡ₚ x :: l'.
Proof.
  induction l as [|y l IH]; [by intros ?%elem_of_nil|].
  intros Hin. simpl. destruct (decide (y = x)) as [->|Hne]; [by exists l|].
  apply elem_of_cons in Hin as [->|Hin]; [done|].
  destruct (IH Hin) as (l' & -> & Hperm). exists (y :: l'). split; [done|].
  rewrite Hperm. apply Permutation_swap.
Qed.

Lemma filter_all {A : Type} (P : A → Prop) `{∀ x, Decision (P x)} (l : list A) :
  Forall P l → filter P l = l.
Proof.
  induction 1 as [|x l Hx _ IH]; [done|].
  by rewrite filter_cons_True, IH.
Qed.

Lemma list_remove_NoDup {A : Type} `{EqDecision A} (l : list A) (x : A) :
  NoDup l → x ∈ l → list_remove l x = Ok (filter (λ y, y ≠ x) l).
Proof.
  induction l as [|y l IH]; [by intros _ ?%elem_of_nil|].
  intros [Hy Hnd]%NoDup_cons Hin. simpl.
  destruct (decide (y = x)) as [->|Hne].
  - rewrite filter_cons_False by (by intros ?). f_equal. symmetry.
    apply filter_all. apply list.Forall_forall. intros z Hz ->. done.
  - apply elem_of_cons in Hin as [->|Hin]; [done|].
    rewrite (IH Hnd Hin). simpl. by rewrite filter_cons_True.
Qed.

Lemma list_remove_Raise {A : Type} `{EqDecision A} (l : list A) (x : A) :
  x ∉ l → list_remove l x = Raise (ValueError "list.remove(x): x not in list").
Proof.
  induction l as [|y l IH]; [done|].
  intros [Hne Hnin]%not_elem_of_cons. simpl.
  rewrite decide_False by done. by rewrite (IH Hnin).
Qed.

Lemma elem_of_distinct (s : str) (c : ascii) : c ∈ distinct s ↔ c ∈ s.
Proof.
  induction s as [|d s IH]; [done|]. simpl.
  rewrite !elem_of_cons, list_elem_of_filter, IH.
  destruct (decide (c = d)); naive_solver.
Qed.

Lemma NoDup_distinct (s : str) : NoDup (distinct s).
Proof.
  induction s as [|d s IH]; [constructor|]. simpl. apply NoDup_cons. split.
  - rewrite list_elem_of_filter. naive_solver.
  - by apply NoDup_filter.
Qed.

Lemma distinct_snoc (s : str) (c : ascii) :
  distinct (s ++ [c])
  = if decide (c ∈ s) then distinct s else distinct s ++ [c].
Proof.
  induction s as [|d s IH]; [done|]. simpl. rewrite IH.
  destruct (decide (c = d)) as [->|Hne].
  - rewrite (decide_True (P := d ∈ d :: s)) by left.
    destruct (decide (d ∈ s)); [done|].
    rewrite filter_app, filter_cons_False by (by intros ?).
    by rewrite filter_nil, app_nil_r.
  - destruct (decide (c ∈ s)) as [Hin|Hnin].
    + by rewrite (decide_True (P := c ∈ d :: s)) by (by right).
    + rewrite (decide_False (P := c ∈ d :: s))
        by (by intros [?|?]%elem_of_cons).
      rewrite filter_app, filter_cons_True by done. by rewrite filter_nil.
Qed.

Section keyword_loop.

Context (a : str).

Local Abbreviation keyword_step :=
  (λ (char : ascii) '(kw_list, alpha_list),
     if decide (char ∉ kw_list) then
       let kw_list := kw_list ++ [char] in
       alpha_list ← list_remove alpha_list char;
       Ok (kw_list, alpha_list)
     else Ok (kw_list, alpha_list)).

(** The loop of [build_key_from_keyword], from the state reached after
    the characters [seen]. *)
Lemma keyword_loop (rest seen al : str) :
  distinct seen ++ al ≡ₚ a →
  (NoDup a → al = filter (λ c, c ∉ seen) a) →
  match for_ rest keyword_step (distinct seen, al) with
  | Ok (kw', al') =>
      Forall (λ c, c ∈ a) rest
      ∧ kw' = distinct (seen ++ rest)
      ∧ kw' ++ al' ≡ₚ a
      ∧ (NoDup a → al' = filter (λ c, c ∉ seen ++ rest) a)
  | Raise e =>
      e = ValueError "list.remove(x): x not in list"
      ∧ Exists (λ c, c ∉ a) rest
  | OutOfFuel => False
  end.
Proof.
  revert seen al. induction rest as [|c rest IH]; intros seen al Hperm Hal.
  - simpl. rewrite app_nil_r. split; [constructor|]. by repeat split.
  - rewrite for__cons. cbn beta iota.
    destruct (decide (c ∉ distinct seen)) as [Hnew|Hold].
    + rewrite elem_of_distinct in Hnew.
      destruct (decide (c ∈ a)) as [Hin|Hnin].
      * assert (c ∈ al) as Hcal.
        { rewrite <- Hperm in Hin. apply elem_of_app in Hin as [Hk|?]; [|done].
          destruct Hnew. by apply elem_of_distinct. }
        destruct (list_remove_Ok al c Hcal) as (al1 & Hrem & Hal1).
        cbn zeta. rewrite Hrem. simpl.
        assert (distinct seen ++ [c] = distinct (seen ++ [c])) as Hsnoc.
        { by rewrite distinct_snoc, decide_False. }
        rewrite Hsnoc.
        assert (distinct (seen ++ [c]) ++ al1 ≡ₚ a) as Hp1.
        { rewrite <- Hsnoc, <- Hperm, Hal1, <- app_assoc. done. }
        assert (NoDup a → al1 = filter (λ d, d ∉ seen ++ [c]) a) as Ha1.
        { intros Hnd. rewrite (Hal Hnd) in Hrem.
          rewrite list_remove_NoDup in Hrem;
            [|by apply NoDup_filter|by rewrite <- (Hal Hnd)].
          injection Hrem as <-. rewrite list_filter_filter.
          apply list_filter_iff. intros d.
          rewrite elem_of_app, list_elem_of_singleton. naive_solver. }
        specialize (IH (seen ++ [c]) al1 Hp1 Ha1).
        rewrite <- (app_assoc seen [c] rest) in IH. simpl in IH.
        destruct (for_ rest _ _) as [[kw' al']|e|]; [| |done].
        -- destruct IH as (Hall & Hkw & Hperm' & Hal').
           split; [by constructor|done].
        -- destruct IH as (He & Hex). split; [done|by right].
      * assert (c ∉ al) as Hcal.
        { intros Hc. apply Hnin. rewrite <- Hperm. apply elem_of_app. by right. }
        cbn zeta. rewrite (list_remove_Raise al c Hcal). simpl.
        split; [done|by left].
    + apply dec_stable in Hold. rewrite elem_of_distinct in Hold.
      simpl. specialize (IH (seen ++ [c]) al).
      rewrite <- (app_assoc seen [c] rest) in IH. simpl in IH.
      rewrite distinct_snoc, decide_True in IH by done.
      assert (c ∈ a) as Hin.
      { rewrite <- Hperm. apply elem_of_app. left. by apply elem_of_distinct. }
      assert (NoDup a → al = filter (λ c0, c0 ∉ seen ++ [c]) a) as Hal'.
      { intros Hnd. rewrite (Hal Hnd). apply list_filter_iff. intros d.
        rewrite elem_of_app, list_elem_of_singleton. naive_solver. }
      specialize (IH Hperm Hal').
      destruct (for_ rest _ _) as [[kw' al']|e|]; [|by destruct IH; split; [|right]|done].
      destruct IH as (Hall & Hkw & Hperm' & Hal''). split; [by constructor|done].
Qed.

End keyword_loop.

Lemma build_key_run (alphabet keyword : str) :
  match Command.build_key_from_keyword alphabet keyword with
  | Ok key =>
      Forall (λ c, c ∈ lower alphabet) (lower keyword)
      ∧ key ≡ₚ lower alphabet
      ∧ (NoDup (lower alphabet) →
         key = distinct (lower keyword)
               ++ filter (λ c, c ∉ lower keyword) (lower alphabet))
  | Raise e =>
      e = ValueError "list.remove(x): x not in list"
      ∧ Exists (λ c, c ∉ lower alphabet) (lower keyword)
  | OutOfFuel => False
  end.
Proof.
  unfold Command.build_key_from_keyword.
  pose proof (keyword_loop (lower alphabet) (lower keyword) [] (lower alphabet))
    as Hloop.
  simpl in Hloop.
  destruct (for_ (lower keyword) _ _) as [[kw al]|e|]; simpl.
  - destruct Hloop as (Hall & -> & Hperm & Hal); [done| |].
    { intros _. symmetry. apply filter_all. apply list.Forall_forall.
      intros c _. apply not_elem_of_nil. }
    split; [done|]. split; [done|]. intros Hnd. by rewrite (Hal Hnd).
  - apply Hloop; [done|].
    intros _. symmetry. apply filter_all. apply list.Forall_forall.
    intros c _. apply not_elem_of_nil.
  - apply Hloop; [done|].
    intros _. symmetry. apply filter_all. apply list.Forall_forall.
    intros c _. apply not_elem_of_nil.
Qed.

(** [build_key_from_keyword] returns a key exactly when every character of
    the keyword is in the alphabet (both in lower case); the key is then a
    permutation of the alphabet.  A keyword with a character that the
    alphabet lacks makes [list.remove] raise [ValueError]. *)
Theorem build_key_from_keyword_spec (alphabet keyword : str) :
  is_ascii alphabet = true →
  is_ascii keyword = true →
  match Command.build_key_from_keyword alphabet keyword with
  | Ok key =>
      Forall (λ c, c ∈ lower alphabet) (lower keyword)
      ∧ key ≡ₚ lower alphabet
  | Raise e =>
      e = ValueError "list.remove(x): x not in list"
      ∧ Exists (λ c, c ∉ lower alphabet) (lower keyword)
  | OutOfFuel => False
  end.
Proof.
  intros _ _. pose proof (build_key_run alphabet keyword) as Hrun.
  destruct (Command.build_key_from_keyword alphabet keyword); [|done..].
  by destruct Hrun as (? & ? & _).
Qed.

Lemma build_key_from_keyword_spec_witness :
  match Command.build_key_from_keyword (str_of "abcdef") (str_of "Bad-Cab") with
  | Ok key =>
      Forall (λ c, c ∈ lower (str_of "abcdef")) (lower (str_of "Bad-Cab"))
      ∧ key ≡ₚ lower (str_of "abcdef")
  | Raise e =>
      e = ValueError "list.remove(x): x not in list"
      ∧ Exists (λ c, c ∉ lower (str_of "abcdef")) (lower (str_of "Bad-Cab"))
  | OutOfFuel => False
  end.
Proof.
  apply (build_key_from_keyword_spec (str_of "abcdef") (str_of "Bad-Cab"));
    reflexivity.
Defined.

(** For an ASCII alphabet without repeated symbols and an ASCII keyword
    written in it, the key is the keyword without its repeated characters,
    followed by the symbols of the alphabet that the keyword does not use,
    in the order of the alphabet; and [Key] accepts it as a key for the
    alphabet. *)
Theorem keyword_key (alphabet keyword : str) :
  is_ascii alphabet = true →
  is_ascii keyword = true →
  NoDup (lower alphabet) →
  Forall (λ c, c ∈ lower alphabet) (lower keyword) →
  ∃ self,
    Command.build_key_from_keyword alphabet keyword
    = Ok (distinct (lower keyword)
          ++ filter (λ c, c ∉ lower keyword) (lower alphabet))
    ∧ Key.__init__
        (distinct (lower keyword)
         ++ filter (λ c, c ∉ lower keyword) (lower alphabet)) alphabet
      = Ok self.
Proof.
  intros _ _ Hnd Hall. pose proof (build_key_run alphabet keyword) as Hrun.
  destruct (Command.build_key_from_keyword alphabet keyword) as [key|e|].
  - destruct Hrun as (_ & Hperm & Hkey). rewrite <- (Hkey Hnd).
    destruct (Key_init_Permutation (lower key) (lower alphabet)) as [self Hself].
    + by rewrite lower_idemp.
    + assert (lower key ≡ₚ lower (lower alphabet)) as Hlow
        by (by apply fmap_Permutation).
      by rewrite lower_idemp in Hlow.
    + exists self. split; [done|]. by rewrite Key_init_lower.
  - destruct Hrun as [_ Hex]. apply Exists_exists in Hex as (c & Hc & Hnin).
    rewrite list.Forall_forall in Hall. destruct Hnin. by apply Hall.
  - done.
Qed.

Lemma keyword_key_witness :
  ∃ self,
    Command.build_key_from_keyword (str_of "abcdefghijklmnopqrstuvwxyz")
      (str_of "Zebras")
    = Ok (distinct (lower (str_of "Zebras"))
          ++ filter (λ c, c ∉ lower (str_of "Zebras"))
               (lower (str_of "abcdefghijklmnopqrstuvwxyz")))
    ∧ Key.__init__
        (distinct (lower (str_of "Zebras"))
         ++ filter (λ c, c ∉ lower (str_of "Zebras"))
              (lower (str_of "abcdefghijklmnopqrstuvwxyz")))
        (str_of "abcdefghijklmnopqrstuvwxyz")
      = Ok self.
Proof.
  apply (keyword_key (str_of "abcdefghijklmnopqrstuvwxyz") (str_of "Zebras")).
  - reflexivity.
  - reflexivity.
  - apply (bool_decide_unpack _). vm_compute. exact I.
  - apply (bool_decide_unpack _). vm_compute. exact I.
Defined.
